(** * Dual-backend LRU response cache: a shallow embedding

  The development follows the Python sources of the cache subsystem:

  - [cache_module/lru_memory_cache.py]  (module [LRUInMemoryCache])
  - [cache_module/lru_sqlite_cache.py]  (module [LRUSQLiteCache])
  - [cache_module/cache_manager.py]     (module [CacheManager])
  - [config_module/config.py]           (record [CacheManager.Config])

  Python objects that are mutated in place become explicit states that
  every operation takes and returns; an operation that can raise returns
  an [outcome] next to the state, because in Python the mutations done
  before the exception stay.  Clock readings ([datetime.now()],
  [CURRENT_TIMESTAMP]) and what the surroundings answer (failures of
  the storage engine, of the file system and of standard output) are
  inputs of the operations. *)

From Stdlib Require Import ZArith List String Ascii Bool Lia Permutation Sorted.
From Stdlib Require Import DecimalString.
Import ListNotations.

Local Open Scope string_scope.
Local Open Scope list_scope.
Local Open Scope Z_scope.

(** ** Python values, exceptions and outcomes *)

Module Py.

(** [langchain.schema.Generation]: the text of a completion and the
    optional provider payload that travels with it. *)
Record Generation : Type := mkGeneration {
  text : string;
  generation_info : option string
}.

(** The values that flow through the cache interface. *)
Inductive value : Type :=
| VNone
| VStr (s : string)
| VGeneration (g : Generation).

Inductive exn : Type :=
| AttributeError (msg : string)
| KeyError (msg : string)
| SqliteError (msg : string)      (* sqlite3.Error and its subclasses *)
| RuntimeError (msg : string)
| OSError (msg : string)
| PrintError (msg : string)        (* whatever [print] raises *)
| OtherError (msg : string).

(** [str(e)] *)
Definition str_exn (e : exn) : string :=
  match e with
  | AttributeError m | SqliteError m | RuntimeError m
  | OSError m | PrintError m | OtherError m => m
  | KeyError m => "'" ++ m ++ "'"
  end%string.

Definition is_sqlite_error (e : exn) : bool :=
  match e with SqliteError _ => true | _ => false end.

Inductive outcome (A : Type) : Type :=
| Return (a : A)
| Raise (e : exn).
Arguments Return {A} a.
Arguments Raise {A} e.

(** [v.text] *)
Definition getattr_text (v : value) : outcome string :=
  match v with
  | VGeneration g => Return (text g)
  | VStr _ => Raise (AttributeError "'str' object has no attribute 'text'")
  | VNone => Raise (AttributeError "'NoneType' object has no attribute 'text'")
  end.

Definition option_eqb {A} (eqb : A -> A -> bool) (a b : option A) : bool :=
  match a, b with
  | None, None => true
  | Some x, Some y => eqb x y
  | _, _ => false
  end.

(** [a == b]: values of different classes are never equal. *)
Definition eqb (a b : value) : bool :=
  match a, b with
  | VNone, VNone => true
  | VStr s, VStr s' => String.eqb s s'
  | VGeneration g, VGeneration g' =>
      String.eqb (text g) (text g')
      && option_eqb String.eqb (generation_info g) (generation_info g')
  | _, _ => false
  end.

(** [str(n)] for an integer *)
Definition str_int (n : Z) : string := NilZero.string_of_int (Z.to_int n).

End Py.

Import Py.

(** ** The in-memory backend: [lru_memory_cache.py]

    Every public method runs under [self._lock] from its first access to
    the dict to its return, so a call is one step on the state. *)

Module LRUInMemoryCache.

(** [_generate_key] returns the tuple [(prompt, llm_string)]. *)
Definition Key : Type := (string * string)%type.

Definition key_eqb (a b : Key) : bool :=
  String.eqb (fst a) (fst b) && String.eqb (snd a) (snd b).

(** The dict stored per key.  Clock readings are in microseconds, the
    resolution of [datetime]. *)
Record Entry : Type := mkEntry {
  response : string;
  created_at : Z;
  last_accessed : Z
}.

Record Stats : Type := mkStats {
  hits : Z;
  misses : Z;
  evictions : Z;
  expired : Z
}.

(** An [OrderedDict]: the list is the iteration order, first inserted
    first; [popitem(last=False)] takes the head. *)
Definition OrderedDict : Type := list (Key * Entry).

Record t : Type := mkCache {
  _cache : OrderedDict;
  max_size : Z;
  ttl : option Z;          (* seconds; [None] = never expires *)
  _stats : Stats
}.

(** *** OrderedDict primitives *)

Definition keys (d : OrderedDict) : list Key := map fst d.

(** [key in d] *)
Definition contains (k : Key) (d : OrderedDict) : bool :=
  existsb (fun p => key_eqb k (fst p)) d.

(** [d[key]] *)
Fixpoint getitem (k : Key) (d : OrderedDict) : option Entry :=
  match d with
  | [] => None
  | (k', e) :: rest => if key_eqb k k' then Some e else getitem k rest
  end.

(** [del d[key]] (the callers test [key in d] first) *)
Fixpoint delitem (k : Key) (d : OrderedDict) : OrderedDict :=
  match d with
  | [] => []
  | (k', e) :: rest =>
      if key_eqb k k' then rest else (k', e) :: delitem k rest
  end.

(** [d[key] = e]: in place when the key is there, at the end otherwise *)
Fixpoint setitem (k : Key) (e : Entry) (d : OrderedDict) : OrderedDict :=
  match d with
  | [] => [(k, e)]
  | (k', e') :: rest =>
      if key_eqb k k' then (k', e) :: rest else (k', e') :: setitem k e rest
  end.

(** [d.move_to_end(key)] *)
Definition move_to_end (k : Key) (d : OrderedDict) : OrderedDict :=
  match getitem k d with
  | Some e => delitem k d ++ [(k, e)]
  | None => d
  end.

(** [d.popitem(last=False)] *)
Definition popitem_first (d : OrderedDict)
  : outcome ((Key * Entry) * OrderedDict) :=
  match d with
  | [] => Raise (KeyError "dictionary is empty")
  | p :: rest => Return (p, rest)
  end.

Definition len (d : OrderedDict) : Z := Z.of_nat (List.length d).

(** *** The class *)

Definition _reset_stats : Stats :=
  {| hits := 0; misses := 0; evictions := 0; expired := 0 |}.

(** [__init__] *)
Definition __init__ (max_size : Z) (ttl : option Z) : t :=
  {| _cache := [];
     max_size := Z.max max_size 1;
     ttl := ttl;
     _stats := _reset_stats |}.

Definition _generate_key (prompt llm_string : string) : Key :=
  (prompt, llm_string).

(** *** [timedelta.total_seconds()]

    A float is kept as the exact fraction it denotes. *)
Record Fraction : Type := mkFraction {
  numerator : Z;
  denominator : Z          (* positive *)
}.

(** [n / d] rounded to the nearest integer, a tie going to the even one
    ([0 <= n], [0 < d]). *)
Definition round_half_even (n d : Z) : Z :=
  let q := n / d in
  let r := n mod d in
  if 2 * r <? d then q
  else if d <? 2 * r then q + 1
  else if Z.even q then q else q + 1.

(** The number [s] of binary places a float has behind the point when
    it holds [a / d]: the one with [2^52 <= a * 2^s / d < 2^53], since a
    float has 53 significant bits ([0 < a], [0 < d] and [a / d < 2^52]). *)
Definition binary_places (a d : Z) : Z :=
  let s := 52 - (Z.log2 a - Z.log2 d) in
  if a * 2 ^ s <? d * 2 ^ 52 then s + 1 else s.

(** [timedelta.min] and [timedelta.max] in microseconds: 999999999 days
    either way. *)
Definition timedelta_min : Z := -86399999913600000000.
Definition timedelta_max : Z := 86399999999999999999.

(** [td.total_seconds()], which is [microseconds / 10**6]: the true
    division of two ints gives the float nearest to the quotient, a tie
    going to the even significand.  Every [timedelta] lies between
    [timedelta.min] and [timedelta.max], so the quotient is below 2^47.
    Clock readings that are further apart than any two [datetime]s can
    be have no [timedelta]; for them the quotient is kept exact. *)
Definition total_seconds (microseconds : Z) : Fraction :=
  if (timedelta_min <=? microseconds) && (microseconds <=? timedelta_max) then
    let a := Z.abs microseconds in
    let s := binary_places a 1000000 in
    {| numerator := Z.sgn microseconds * round_half_even (a * 2 ^ s) 1000000;
       denominator := 2 ^ s |}
  else
    {| numerator := microseconds; denominator := 1000000 |}.

(** [x > n] for a float [x] and an int [n]: Python compares the two
    numbers exactly. *)
Definition gt_int (x : Fraction) (n : Z) : bool :=
  n * denominator x <? numerator x.

(** [_is_expired] *)
Definition _is_expired (self : t) (now : Z) (entry : Entry) : bool :=
  match ttl self with
  | None => false
  | Some T =>
      let elapsed := total_seconds (now - last_accessed entry) in
      gt_int elapsed T
  end.

Definition bump_misses (s : Stats) : Stats :=
  {| hits := hits s; misses := misses s + 1;
     evictions := evictions s; expired := expired s |}.
Definition bump_expired (s : Stats) : Stats :=
  {| hits := hits s; misses := misses s;
     evictions := evictions s; expired := expired s + 1 |}.
Definition bump_hits (s : Stats) : Stats :=
  {| hits := hits s + 1; misses := misses s;
     evictions := evictions s; expired := expired s |}.
Definition set_evictions (s : Stats) (n : Z) : Stats :=
  {| hits := hits s; misses := misses s;
     evictions := n; expired := expired s |}.

Definition with_cache (self : t) (d : OrderedDict) (s : Stats) : t :=
  {| _cache := d; max_size := max_size self; ttl := ttl self; _stats := s |}.

(** [lookup]: [now_check] is the clock read by [_is_expired],
    [now_touch] the one stored in [last_accessed] on a hit. *)
Definition lookup (self : t) (now_check now_touch : Z)
           (prompt llm_string : string) : option Generation * t :=
  let key := _generate_key prompt llm_string in
  match getitem key (_cache self) with
  | None =>
      (None, with_cache self (_cache self) (bump_misses (_stats self)))
  | Some entry =>
      if _is_expired self now_check entry then
        (None,
         with_cache self (delitem key (_cache self))
                    (bump_misses (bump_expired (_stats self))))
      else
        (* move_to_end, then the entry dict is mutated in place *)
        let moved := move_to_end key (_cache self) in
        let entry' := {| response := response entry;
                         created_at := created_at entry;
                         last_accessed := now_touch |} in
        (Some (mkGeneration (response entry) None),
         with_cache self (setitem key entry' moved) (bump_hits (_stats self)))
  end.

(** The eviction loop shared by [update] and [resize]:
    [while <full>(len(cache)): cache.popitem(last=False); evictions += 1].
    The state reached is returned also when [popitem] raises. *)
Fixpoint evict_while (full : Z -> bool) (d : OrderedDict) (ev : Z)
         {struct d} : outcome unit * (OrderedDict * Z) :=
  if full (len d) then
    match d with
    | [] => (Raise (KeyError "dictionary is empty"), (d, ev))
    | _ :: rest => evict_while full rest (ev + 1)
    end
  else (Return tt, (d, ev)).

(** [update] *)
Definition update (self : t) (now : Z) (prompt llm_string : string)
           (return_val : value) : outcome unit * t :=
  let key := _generate_key prompt llm_string in
  let d0 := if contains key (_cache self)
            then delitem key (_cache self) else _cache self in
  match evict_while (fun n => n >=? max_size self) d0
                    (evictions (_stats self)) with
  | (Raise e, (d1, ev)) =>
      (Raise e, with_cache self d1 (set_evictions (_stats self) ev))
  | (Return _, (d1, ev)) =>
      let self1 := with_cache self d1 (set_evictions (_stats self) ev) in
      match getattr_text return_val with
      | Raise e => (Raise e, self1)
      | Return txt =>
          (Return tt,
           with_cache self1
             (setitem key {| response := txt; created_at := now;
                             last_accessed := now |} d1)
             (_stats self1))
      end
  end.

(** [clear] *)
Definition clear (self : t) : t := with_cache self [] _reset_stats.

(** [resize] *)
Definition resize (self : t) (new_size : Z) : outcome unit * t :=
  let m := Z.max new_size 1 in
  match evict_while (fun n => n >? m) (_cache self)
                    (evictions (_stats self)) with
  | (o, (d1, ev)) =>
      (o, {| _cache := d1; max_size := m; ttl := ttl self;
             _stats := set_evictions (_stats self) ev |})
  end.

(** [get_stats()['current_size']] *)
Definition current_size (self : t) : Z := len (_cache self).

(** [min(values, default=None)] and [max(values, default=None)] *)
Fixpoint min_default (l : list Z) : option Z :=
  match l with
  | [] => None
  | x :: rest =>
      match min_default rest with
      | None => Some x
      | Some m => Some (Z.min x m)
      end
  end.

Fixpoint max_default (l : list Z) : option Z :=
  match l with
  | [] => None
  | x :: rest =>
      match max_default rest with
      | None => Some x
      | Some m => Some (Z.max x m)
      end
  end.

(** The value under ['hit_rate']: the int [0] when nothing was looked
    up, otherwise the float [round(hits / total, 4)], kept as the two
    integers it is computed from. *)
Inductive HitRate : Type :=
| IntZero
| Rounded4 (hits total : Z).

(** The dict returned by [get_stats]; a timestamp stands for its
    [isoformat()]. *)
Record StatsDict : Type := mkStatsDict {
  stat_type : string;
  stat_current_size : Z;
  stat_max_size : Z;
  stat_hits : Z;
  stat_misses : Z;
  stat_hit_rate : HitRate;
  stat_evictions : Z;
  stat_expired : Z;
  stat_oldest_entry : option Z;
  stat_newest_entry : option Z;
  stat_ttl : option Z
}.

(** [get_stats] *)
Definition get_stats (self : t) : StatsDict :=
  let total := hits (_stats self) + misses (_stats self) in
  let hit_rate := if total >? 0
                  then Rounded4 (hits (_stats self)) total else IntZero in
  let stamps := map (fun p => last_accessed (snd p)) (_cache self) in
  {| stat_type := "lru_memory";
     stat_current_size := len (_cache self);
     stat_max_size := max_size self;
     stat_hits := hits (_stats self);
     stat_misses := misses (_stats self);
     stat_hit_rate := hit_rate;
     stat_evictions := evictions (_stats self);
     stat_expired := expired (_stats self);
     stat_oldest_entry := min_default stamps;
     stat_newest_entry := max_default stamps;
     stat_ttl := ttl self |}.


End LRUInMemoryCache.


(** ** The durable backend: [lru_sqlite_cache.py] *)

Module LRUSQLiteCache.

(** A row of table [lru_cache]; [CURRENT_TIMESTAMP] has a resolution of
    one second, so timestamps here are in seconds. *)
Record Row : Type := mkRow {
  id : Z;
  prompt : string;
  llm_string : string;
  response : string;
  created_at : Z;
  last_accessed : Z
}.

(** The database file.  [trigger_lru_eviction] holds the bound that was
    written into the trigger's text when it was created, if it exists.
    The table and the two indexes carry no state of their own beyond the
    rows: [CREATE ... IF NOT EXISTS] leaves the rows as they are. *)
Record Database : Type := mkDatabase {
  lru_cache : list Row;
  trigger_lru_eviction : option Z
}.

Definition empty_database : Database :=
  {| lru_cache := []; trigger_lru_eviction := None |}.

(** The connection: what is on disk and the open transaction, if any. *)
Record Connection : Type := mkConnection {
  committed : Database;
  pending : option Database
}.

Definition working (c : Connection) : Database :=
  match pending c with
  | Some d => d
  | None => committed c
  end.

(** *** Engine calls

    Every call into the storage engine reads the next entry of [faults]:
    [Some msg] makes the call raise [sqlite3.Error(msg)] and change
    nothing.  The [print] of [_handle_error] reads the entry that
    follows the ones the engine calls have read. *)
Record Engine : Type := mkEngine {
  conn : Connection;
  faults : list (option string)
}.

Definition M (A : Type) : Type := Engine -> outcome A * Engine.

Definition ret {A} (a : A) : M A := fun s => (Return a, s).

Definition bind {A B} (m : M A) (f : A -> M B) : M B :=
  fun s =>
    match m s with
    | (Return a, s') => f a s'
    | (Raise e, s') => (Raise e, s')
    end.

Notation "x <- m ;; k" := (bind m (fun x => k))
  (at level 61, m at next level, right associativity).
Notation "m ;; k" := (bind m (fun _ => k))
  (at level 61, right associativity).

Definition raise {A} (e : exn) : M A := fun s => (Raise e, s).

(** [try: body except sqlite3.Error as e: handler(e)] *)
Definition try_except_sqlite {A} (body : M A) (handler : exn -> M A) : M A :=
  fun s =>
    match body s with
    | (Return a, s') => (Return a, s')
    | (Raise e, s') =>
        if is_sqlite_error e then handler e s' else (Raise e, s')
    end.

Definition engine_call : M unit :=
  fun s =>
    match faults s with
    | Some msg :: rest =>
        (Raise (SqliteError msg), {| conn := conn s; faults := rest |})
    | None :: rest => (Return tt, {| conn := conn s; faults := rest |})
    | [] => (Return tt, s)
    end.

(** A [SELECT]: reads the open transaction's view. *)
Definition execute_query {A} (q : Database -> A) : M A :=
  engine_call ;;
  fun s => (Return (q (working (conn s))), s).

(** An [INSERT], [UPDATE] or [DELETE]: opens a transaction when none is
    open (the implicit [BEGIN] of the [sqlite3] module). *)
Definition execute_dml (stmt : Database -> Database) : M unit :=
  engine_call ;;
  fun s =>
    (Return tt,
     {| conn := {| committed := committed (conn s);
                   pending := Some (stmt (working (conn s))) |};
        faults := faults s |}).

(** A [CREATE]: no implicit [BEGIN]; outside a transaction it is
    written at once. *)
Definition execute_ddl (stmt : Database -> Database) : M unit :=
  engine_call ;;
  fun s =>
    (Return tt,
     {| conn := match pending (conn s) with
                | Some d => {| committed := committed (conn s);
                               pending := Some (stmt d) |}
                | None => {| committed := stmt (committed (conn s));
                             pending := None |}
                end;
        faults := faults s |}).

(** [conn.commit()]: nothing to do, and no engine call, when no
    transaction is open. *)
Definition commit : M unit :=
  fun s =>
    match pending (conn s) with
    | None => (Return tt, s)
    | Some d =>
        match engine_call s with
        | (Return _, s') =>
            (Return tt,
             {| conn := {| committed := d; pending := None |};
                faults := faults s' |})
        | (Raise e, s') => (Raise e, s')
        end
    end.

(** [conn.rollback()] *)
Definition rollback (s : Engine) : Engine :=
  {| conn := {| committed := committed (conn s); pending := None |};
     faults := faults s |}.

(** [with self.conn: body]: commit on normal exit, roll back when the
    body (or that commit) raised. *)
Definition with_conn {A} (body : M A) : M A :=
  fun s =>
    match body s with
    | (Return a, s') =>
        match commit s' with
        | (Return _, s'') => (Return a, s'')
        | (Raise e, s'') => (Raise e, rollback s'')
        end
    | (Raise e, s') => (Raise e, rollback s')
    end.

(** *** The SQL statements *)

Definition same_key (p l : string) (r : Row) : bool :=
  String.eqb p (prompt r) && String.eqb l (llm_string r).

Definition with_rows (db : Database) (rows : list Row) : Database :=
  {| lru_cache := rows; trigger_lru_eviction := trigger_lru_eviction db |}.

(** [SELECT response FROM lru_cache WHERE prompt = ? AND llm_string = ?]
    followed by [fetchone()] *)
Definition select_response (p l : string) (db : Database) : option string :=
  option_map response (find (same_key p l) (lru_cache db)).

(** [UPDATE lru_cache SET last_accessed = CURRENT_TIMESTAMP WHERE ...] *)
Definition update_last_accessed (now : Z) (p l : string) (db : Database)
  : Database :=
  with_rows db
    (map (fun r =>
            if same_key p l r
            then {| id := id r; prompt := prompt r;
                    llm_string := llm_string r; response := response r;
                    created_at := created_at r; last_accessed := now |}
            else r)
         (lru_cache db)).

(** The rowid given to a new row: one more than the largest in use. *)
Definition next_id (rows : list Row) : Z :=
  fold_right Z.max 0 (map id rows) + 1.

(** [ORDER BY last_accessed ASC], read off index [idx_cache_access]:
    equal timestamps come in rowid order. *)
Definition row_leb (a b : Row) : bool :=
  (last_accessed a <? last_accessed b)
  || ((last_accessed a =? last_accessed b) && (id a <=? id b)).

Fixpoint insert_row (r : Row) (sorted : list Row) : list Row :=
  match sorted with
  | [] => [r]
  | x :: rest => if row_leb r x then r :: sorted else x :: insert_row r rest
  end.

Definition order_by_last_accessed (rows : list Row) : list Row :=
  fold_right insert_row [] rows.

Definition count (db : Database) : Z := Z.of_nat (List.length (lru_cache db)).

(** The body of [trigger_lru_eviction]:
    [DELETE FROM lru_cache WHERE id IN
       (SELECT id FROM lru_cache ORDER BY last_accessed ASC
        LIMIT (SELECT COUNT( * ) FROM lru_cache) - bound)] *)
Definition trigger_delete (bound : Z) (db : Database) : Database :=
  let victims :=
    map id (firstn (Z.to_nat (count db - bound))
                   (order_by_last_accessed (lru_cache db))) in
  with_rows db
    (filter (fun r => negb (existsb (Z.eqb (id r)) victims)) (lru_cache db)).

(** [AFTER INSERT ON lru_cache WHEN (SELECT COUNT( * ) FROM lru_cache) > bound] *)
Definition fire_trigger (db : Database) : Database :=
  match trigger_lru_eviction db with
  | Some bound => if count db >? bound then trigger_delete bound db else db
  | None => db
  end.

(** [INSERT OR REPLACE INTO lru_cache (prompt, llm_string, response,
    last_accessed) VALUES (?, ?, ?, CURRENT_TIMESTAMP)]: the row that
    conflicts on [UNIQUE(prompt, llm_string)] is deleted, the new row is
    inserted with a fresh rowid and the default [created_at], and the
    trigger runs inside the same statement. *)
Definition insert_or_replace (now : Z) (p l resp : string) (db : Database)
  : Database :=
  let new_row := {| id := next_id (lru_cache db); prompt := p;
                    llm_string := l; response := resp;
                    created_at := now; last_accessed := now |} in
  fire_trigger
    (with_rows db
       (filter (fun r => negb (same_key p l r)) (lru_cache db) ++ [new_row])).

(** [DELETE FROM lru_cache] *)
Definition delete_all (db : Database) : Database := with_rows db [].

(** [CREATE TRIGGER IF NOT EXISTS trigger_lru_eviction ...] with
    [{self.max_size}] substituted into the text. *)
Definition create_trigger_if_not_exists (bound : Z) (db : Database)
  : Database :=
  match trigger_lru_eviction db with
  | Some _ => db
  | None => {| lru_cache := lru_cache db; trigger_lru_eviction := Some bound |}
  end.

(** [CREATE TABLE IF NOT EXISTS] and [CREATE INDEX IF NOT EXISTS] *)
Definition create_if_not_exists (db : Database) : Database := db.

Fixpoint minimum (l : list Z) : option Z :=
  match l with
  | [] => None
  | x :: rest =>
      match minimum rest with
      | None => Some x
      | Some m => Some (Z.min x m)
      end
  end.

Fixpoint maximum (l : list Z) : option Z :=
  match l with
  | [] => None
  | x :: rest =>
      match maximum rest with
      | None => Some x
      | Some m => Some (Z.max x m)
      end
  end.

(** *** The class *)

Record t : Type := mkCache {
  max_size : Z;
  connection : Connection;
  stdout : list string      (* what [_handle_error] printed *)
}.

Definition with_connection (self : t) (c : Connection) : t :=
  {| max_size := max_size self; connection := c; stdout := stdout self |}.

(** [print(line)].  Standard output belongs to the surroundings:
    [answers] are the entries of [faults] that are left, and the first
    one says whether the stream takes the line.  [Some msg] is the
    exception [print] raises, with [msg] its text: the
    [UnicodeEncodeError] of a stream whose encoding has no code for a
    character of the line, or the error of a closed or broken stream;
    nothing is written then. *)
Definition print (self : t) (answers : list (option string)) (line : string)
  : outcome unit * t :=
  match answers with
  | Some msg :: _ => (Raise (PrintError msg), self)
  | _ =>
      (Return tt,
       {| max_size := max_size self; connection := connection self;
          stdout := stdout self ++ [line] |})
  end.

(** [_handle_error] *)
Definition _handle_error (self : t) (answers : list (option string))
           (operation : string) (error : exn) : outcome unit * t :=
  let error_msg := (operation ++ ": " ++ str_exn error)%string in
  print self answers ("⚠️ 缓存错误: " ++ error_msg)%string.

(** [_setup_database] *)
Definition _setup_database (max_size : Z) : M unit :=
  try_except_sqlite
    (with_conn
       (execute_ddl create_if_not_exists ;;
        execute_ddl create_if_not_exists ;;
        execute_ddl create_if_not_exists ;;
        execute_ddl (create_trigger_if_not_exists max_size) ;;
        commit))
    (fun e =>
       raise (RuntimeError ("初始化LRU缓存数据库失败: " ++ str_exn e)%string)).

(** [__init__].  [file] is the database found at [database_path] ([None]
    when there is no file yet: [sqlite3.connect] creates it);
    [base_error] is the failure of the base-class constructor, if any.
    The second component is the file as the call leaves it. *)
Definition __init__ (file : option Database) (base_error : option string)
           (fs : list (option string)) (max_size : Z)
  : outcome t * option Database :=
  match base_error with
  | Some msg => (Raise (OtherError msg), file)
  | None =>
      let m := Z.max max_size 1 in
      let db := match file with Some d => d | None => empty_database end in
      let start := {| conn := {| committed := db; pending := None |};
                      faults := fs |} in
      match engine_call start with                     (* sqlite3.connect *)
      | (Raise e, _) => (Raise e, file)
      | (Return _, s0) =>
          match _setup_database m s0 with
          | (Return _, s) =>
              (Return {| max_size := m; connection := conn s; stdout := [] |},
               Some (committed (conn s)))
          | (Raise e, s) => (Raise e, Some (committed (conn s)))
          end
      end
  end.

(** The statements inside [lookup]'s [try] *)
Definition lookup_body (now : Z) (p l : string) : M (option string) :=
  with_conn
    (result <- execute_query (select_response p l) ;;
     match result with
     | Some r =>
         execute_dml (update_last_accessed now p l) ;;
         commit ;;
         ret (Some r)
     | None => ret None
     end).

(** Runs the body of a method on the connection of [self]; an
    [sqlite3.Error] goes to [_handle_error] and the method returns
    [default] when the handler has returned; any other exception, and
    what the handler raises, leaves the method. *)
Definition guarded {A} (self : t) (fs : list (option string))
           (body : M A) (operation : string) (default : A) : outcome A * t :=
  match body {| conn := connection self; faults := fs |} with
  | (Return a, s) => (Return a, with_connection self (conn s))
  | (Raise e, s) =>
      if is_sqlite_error e
      then
        match _handle_error (with_connection self (conn s)) (faults s)
                            operation e with
        | (Return _, self') => (Return default, self')
        | (Raise e', self') => (Raise e', self')
        end
      else (Raise e, with_connection self (conn s))
  end.

(** [lookup] *)
Definition lookup (self : t) (now : Z) (fs : list (option string))
           (prompt llm_string : string) : outcome (option string) * t :=
  guarded self fs (lookup_body now prompt llm_string) "查找缓存失败" None.

(** The statements inside [update]'s [try] *)
Definition update_body (now : Z) (p l resp : string) : M unit :=
  with_conn (execute_dml (insert_or_replace now p l resp) ;; commit).

(** [update] *)
Definition update (self : t) (now : Z) (fs : list (option string))
           (prompt llm_string return_val : string) : outcome unit * t :=
  guarded self fs (update_body now prompt llm_string return_val)
          "更新缓存失败" tt.

(** The statements inside [clear]'s [try] *)
Definition clear_body : M unit :=
  with_conn (execute_dml delete_all ;; commit).

(** [clear] *)
Definition clear (self : t) (fs : list (option string)) : outcome unit * t :=
  guarded self fs clear_body "清空缓存失败" tt.

(** The dict returned by [get_stats]; [None] is a key that is absent. *)
Record StatsDict : Type := mkStatsDict {
  stats_type : string;
  stats_max_size : Z;
  status : string;
  current_size : option Z;
  oldest_entry : option (option Z);
  newest_entry : option (option Z);
  hit_rate : option Z
}.

(** [_calculate_hit_rate]: the constant [0.0] *)
Definition _calculate_hit_rate : Z := 0.

(** The statements inside [get_stats]'s [try]; the dict is updated only
    after all four values were computed. *)
Definition get_stats_body : M (Z * option Z * option Z * Z) :=
  with_conn
    (n <- execute_query count ;;
     lo <- execute_query (fun db => minimum (map last_accessed (lru_cache db))) ;;
     hi <- execute_query (fun db => maximum (map last_accessed (lru_cache db))) ;;
     ret (n, lo, hi, _calculate_hit_rate)).

(** [get_stats] *)
Definition get_stats (self : t) (fs : list (option string))
  : outcome StatsDict * t :=
  let stats := {| stats_type := "lru_sqlite"; stats_max_size := max_size self;
                  status := "active"; current_size := None;
                  oldest_entry := None; newest_entry := None;
                  hit_rate := None |} in
  match get_stats_body {| conn := connection self; faults := fs |} with
  | (Return (n, lo, hi, hr), s) =>
      (Return {| stats_type := stats_type stats;
                 stats_max_size := stats_max_size stats;
                 status := status stats; current_size := Some n;
                 oldest_entry := Some lo; newest_entry := Some hi;
                 hit_rate := Some hr |},
       with_connection self (conn s))
  | (Raise e, s) =>
      if is_sqlite_error e
      then (Return {| stats_type := stats_type stats;
                      stats_max_size := stats_max_size stats;
                      status := ("error: " ++ str_exn e)%string;
                      current_size := None; oldest_entry := None;
                      newest_entry := None; hit_rate := None |},
            with_connection self (conn s))
      else (Raise e, with_connection self (conn s))
  end.

End LRUSQLiteCache.

(** ** The manager: [cache_manager.py] with [config.py] *)

Module CacheManager.

(** The cache section of class [Config]. *)
Record Config : Type := mkConfig {
  ENABLE_CACHE : bool;
  CACHE_TYPE : string;
  CACHE_PATH : string;
  CACHE_MAX_SIZE : Z;
  CACHE_TTL : option Z
}.

(** What [langchain.llm_cache] holds. *)
Inductive llm_cache_t : Type :=
| NoCache                                   (* [None] *)
| InMemory (c : LRUInMemoryCache.t)
| SQLite (c : LRUSQLiteCache.t).

Inductive level : Type := INFO | WARNING | ERROR.

(** The process-wide state the manager works on: the installed backend,
    the file at [Config.CACHE_PATH] ([None]: no such file) and what went
    to the logger. *)
Record Process : Type := mkProcess {
  llm_cache : llm_cache_t;
  cache_file : option LRUSQLiteCache.Database;
  log : list (level * string)
}.

(** The instance attributes of the singleton. *)
Record t : Type := mkManager {
  _cache_initialized : bool;
  _init_attempts : Z;
  _last_error : option string
}.

(** What the surroundings answer during one call: failures of the file
    system and of the storage engine, and the clock. *)
Record Environment : Type := mkEnvironment {
  mkdir_error : option string;
  unlink_error : option string;
  base_error : option string;
  engine_faults : list (option string);     (* first backend call *)
  engine_faults' : list (option string);    (* second backend call *)
  now_update : Z;
  now_check : Z;
  now_touch : Z
}.

(** Nothing fails and every clock reading is [now]. *)
Definition no_failures (now : Z) : Environment :=
  {| mkdir_error := None; unlink_error := None; base_error := None;
     engine_faults := []; engine_faults' := [];
     now_update := now; now_check := now; now_touch := now |}.

Definition set_llm_cache (p : Process) (c : llm_cache_t) : Process :=
  {| llm_cache := c; cache_file := cache_file p; log := log p |}.

Definition set_cache_file (p : Process) (f : option LRUSQLiteCache.Database)
  : Process :=
  {| llm_cache := llm_cache p; cache_file := f; log := log p |}.

(** [logger.info], [logger.warning], [logger.error] *)
Definition logger (lv : level) (msg : string) (p : Process) : Process :=
  {| llm_cache := llm_cache p; cache_file := cache_file p;
     log := log p ++ [(lv, msg)] |}.

(** [str(x)] of an [Optional[int]] *)
Definition str_optional_int (x : option Z) : string :=
  match x with
  | Some n => str_int n
  | None => "None"
  end.

(** [_setup_sqlite_cache]: [mkdir] of the parent directory, then the
    constructor of the durable backend. *)
Definition _setup_sqlite_cache (cfg : Config) (env : Environment)
           (p : Process) : outcome unit * Process :=
  match mkdir_error env with
  | Some msg => (Raise (OSError msg), p)
  | None =>
      match LRUSQLiteCache.__init__ (cache_file p) (base_error env)
                                    (engine_faults env) (CACHE_MAX_SIZE cfg) with
      | (Return c, file) =>
          (Return tt, set_llm_cache (set_cache_file p file) (SQLite c))
      | (Raise e, file) => (Raise e, set_cache_file p file)
      end
  end.

(** [_setup_memory_cache] *)
Definition _setup_memory_cache (cfg : Config) (p : Process)
  : outcome unit * Process :=
  (Return tt,
   set_llm_cache p
     (InMemory (LRUInMemoryCache.__init__ (CACHE_MAX_SIZE cfg) (CACHE_TTL cfg)))).

(** [_init_cache] *)
Definition _init_cache (cfg : Config) (env : Environment) (self : t)
           (p : Process) : t * Process :=
  if negb (ENABLE_CACHE cfg) then
    (self, logger INFO "缓存功能已禁用" (set_llm_cache p NoCache))
  else
    let attempts := _init_attempts self + 1 in
    match (if String.eqb (CACHE_TYPE cfg) "sqlite"
           then _setup_sqlite_cache cfg env p
           else _setup_memory_cache cfg p) with
    | (Return _, p1) =>
        ({| _cache_initialized := true; _init_attempts := attempts;
            _last_error := _last_error self |},
         logger INFO
           ("成功初始化 " ++ CACHE_TYPE cfg ++ " 缓存，"
            ++ "最大容量: " ++ str_int (CACHE_MAX_SIZE cfg) ++ ", "
            ++ "TTL: " ++ str_optional_int (CACHE_TTL cfg))%string
           p1)
    | (Raise e, p1) =>
        ({| _cache_initialized := false; _init_attempts := attempts;
            _last_error := Some (str_exn e) |},
         set_llm_cache
           (logger ERROR
              ("缓存初始化失败 (尝试次数: " ++ str_int attempts ++ "): "
               ++ str_exn e)%string
              p1)
           NoCache)
    end.

(** [_initialize], run once by [__new__] *)
Definition _initialize (cfg : Config) (env : Environment) (p : Process)
  : t * Process :=
  _init_cache cfg env
    {| _cache_initialized := false; _init_attempts := 0; _last_error := None |}
    p.

(** The dict returned by [clear_cache]. *)
Record ClearResult : Type := mkClearResult {
  success : bool;
  message : string;
  cache_type : string
}.

(** The statements inside [clear_cache]'s [try]; the dict and the
    process state are returned as they are when an exception leaves. *)
Definition clear_cache_body (cfg : Config) (env : Environment)
           (result : ClearResult) (p : Process)
  : outcome unit * ClearResult * Process :=
  if String.eqb (CACHE_TYPE cfg) "sqlite" then
    match cache_file p with
    | Some _ =>                                   (* cache_path.exists() *)
        match unlink_error env with
        | Some msg => (Raise (OSError msg), result, p)
        | None =>
            let r := {| success := true; message := "SQLite缓存已清空";
                        cache_type := cache_type result |} in
            (Return tt, r, logger INFO (message r) (set_cache_file p None))
        end
    | None =>
        let r := {| success := success result;
                    message := "SQLite缓存文件不存在";
                    cache_type := cache_type result |} in
        (Return tt, r, logger WARNING (message r) p)
    end
  else
    let cleared := {| success := true; message := "内存缓存已清空";
                      cache_type := cache_type result |} in
    match llm_cache p with                  (* hasattr(llm_cache, 'clear') *)
    | InMemory c =>
        (Return tt, cleared,
         logger INFO (message cleared)
                (set_llm_cache p (InMemory (LRUInMemoryCache.clear c))))
    | SQLite c =>
        match LRUSQLiteCache.clear c (engine_faults env) with
        | (Return _, c') =>
            (Return tt, cleared,
             logger INFO (message cleared) (set_llm_cache p (SQLite c')))
        | (Raise e, c') => (Raise e, result, set_llm_cache p (SQLite c'))
        end
    | NoCache =>
        let r := {| success := success result;
                    message := "未知缓存类型或缓存未初始化";
                    cache_type := cache_type result |} in
        (Return tt, r, logger ERROR (message r) p)
    end.

(** [clear_cache] *)
Definition clear_cache (cfg : Config) (env : Environment) (p : Process)
  : outcome ClearResult * Process :=
  let result := {| success := false; message := "";
                   cache_type := CACHE_TYPE cfg |} in
  match clear_cache_body cfg env result p with
  | (Return _, r, p1) => (Return r, p1)
  | (Raise e, r, p1) =>                           (* except Exception *)
      let r' := {| success := success r;
                   message := ("清空缓存失败: " ++ str_exn e)%string;
                   cache_type := cache_type r |} in
      (Return r', logger ERROR (message r') p1)
  end.

(** The dict returned by [health_check]. *)
Record Health : Type := mkHealth {
  healthy : bool;
  health_message : string;
  health_cache_type : string
}.

Definition test_key : string * string := ("health_check", "test").

Definition value_of_generation (r : option Generation) : value :=
  match r with Some g => VGeneration g | None => VNone end.

Definition value_of_string (r : option string) : value :=
  match r with Some s => VStr s | None => VNone end.

(** The probe of the [elif hasattr(langchain.llm_cache, 'lookup')] branch
    on whichever backend is installed:
    [llm_cache.update( *test_key, "test_value")] and then
    [llm_cache.lookup( *test_key) == "test_value"]. *)
Definition probe (env : Environment) (c : llm_cache_t)
  : outcome bool * llm_cache_t :=
  match c with
  | NoCache => (Raise (AttributeError "'NoneType' object has no attribute 'update'"), c)
  | InMemory m =>
      match LRUInMemoryCache.update m (now_update env)
              (fst test_key) (snd test_key) (VStr "test_value") with
      | (Raise e, m1) => (Raise e, InMemory m1)
      | (Return _, m1) =>
          let '(r, m2) := LRUInMemoryCache.lookup m1 (now_check env)
                            (now_touch env) (fst test_key) (snd test_key) in
          (Return (Py.eqb (value_of_generation r) (VStr "test_value")),
           InMemory m2)
      end
  | SQLite s =>
      match LRUSQLiteCache.update s (now_update env) (engine_faults env)
              (fst test_key) (snd test_key) "test_value" with
      | (Raise e, s1) => (Raise e, SQLite s1)
      | (Return _, s1) =>
          match LRUSQLiteCache.lookup s1 (now_touch env) (engine_faults' env)
                  (fst test_key) (snd test_key) with
          | (Raise e, s2) => (Raise e, SQLite s2)
          | (Return r, s2) =>
              (Return (Py.eqb (value_of_string r) (VStr "test_value")),
               SQLite s2)
          end
      end
  end.

(** The statements inside [health_check]'s [try] *)
Definition health_check_body (cfg : Config) (env : Environment)
           (health : Health) (p : Process) : outcome unit * Health * Process :=
  if String.eqb (CACHE_TYPE cfg) "sqlite" then
    (* with sqlite3.connect(Config.CACHE_PATH) as conn: conn.execute("SELECT 1") *)
    let db := match cache_file p with
              | Some d => d
              | None => LRUSQLiteCache.empty_database
              end in
    match LRUSQLiteCache.engine_call                    (* sqlite3.connect *)
            {| LRUSQLiteCache.conn :=
                 {| LRUSQLiteCache.committed := db;
                    LRUSQLiteCache.pending := None |};
               LRUSQLiteCache.faults := engine_faults env |} with
    | (Raise e, _) => (Raise e, health, p)
    | (Return _, s0) =>
        (* [connect] has created the file when there was none *)
        let p1 := set_cache_file p (Some db) in
        match LRUSQLiteCache.with_conn
                (LRUSQLiteCache.execute_query (fun _ => 1)) s0 with
        | (Raise e, _) => (Raise e, health, p1)
        | (Return _, _) =>
            (Return tt,
             {| healthy := true; health_message := "SQLite缓存连接正常";
                health_cache_type := health_cache_type health |},
             p1)
        end
    end
  else
    match llm_cache p with                 (* hasattr(llm_cache, 'lookup') *)
    | NoCache =>
        (Return tt,
         {| healthy := healthy health; health_message := "未知缓存类型";
            health_cache_type := health_cache_type health |},
         p)
    | c =>
        match probe env c with
        | (Raise e, c') => (Raise e, health, set_llm_cache p c')
        | (Return true, c') =>
            (Return tt,
             {| healthy := true; health_message := "内存缓存功能正常";
                health_cache_type := health_cache_type health |},
             set_llm_cache p c')
        | (Return false, c') =>
            (Return tt,
             {| healthy := healthy health;
                health_message := "内存缓存功能异常";
                health_cache_type := health_cache_type health |},
             set_llm_cache p c')
        end
    end.

(** [health_check] *)
Definition health_check (cfg : Config) (env : Environment) (p : Process)
  : outcome Health * Process :=
  let health := {| healthy := false; health_message := "";
                   health_cache_type := CACHE_TYPE cfg |} in
  if negb (ENABLE_CACHE cfg) then
    (Return {| healthy := true; health_message := "缓存功能已禁用";
               health_cache_type := health_cache_type health |},
     p)
  else
    match health_check_body cfg env health p with
    | (Return _, h, p1) => (Return h, p1)
    | (Raise e, h, p1) =>                         (* except Exception *)
        (Return {| healthy := healthy h;
                   health_message := ("健康检查失败: " ++ str_exn e)%string;
                   health_cache_type := health_cache_type h |},
         p1)
    end.

(** What [llm_cache.get_stats()] returned. *)
Inductive BackendStats : Type :=
| MemoryStats (d : LRUInMemoryCache.StatsDict)
| SQLiteStats (d : LRUSQLiteCache.StatsDict).

(** [cache_stats.get('hit_rate', 'N/A')] *)
Inductive HitRateField : Type :=
| NotAvailable                              (* the string ['N/A'] *)
| MemoryRate (r : LRUInMemoryCache.HitRate)
| SQLiteRate (r : Z).

(** The dict returned by [get_cache_stats]; [None] is a key that was
    not set. *)
Record ManagerStats : Type := mkManagerStats {
  ms_status : string;
  ms_type : string;
  ms_initialized : bool;
  ms_last_error : option string;
  ms_init_attempts : Z;
  ms_size : option string;
  ms_hit_rate : option HitRateField;
  ms_details : option BackendStats
}.

Definition with_status (st : ManagerStats) (s : string) : ManagerStats :=
  {| ms_status := s; ms_type := ms_type st;
     ms_initialized := ms_initialized st; ms_last_error := ms_last_error st;
     ms_init_attempts := ms_init_attempts st; ms_size := ms_size st;
     ms_hit_rate := ms_hit_rate st; ms_details := ms_details st |}.

(** [base_stats.update({'size': ..., 'hit_rate': ..., 'details': ...})];
    [current] is [cache_stats.get('current_size', '?')] as a string. *)
Definition with_backend (cfg : Config) (st : ManagerStats) (current : string)
           (rate : HitRateField) (details : BackendStats) : ManagerStats :=
  {| ms_status := ms_status st; ms_type := ms_type st;
     ms_initialized := ms_initialized st; ms_last_error := ms_last_error st;
     ms_init_attempts := ms_init_attempts st;
     ms_size := Some (current ++ "/" ++ str_int (CACHE_MAX_SIZE cfg))%string;
     ms_hit_rate := Some rate;
     ms_details := Some details |}.

(** [get_cache_stats] *)
Definition get_cache_stats (cfg : Config) (env : Environment) (self : t)
           (p : Process) : outcome ManagerStats * Process :=
  let base_stats :=
    {| ms_status := if _cache_initialized self then "active" else "inactive";
       ms_type := CACHE_TYPE cfg;
       ms_initialized := _cache_initialized self;
       ms_last_error := _last_error self;
       ms_init_attempts := _init_attempts self;
       ms_size := None; ms_hit_rate := None; ms_details := None |} in
  match llm_cache p with              (* hasattr(llm_cache, 'get_stats') *)
  | NoCache => (Return (with_status base_stats "not_available"), p)
  | InMemory c =>
      let d := LRUInMemoryCache.get_stats c in
      (Return (with_backend cfg base_stats
                 (str_int (LRUInMemoryCache.stat_current_size d))
                 (MemoryRate (LRUInMemoryCache.stat_hit_rate d))
                 (MemoryStats d)),
       p)
  | SQLite c =>
      match LRUSQLiteCache.get_stats c (engine_faults env) with
      | (Return d, c') =>
          (Return (with_backend cfg base_stats
                     match LRUSQLiteCache.current_size d with
                     | Some n => str_int n
                     | None => "?"
                     end
                     match LRUSQLiteCache.hit_rate d with
                     | Some r => SQLiteRate r
                     | None => NotAvailable
                     end
                     (SQLiteStats d)),
           set_llm_cache p (SQLite c'))
      | (Raise e, c') =>                          (* except Exception *)
          (Return (with_status base_stats ("error: " ++ str_exn e)%string),
           logger ERROR ("获取缓存统计失败: " ++ str_exn e)%string
                  (set_llm_cache p (SQLite c')))
      end
  end.


End CacheManager.

(** ** Sequences of calls and the vocabulary of the LRU policy

    The definitions below are not in the sources: they name what the
    properties talk about (a history of [update] calls, the evictions
    one call performs, and which entry is the least recently touched). *)

Module History.

Import LRUInMemoryCache.

(** One [update(prompt, llm_string, return_val)] call with the clock it
    read; [return_val] is a [Generation], as the signature says. *)
Record Call : Type := mkCall {
  at_time : Z;
  call_prompt : string;
  call_llm_string : string;
  call_value : Generation
}.

Definition call_key (u : Call) : Key :=
  _generate_key (call_prompt u) (call_llm_string u).

Definition apply (c : t) (u : Call) : outcome unit * t :=
  update c (at_time u) (call_prompt u) (call_llm_string u)
         (VGeneration (call_value u)).

Definition run (c : t) (calls : list Call) : t :=
  fold_left (fun c u => snd (apply c u)) calls c.

(** The dict [update] hands to its eviction loop: the cache without the
    old entry of the key. *)
Definition loop_entry (c : t) (k : Key) : OrderedDict :=
  if contains k (_cache c) then delitem k (_cache c) else _cache c.

(** The [popitem(last=False)] calls of the loop
    [while full(len(d)): d.popitem(last=False)]: each popped entry with
    the dict it was popped from. *)
Fixpoint evictions_of (full : Z -> bool) (d : OrderedDict)
  : list ((Key * Entry) * OrderedDict) :=
  if full (len d) then
    match d with
    | [] => []
    | p :: rest => (p, d) :: evictions_of full rest
    end
  else [].

Definition evictions_of_update (c : t) (u : Call)
  : list ((Key * Entry) * OrderedDict) :=
  evictions_of (fun n => n >=? max_size c) (loop_entry c (call_key u)).

(** Position in the history of the last call that touched [k]. *)
Fixpoint last_touch_from (i : nat) (k : Key) (calls : list Call)
  : option nat :=
  match calls with
  | [] => None
  | u :: rest =>
      match last_touch_from (S i) k rest with
      | Some j => Some j
      | None => if key_eqb k (call_key u) then Some i else None
      end
  end.

Definition last_touch (k : Key) (calls : list Call) : option nat :=
  last_touch_from 0 k calls.

(** [k] was touched, and strictly before [k'] was touched last. *)
Definition touched_before (calls : list Call) (k k' : Key) : Prop :=
  exists i j, last_touch k calls = Some i /\ last_touch k' calls = Some j
              /\ (i < j)%nat.

(** By timestamp: the entry with the smallest [last_accessed]; among
    equal timestamps the one that comes first in the dict's order. *)
Fixpoint oldest_entry (d : OrderedDict) : option (Key * Entry) :=
  match d with
  | [] => None
  | p :: rest =>
      match oldest_entry rest with
      | None => Some p
      | Some q =>
          if last_accessed (snd p) <=? last_accessed (snd q)
          then Some p else Some q
      end
  end.

(** The clock never runs backwards over the calls. *)
Fixpoint clock_monotone_from (t0 : Z) (calls : list Call) : Prop :=
  match calls with
  | [] => True
  | u :: rest => t0 <= at_time u /\ clock_monotone_from (at_time u) rest
  end.

Definition clock_monotone (calls : list Call) : Prop :=
  match calls with
  | [] => True
  | u :: rest => clock_monotone_from (at_time u) rest
  end.

(** What holds of the cache after a history of [update] calls on a fresh
    cache: the dict has one entry per key, capacity is respected, and the
    dict's order is the order of last touch. *)
Definition touched (calls : list Call) (p : Key * Entry) : Prop :=
  exists i, last_touch (fst p) calls = Some i.

Definition older (calls : list Call) (p q : Key * Entry) : Prop :=
  touched_before calls (fst p) (fst q).

Record invariant (calls : list Call) (c : t) : Prop := mkInvariant {
  inv_nodup : NoDup (keys (_cache c));
  inv_min : 1 <= max_size c;
  inv_bound : len (_cache c) <= max_size c;
  inv_touched : Forall (touched calls) (_cache c);
  inv_order : StronglySorted (older calls) (_cache c)
}.

(** With a clock that never runs backwards the timestamps follow the
    dict's order as well. *)
Definition not_newer (p q : Key * Entry) : Prop :=
  last_accessed (snd p) <= last_accessed (snd q).

Definition stamped (calls : list Call) (p : Key * Entry) : Prop :=
  exists u, In u calls /\ last_accessed (snd p) = at_time u.

Record time_invariant (calls : list Call) (c : t) : Prop := mkTimeInvariant {
  tinv_stamped : Forall (stamped calls) (_cache c);
  tinv_order : StronglySorted not_newer (_cache c)
}.

End History.

(** ** Sessions: any mix of calls on the in-memory backend *)

Module Session.

Import LRUInMemoryCache.

Inductive Op : Type :=
| OpUpdate (now : Z) (prompt llm_string : string) (return_val : Generation)
| OpLookup (now_check now_touch : Z) (prompt llm_string : string)
| OpResize (new_size : Z)
| OpClear.

Definition step (c : t) (o : Op) : outcome unit * t :=
  match o with
  | OpUpdate now p l g => update c now p l (VGeneration g)
  | OpLookup now_check now_touch p l =>
      (Return tt, snd (lookup c now_check now_touch p l))
  | OpResize n => resize c n
  | OpClear => (Return tt, clear c)
  end.

(** The calls in order; the first exception ends the session. *)
Fixpoint run (c : t) (ops : list Op) : outcome unit * t :=
  match ops with
  | [] => (Return tt, c)
  | o :: rest =>
      match step c o with
      | (Return _, c') => run c' rest
      | (Raise e, c') => (Raise e, c')
      end
  end.

(** Lookups made since the last [clear], starting from [n]. *)
Definition tally (n : Z) (o : Op) : Z :=
  match o with
  | OpLookup _ _ _ _ => n + 1
  | OpClear => 0
  | _ => n
  end.

Definition lookups_since_clear (ops : list Op) : Z := fold_left tally ops 0.

(** What every session keeps. *)
Record well_formed (c : t) : Prop := mkWellFormed {
  wf_keys : NoDup (keys (_cache c));
  wf_min : 1 <= max_size c;
  wf_bound : len (_cache c) <= max_size c;
  wf_hits : 0 <= hits (_stats c);
  wf_evictions : 0 <= evictions (_stats c);
  wf_expired : 0 <= expired (_stats c) <= misses (_stats c)
}.

End Session.


(** ** Sequences of calls on the durable backend *)

Module DurableHistory.

Import LRUSQLiteCache.

Record Call : Type := mkCall {
  at_time : Z;                        (* [CURRENT_TIMESTAMP] *)
  call_faults : list (option string);
  call_prompt : string;
  call_llm_string : string;
  call_value : string
}.

Definition apply (c : t) (u : Call) : outcome unit * t :=
  update c (at_time u) (call_faults u) (call_prompt u) (call_llm_string u)
         (call_value u).

Definition run (c : t) (calls : list Call) : t :=
  fold_left (fun c u => snd (apply c u)) calls c.

(** What holds of a store between calls when its trigger was created by
    the cache object that uses it. *)
Record store_invariant (self : t) : Prop := mkStoreInvariant {
  sinv_quiescent : pending (connection self) = None;
  sinv_trigger :
    trigger_lru_eviction (committed (connection self)) = Some (max_size self);
  sinv_min : 1 <= max_size self;
  sinv_bound : count (committed (connection self)) <= max_size self;
  sinv_ids : NoDup (map id (lru_cache (committed (connection self))))
}.

(** [ORDER BY last_accessed ASC] as a relation. *)
Definition row_le (a b : Row) : Prop := row_leb a b = true.

(** The [n] rows at the recent end of [ORDER BY last_accessed ASC]. *)
Definition most_recent (n : Z) (rows : list Row) : list Row :=
  skipn (Z.to_nat (Z.of_nat (List.length rows) - n))
        (order_by_last_accessed rows).

(** The rows the trigger's [DELETE] picks. *)
Definition least_recent (n : Z) (rows : list Row) : list Row :=
  firstn (Z.to_nat (Z.of_nat (List.length rows) - n))
         (order_by_last_accessed rows).

(** The table right after the [INSERT OR REPLACE], before the trigger. *)
Definition inserted (now : Z) (p l resp : string) (db : Database)
  : list Row :=
  filter (fun r => negb (same_key p l r)) (lru_cache db)
  ++ [{| id := next_id (lru_cache db); prompt := p; llm_string := l;
         response := resp; created_at := now; last_accessed := now |}].


End DurableHistory.

(** ** Sessions: any mix of calls on the durable backend *)

Module DurableSession.

Import LRUSQLiteCache.

(** Every call comes with the clock it reads and with what the storage
    engine answers while it runs. *)
Inductive Op : Type :=
| OpUpdate (now : Z) (fs : list (option string))
           (prompt llm_string return_val : string)
| OpLookup (now : Z) (fs : list (option string)) (prompt llm_string : string)
| OpClear (fs : list (option string))
| OpGetStats (fs : list (option string)).

Definition discard {A} (r : outcome A * t) : outcome unit * t :=
  match r with
  | (Return _, c) => (Return tt, c)
  | (Raise e, c) => (Raise e, c)
  end.

Definition step (c : t) (o : Op) : outcome unit * t :=
  match o with
  | OpUpdate now fs p l v => update c now fs p l v
  | OpLookup now fs p l => discard (lookup c now fs p l)
  | OpClear fs => clear c fs
  | OpGetStats fs => discard (get_stats c fs)
  end.

(** The calls in order; the first exception ends the session. *)
Fixpoint run (c : t) (ops : list Op) : outcome unit * t :=
  match ops with
  | [] => (Return tt, c)
  | o :: rest =>
      match step c o with
      | (Return _, c') => run c' rest
      | (Raise e, c') => (Raise e, c')
      end
  end.

(** What the surroundings answer during the call. *)
Definition answers (o : Op) : list (option string) :=
  match o with
  | OpUpdate _ fs _ _ _ | OpLookup _ fs _ _ | OpClear fs | OpGetStats fs => fs
  end.

Definition row_key (r : Row) : string * string := (prompt r, llm_string r).

(** What every session keeps of a store set up by its own cache object. *)
Record well_formed (self : t) : Prop := mkWellFormed {
  wf_quiescent : pending (connection self) = None;
  wf_trigger :
    trigger_lru_eviction (committed (connection self)) = Some (max_size self);
  wf_min : 1 <= max_size self;
  wf_bound : count (committed (connection self)) <= max_size self;
  wf_ids : NoDup (map id (lru_cache (committed (connection self))));
  wf_keys : NoDup (map row_key (lru_cache (committed (connection self))))
}.

(** The row as [lookup]'s [UPDATE] leaves it. *)
Definition touch (now : Z) (r : Row) : Row :=
  {| id := id r; prompt := prompt r; llm_string := llm_string r;
     response := response r; created_at := created_at r;
     last_accessed := now |}.

End DurableSession.


(** ** Vocabulary for storage-engine failures *)

Module Failure.

Definition is_fault (f : option string) : bool :=
  match f with Some _ => true | None => false end.

(** One of the first [n] engine calls fails. *)
Definition fails_within (n : nat) (fs : list (option string)) : bool :=
  existsb is_fault (firstn n fs).

(** No engine call fails. *)
Definition quiet (fs : list (option string)) : Prop :=
  Forall (fun f => f = None) fs.

(** A method body can raise nothing but [sqlite3.Error]. *)
Definition sqlite_only {A} (body : LRUSQLiteCache.M A) : Prop :=
  forall s e s', body s = (Raise e, s') -> is_sqlite_error e = true.

(** The message of the first failure among the first [n] answers. *)
Fixpoint first_failure (n : nat) (fs : list (option string)) : option string :=
  match n, fs with
  | S n', Some msg :: _ => Some msg
  | S n', None :: rest => first_failure n' rest
  | _, _ => None
  end.

(** The answers that are left once the first failure has been read:
    what the [print] of the handler finds. *)
Fixpoint after_failure (fs : list (option string)) : list (option string) :=
  match fs with
  | [] => []
  | Some _ :: rest => rest
  | None :: rest => after_failure rest
  end.

(** Standard output takes the line of the handler. *)
Definition print_succeeds (fs : list (option string)) : Prop :=
  hd None (after_failure fs) = None.

(** A method body reads the answers in order and stops at the first
    failure. *)
Definition stops_at_failure {A} (body : LRUSQLiteCache.M A) : Prop :=
  forall s o s',
    body s = (o, s') ->
    match o with
    | Return _ =>
        after_failure (LRUSQLiteCache.faults s')
        = after_failure (LRUSQLiteCache.faults s)
    | Raise _ =>
        LRUSQLiteCache.faults s' = after_failure (LRUSQLiteCache.faults s)
    end.

End Failure.


(** ** Concrete scenarios *)

Module Scenario.

Import LRUInMemoryCache.

Definition gen (s : string) : Generation :=
  {| text := s; generation_info := None |}.

(** Scenario A of the specification: capacity 2 and three inserts, one
    second apart. *)
Definition calls_A : list History.Call :=
  [ History.mkCall 1000000 "k1" "llm" (gen "a");
    History.mkCall 2000000 "k2" "llm" (gen "b") ].

Definition call_A3 : History.Call :=
  History.mkCall 3000000 "k3" "llm" (gen "c").

(** Scenario B: capacity 3, a lifetime of one second, one entry. *)
Definition cache_B : t :=
  snd (update (__init__ 3 (Some 1)) 0 "k1" "llm" (VGeneration (gen "a"))).

(** A full cache of capacity 2 holding two entries. *)
Definition cache_full : t :=
  History.run (__init__ 2 None) calls_A.

(** Durable scenarios.  [fresh_store m] is the cache object the
    constructor builds on a path with no file. *)
Definition fresh_store (m : Z) : LRUSQLiteCache.t :=
  {| LRUSQLiteCache.max_size := Z.max m 1;
     LRUSQLiteCache.connection :=
       {| LRUSQLiteCache.committed :=
            {| LRUSQLiteCache.lru_cache := [];
               LRUSQLiteCache.trigger_lru_eviction := Some (Z.max m 1) |};
          LRUSQLiteCache.pending := None |};
     LRUSQLiteCache.stdout := [] |}.

(** The file an earlier process left behind after running with
    [max_size = 3], and the cache object a later process gets when it
    opens that file with [max_size = 1]. *)
Definition file_of_earlier_run : LRUSQLiteCache.Database :=
  LRUSQLiteCache.committed (LRUSQLiteCache.connection (fresh_store 3)).

Definition reopened_store : LRUSQLiteCache.t :=
  {| LRUSQLiteCache.max_size := 1;
     LRUSQLiteCache.connection :=
       {| LRUSQLiteCache.committed := file_of_earlier_run;
          LRUSQLiteCache.pending := None |};
     LRUSQLiteCache.stdout := [] |}.

(** Scenario C of the specification: two inserts, one second apart. *)
Definition calls_C : list DurableHistory.Call :=
  [ DurableHistory.mkCall 1 [] "k1" "llm" "a";
    DurableHistory.mkCall 2 [] "k2" "llm" "b" ].

Definition disk_error : list (option string) := [Some "disk I/O error"].



(** Manager scenarios: [config.py] as shipped, the same with the
    in-memory backend selected, and with a backend type nobody knows. *)
Definition config_shipped : CacheManager.Config :=
  {| CacheManager.ENABLE_CACHE := true;
     CacheManager.CACHE_TYPE := "sqlite";
     CacheManager.CACHE_PATH := ".rag_cache.db";
     CacheManager.CACHE_MAX_SIZE := 1000;
     CacheManager.CACHE_TTL := Some 3600 |}.

Definition config_with_type (type : string) (size : Z) : CacheManager.Config :=
  {| CacheManager.ENABLE_CACHE := true;
     CacheManager.CACHE_TYPE := type;
     CacheManager.CACHE_PATH := ".rag_cache.db";
     CacheManager.CACHE_MAX_SIZE := size;
     CacheManager.CACHE_TTL := Some 3600 |}.

Definition process_start : CacheManager.Process :=
  {| CacheManager.llm_cache := CacheManager.NoCache;
     CacheManager.cache_file := None;
     CacheManager.log := [] |}.

(** A process whose in-memory backend is full ([cache_full]). *)
Definition process_full : CacheManager.Process :=
  {| CacheManager.llm_cache := CacheManager.InMemory cache_full;
     CacheManager.cache_file := None;
     CacheManager.log := [] |}.


End Scenario.


(** * Properties *)

(** ** The in-memory backend *)

Module MemoryFacts.

Import LRUInMemoryCache History.

Lemma key_eqb_eq (a b : Key) : key_eqb a b = true <-> a = b.
Proof.
  destruct a as [a1 a2], b as [b1 b2]; unfold key_eqb; simpl.
  rewrite andb_true_iff, !String.eqb_eq.
  split; [intros [-> ->]; reflexivity | intros H; inversion H; auto].
Qed.

Lemma key_eqb_refl (a : Key) : key_eqb a a = true.
Proof. apply key_eqb_eq; reflexivity. Qed.

Lemma key_eqb_neq (a b : Key) : key_eqb a b = false <-> a <> b.
Proof.
  rewrite <- key_eqb_eq. destruct (key_eqb a b); split; congruence.
Qed.

Lemma key_eqb_sym (a b : Key) : key_eqb a b = key_eqb b a.
Proof.
  destruct (key_eqb b a) eqn:E.
  - apply key_eqb_eq in E; subst; apply key_eqb_refl.
  - apply key_eqb_neq in E; apply key_eqb_neq; congruence.
Qed.

(** *** The dict primitives *)

Lemma contains_In (k : Key) (d : OrderedDict) :
  contains k d = true <-> In k (keys d).
Proof.
  unfold contains, keys. rewrite existsb_exists, in_map_iff.
  split.
  - intros [p [Hp E]]. apply key_eqb_eq in E. exists p; auto.
  - intros [p [E Hp]]. exists p; split; auto. apply key_eqb_eq; auto.
Qed.

Lemma contains_false_In (k : Key) (d : OrderedDict) :
  contains k d = false <-> ~ In k (keys d).
Proof.
  rewrite <- contains_In. destruct (contains k d); split; congruence.
Qed.

Lemma contains_getitem (k : Key) (d : OrderedDict) :
  contains k d = true <-> exists e, getitem k d = Some e.
Proof.
  induction d as [|[k' e'] d IH]; simpl.
  - split; [discriminate | intros [e H]; discriminate].
  - destruct (key_eqb k k'); simpl; auto.
    split; auto. intros _; eauto.
Qed.

Lemma getitem_None (k : Key) (d : OrderedDict) :
  getitem k d = None <-> contains k d = false.
Proof.
  induction d as [|[k' e'] d IH]; simpl.
  - split; reflexivity.
  - destruct (key_eqb k k'); simpl; auto.
    split; discriminate.
Qed.

Lemma length_delitem (k : Key) (d : OrderedDict) :
  contains k d = true -> List.length d = S (List.length (delitem k d)).
Proof.
  induction d as [|[k' e'] d IH]; simpl; [discriminate|].
  destruct (key_eqb k k'); simpl; auto.
Qed.

Lemma delitem_absent (k : Key) (d : OrderedDict) :
  contains k d = false -> delitem k d = d.
Proof.
  induction d as [|[k' e'] d IH]; simpl; auto.
  destruct (key_eqb k k'); simpl; [discriminate|].
  intros H; rewrite IH; auto.
Qed.

Lemma getitem_setitem_same (k : Key) (e : Entry) (d : OrderedDict) :
  getitem k (setitem k e d) = Some e.
Proof.
  induction d as [|[k' e'] d IH]; simpl.
  - rewrite key_eqb_refl; reflexivity.
  - destruct (key_eqb k k') eqn:E; simpl; rewrite E; auto.
Qed.

Lemma getitem_setitem_other (k k' : Key) (e : Entry) (d : OrderedDict) :
  k' <> k -> getitem k' (setitem k e d) = getitem k' d.
Proof.
  intros N. induction d as [|[k0 e0] d IH]; simpl.
  - apply key_eqb_neq in N; rewrite N; reflexivity.
  - destruct (key_eqb k k0) eqn:E; simpl.
    + apply key_eqb_eq in E; subst k0.
      apply key_eqb_neq in N; rewrite N; reflexivity.
    + rewrite IH; reflexivity.
Qed.

Lemma setitem_fresh (k : Key) (e : Entry) (d : OrderedDict) :
  contains k d = false -> setitem k e d = d ++ [(k, e)].
Proof.
  induction d as [|[k' e'] d IH]; simpl; auto.
  destruct (key_eqb k k'); simpl; [discriminate|].
  intros H; rewrite IH; auto.
Qed.

Lemma delitem_incl (k : Key) (d : OrderedDict) (p : Key * Entry) :
  In p (delitem k d) -> In p d.
Proof.
  induction d as [|[k' e'] d IH]; simpl; auto.
  destruct (key_eqb k k'); simpl; intuition.
Qed.

Lemma delitem_NoDup (k : Key) (d : OrderedDict) :
  NoDup (keys d) -> NoDup (keys (delitem k d)).
Proof.
  induction d as [|[k' e'] d IH]; simpl; auto.
  intros H; inversion H as [|? ? Hn Hd]; subst.
  destruct (key_eqb k k'); simpl; auto.
  constructor; auto.
  intros Hin. apply Hn. unfold keys in *.
  apply in_map_iff in Hin. destruct Hin as [p [E Hp]].
  apply in_map_iff. exists p; split; auto. eapply delitem_incl; eauto.
Qed.

Lemma contains_delitem (k : Key) (d : OrderedDict) :
  NoDup (keys d) -> contains k (delitem k d) = false.
Proof.
  induction d as [|[k' e'] d IH]; simpl; auto.
  intros H; inversion H as [|? ? Hn Hd]; subst.
  destruct (key_eqb k k') eqn:E; simpl.
  - apply key_eqb_eq in E; subst. apply contains_false_In; auto.
  - rewrite E; simpl; auto.
Qed.

Lemma filter_delitem (k : Key) (d : OrderedDict) :
  filter (fun p => negb (key_eqb k (fst p))) (delitem k d)
  = filter (fun p => negb (key_eqb k (fst p))) d.
Proof.
  induction d as [|[k' e'] d IH]; simpl; auto.
  destruct (key_eqb k k') eqn:E; simpl; auto.
  rewrite E; simpl. rewrite IH; reflexivity.
Qed.

Lemma filter_setitem (k : Key) (e : Entry) (d : OrderedDict) :
  filter (fun p => negb (key_eqb k (fst p))) (setitem k e d)
  = filter (fun p => negb (key_eqb k (fst p))) d.
Proof.
  induction d as [|[k' e'] d IH]; simpl.
  - rewrite key_eqb_refl; reflexivity.
  - destruct (key_eqb k k') eqn:E; simpl; rewrite E; simpl; auto.
    rewrite IH; reflexivity.
Qed.

(** *** Lists: suffixes and sortedness *)

Lemma in_skipn_in {A} (n : nat) (l : list A) (x : A) :
  In x (skipn n l) -> In x l.
Proof.
  intros H. rewrite <- (firstn_skipn n l). apply in_or_app; auto.
Qed.

Lemma Forall_skipn {A} (P : A -> Prop) (n : nat) (l : list A) :
  Forall P l -> Forall P (skipn n l).
Proof.
  rewrite !Forall_forall. intros H x Hx. eauto using in_skipn_in.
Qed.

Lemma NoDup_snoc {A} (l : list A) (x : A) :
  NoDup l -> ~ In x l -> NoDup (l ++ [x]).
Proof.
  induction l as [|a l IH]; simpl; intros Hd Hn.
  - constructor; auto.
  - inversion Hd; subst. constructor.
    + rewrite in_app_iff. simpl. intuition.
    + apply IH; auto.
Qed.

Lemma sorted_suffix {A} (R : A -> A -> Prop) (pre cur : list A) :
  StronglySorted R (pre ++ cur) -> StronglySorted R cur.
Proof.
  induction pre as [|a pre IH]; simpl; auto.
  intros H; inversion H; auto.
Qed.

Lemma sorted_skipn {A} (R : A -> A -> Prop) (n : nat) (l : list A) :
  StronglySorted R l -> StronglySorted R (skipn n l).
Proof.
  intros H. rewrite <- (firstn_skipn n l) in H. eauto using sorted_suffix.
Qed.

Lemma sorted_snoc {A} (R : A -> A -> Prop) (l : list A) (x : A) :
  StronglySorted R l -> Forall (fun p => R p x) l ->
  StronglySorted R (l ++ [x]).
Proof.
  induction 1 as [|a l Hs IH Ha]; simpl; intros Hx.
  - constructor; constructor.
  - inversion Hx; subst. constructor; auto.
    apply Forall_app; split; auto.
Qed.

Lemma sorted_weaken {A} (R R' : A -> A -> Prop) (l : list A) :
  (forall p q, In p l -> In q l -> R p q -> R' p q) ->
  StronglySorted R l -> StronglySorted R' l.
Proof.
  intros HR H. induction H as [|a l Hs IH Ha]; constructor.
  - apply IH. intros p q Hp Hq. apply HR; simpl; auto.
  - rewrite Forall_forall in *. intros q Hq.
    apply HR; simpl; auto.
Qed.

Lemma delitem_sorted (R : Key * Entry -> Key * Entry -> Prop)
      (k : Key) (d : OrderedDict) :
  StronglySorted R d -> StronglySorted R (delitem k d).
Proof.
  induction 1 as [|[k' e'] d Hs IH Ha]; simpl; [constructor|].
  destruct (key_eqb k k'); auto.
  constructor; auto.
  rewrite Forall_forall in *. eauto using delitem_incl.
Qed.

Lemma delitem_Forall (P : Key * Entry -> Prop) (k : Key) (d : OrderedDict) :
  Forall P d -> Forall P (delitem k d).
Proof.
  rewrite !Forall_forall. eauto using delitem_incl.
Qed.

(** *** The eviction loop *)

Lemma evict_while_idle (full : Z -> bool) (d : OrderedDict) (ev : Z) :
  full (len d) = false ->
  evict_while full d ev = (Return tt, (d, ev)) /\ evictions_of full d = [].
Proof.
  destruct d; cbn [evict_while evictions_of]; intros ->; auto.
Qed.

Lemma evict_while_spec (full : Z -> bool) (d : OrderedDict) (ev : Z) :
  full 0 = false ->
  evict_while full d ev
  = (Return tt, (skipn (List.length (evictions_of full d)) d,
                 ev + Z.of_nat (List.length (evictions_of full d))))
  /\ full (len (skipn (List.length (evictions_of full d)) d)) = false.
Proof.
  intros H0. revert ev.
  induction d as [|p rest IH]; intros ev; cbn [evict_while evictions_of].
  - change (len []) with 0. rewrite H0. simpl. rewrite Z.add_0_r. auto.
  - destruct (full (len (p :: rest))) eqn:E.
    + cbn [List.length skipn]. destruct (IH (ev + 1)) as [-> Hf].
      split; auto. do 2 f_equal. lia.
    + simpl. rewrite Z.add_0_r. auto.
Qed.

Lemma evictions_of_suffix (full : Z -> bool) (d : OrderedDict)
      (v : Key * Entry) (cur : OrderedDict) :
  In (v, cur) (evictions_of full d) ->
  exists pre rest, d = pre ++ cur /\ cur = v :: rest.
Proof.
  induction d as [|p rest IH]; cbn [evictions_of].
  - destruct (full (len [])); intros [].
  - destruct (full (len (p :: rest))); [|intros []].
    intros [E | Hin].
    + inversion E; subst. exists [], rest; auto.
    + destruct (IH Hin) as [pre [rest' [E1 E2]]].
      exists (p :: pre), rest'. subst. auto.
Qed.

(** The victim of every eviction is the first entry of the dict at that
    moment, and everything behind it is still there. *)
Lemma evictions_of_head (R : Key * Entry -> Key * Entry -> Prop)
      (full : Z -> bool) (d : OrderedDict) (v : Key * Entry)
      (cur : OrderedDict) :
  StronglySorted R d -> In (v, cur) (evictions_of full d) ->
  exists rest, cur = v :: rest /\ StronglySorted R cur /\ Forall (R v) rest.
Proof.
  intros Hs Hin.
  destruct (evictions_of_suffix _ _ _ _ Hin) as [pre [rest [E1 E2]]].
  exists rest. subst d. apply sorted_suffix in Hs.
  split; auto. split; auto. subst cur. inversion Hs; auto.
Qed.

(** *** [update] with a [Generation] *)

Lemma loop_entry_fresh (c : t) (k : Key) :
  NoDup (keys (_cache c)) -> contains k (loop_entry c k) = false.
Proof.
  intros Hd. unfold loop_entry.
  destruct (contains k (_cache c)) eqn:E; auto using contains_delitem.
Qed.

Lemma loop_entry_incl (c : t) (k : Key) (p : Key * Entry) :
  In p (loop_entry c k) -> In p (_cache c).
Proof.
  unfold loop_entry. destruct (contains k (_cache c)); eauto using delitem_incl.
Qed.

Lemma update_returns (c : t) (now : Z) (p l : string) (g : Generation) :
  1 <= max_size c -> NoDup (keys (_cache c)) ->
  let k := _generate_key p l in
  let d0 := loop_entry c k in
  let n := List.length (evictions_of (fun n => n >=? max_size c) d0) in
  update c now p l (VGeneration g)
  = (Return tt,
     with_cache c
       (skipn n d0 ++ [(k, {| response := text g; created_at := now;
                              last_accessed := now |})])
       (set_evictions (_stats c) (evictions (_stats c) + Z.of_nat n)))
  /\ len (skipn n d0) < max_size c.
Proof.
  intros Hm Hd k d0 n.
  assert (H0 : (fun n => n >=? max_size c) 0 = false)
    by (cbv beta; rewrite Z.geb_leb; apply Z.leb_gt; lia).
  destruct (evict_while_spec _ d0 (evictions (_stats c)) H0) as [Hev Hfull].
  fold n in Hev, Hfull.
  unfold update. fold k. change (if contains k (_cache c)
    then delitem k (_cache c) else _cache c) with d0.
  rewrite Hev. cbn [getattr_text].
  assert (Hk : contains k (skipn n d0) = false).
  { apply contains_false_In. intros Hin.
    pose proof (loop_entry_fresh c k Hd) as Hf.
    apply contains_false_In in Hf. apply Hf.
    unfold keys in *. apply in_map_iff in Hin. destruct Hin as [q [E Hq]].
    apply in_map_iff. exists q; split; auto. eapply in_skipn_in; eauto. }
  split.
  - cbn [with_cache _cache _stats max_size ttl]. rewrite setitem_fresh by auto.
    reflexivity.
  - cbv beta in Hfull. rewrite Z.geb_leb in Hfull.
    apply Z.leb_gt in Hfull. exact Hfull.
Qed.


(** *** Histories *)

Lemma last_touch_from_snoc (s : nat) (k : Key) (calls : list Call) (u : Call) :
  last_touch_from s k (calls ++ [u])
  = if key_eqb k (call_key u) then Some (s + List.length calls)%nat
    else last_touch_from s k calls.
Proof.
  revert s. induction calls as [|v rest IH]; intros s; simpl.
  - rewrite Nat.add_0_r. reflexivity.
  - rewrite IH. destruct (key_eqb k (call_key u)); auto.
Qed.

Lemma last_touch_from_range (s : nat) (k : Key) (calls : list Call) (i : nat) :
  last_touch_from s k calls = Some i -> (s <= i < s + List.length calls)%nat.
Proof.
  revert s. induction calls as [|v rest IH]; intros s; simpl; [discriminate|].
  destruct (last_touch_from (S s) k rest) as [j|] eqn:E.
  - intros H; inversion H; subst. apply IH in E. lia.
  - destruct (key_eqb k (call_key v)); [|discriminate].
    intros H; inversion H; subst. lia.
Qed.

Lemma last_touch_snoc_same (calls : list Call) (u : Call) :
  last_touch (call_key u) (calls ++ [u]) = Some (List.length calls).
Proof.
  unfold last_touch. rewrite last_touch_from_snoc, key_eqb_refl. reflexivity.
Qed.

Lemma last_touch_snoc_other (k : Key) (calls : list Call) (u : Call) :
  k <> call_key u -> last_touch k (calls ++ [u]) = last_touch k calls.
Proof.
  intros N. unfold last_touch. rewrite last_touch_from_snoc.
  apply key_eqb_neq in N. rewrite N. reflexivity.
Qed.

Lemma touched_snoc (calls : list Call) (u : Call) (p : Key * Entry) :
  touched calls p -> touched (calls ++ [u]) p.
Proof.
  intros [i Hi]. unfold touched, last_touch in *.
  rewrite last_touch_from_snoc.
  destruct (key_eqb (fst p) (call_key u)); eauto.
Qed.

Lemma older_than_new (calls : list Call) (u : Call) (p : Key * Entry)
      (e : Entry) :
  touched calls p -> fst p <> call_key u ->
  older (calls ++ [u]) p (call_key u, e).
Proof.
  intros [i Hi] N. exists i, (List.length calls). simpl.
  rewrite last_touch_snoc_other, last_touch_snoc_same by auto.
  split; auto. split; auto.
  apply last_touch_from_range in Hi. simpl in Hi. lia.
Qed.

Lemma older_snoc (calls : list Call) (u : Call) (p q : Key * Entry) :
  fst p <> call_key u -> fst q <> call_key u ->
  older calls p q -> older (calls ++ [u]) p q.
Proof.
  intros Np Nq [i [j [Hi [Hj Hlt]]]]. exists i, j.
  rewrite !last_touch_snoc_other by auto. auto.
Qed.

(** *** The invariant of a history *)

Lemma invariant_init (m : Z) (lifetime : option Z) :
  invariant [] (__init__ m lifetime).
Proof.
  constructor; simpl; try constructor; unfold len; simpl; lia.
Qed.

Lemma apply_returns (calls : list Call) (c : t) (u : Call) :
  invariant calls c ->
  let d0 := loop_entry c (call_key u) in
  let n := List.length (evictions_of_update c u) in
  apply c u
  = (Return tt,
     with_cache c
       (skipn n d0 ++ [(call_key u,
                        {| response := text (call_value u);
                           created_at := at_time u;
                           last_accessed := at_time u |})])
       (set_evictions (_stats c) (evictions (_stats c) + Z.of_nat n)))
  /\ len (skipn n d0) < max_size c.
Proof.
  intros [Hd Hm _ _ _]. unfold apply. apply update_returns; auto.
Qed.

Lemma survivors_not_key (c : t) (k : Key) (n : nat) (p : Key * Entry) :
  NoDup (keys (_cache c)) -> In p (skipn n (loop_entry c k)) -> fst p <> k.
Proof.
  intros Hd Hin E. pose proof (loop_entry_fresh c k Hd) as Hf.
  apply contains_false_In in Hf. apply Hf. subst k.
  apply in_map. eauto using in_skipn_in.
Qed.

Lemma loop_entry_Forall (P : Key * Entry -> Prop) (c : t) (k : Key) :
  Forall P (_cache c) -> Forall P (loop_entry c k).
Proof.
  rewrite !Forall_forall. eauto using loop_entry_incl.
Qed.

Lemma loop_entry_sorted (R : Key * Entry -> Key * Entry -> Prop) (c : t)
      (k : Key) :
  StronglySorted R (_cache c) -> StronglySorted R (loop_entry c k).
Proof.
  unfold loop_entry. destruct (contains k (_cache c)); auto using delitem_sorted.
Qed.

Lemma loop_entry_NoDup (c : t) (k : Key) :
  NoDup (keys (_cache c)) -> NoDup (keys (loop_entry c k)).
Proof.
  unfold loop_entry. destruct (contains k (_cache c)); auto using delitem_NoDup.
Qed.

Lemma invariant_step (calls : list Call) (c : t) (u : Call) :
  invariant calls c -> invariant (calls ++ [u]) (snd (apply c u)).
Proof.
  intros Inv. destruct (apply_returns calls c u Inv) as [E Hlt].
  destruct Inv as [Hd Hm Hb Ht Ho].
  rewrite E. cbn [snd].
  set (d0 := loop_entry c (call_key u)) in *.
  set (n := List.length (evictions_of_update c u)) in *.
  assert (Hne : forall p, In p (skipn n d0) -> fst p <> call_key u)
    by (intros p; apply survivors_not_key; auto).
  assert (Ht' : Forall (touched calls) (skipn n d0))
    by (apply Forall_skipn, loop_entry_Forall; auto).
  constructor; cbn [_cache max_size with_cache].
  - unfold keys. rewrite map_app. simpl. apply NoDup_snoc.
    + pose proof (loop_entry_NoDup c (call_key u) Hd) as Hd0. fold d0 in Hd0.
      unfold keys in Hd0. rewrite <- (firstn_skipn n d0), map_app in Hd0.
      eapply NoDup_app_remove_l; eauto.
    + intros Hin. apply in_map_iff in Hin. destruct Hin as [p [Ep Hp]].
      apply (Hne p Hp Ep).
  - exact Hm.
  - unfold len in *. rewrite length_app. simpl. lia.
  - apply Forall_app; split.
    + eapply Forall_impl; [|exact Ht']. intros p. apply touched_snoc.
    + constructor; [|constructor]. exists (List.length calls). simpl.
      apply last_touch_snoc_same.
  - apply sorted_snoc.
    + apply sorted_weaken with (R := older calls).
      * intros p q Hp Hq. apply older_snoc; auto.
      * apply sorted_skipn, loop_entry_sorted; auto.
    + rewrite Forall_forall in *. intros p Hp.
      apply older_than_new; auto.
Qed.

Lemma run_snoc (c : t) (calls : list Call) (u : Call) :
  run c (calls ++ [u]) = snd (apply (run c calls) u).
Proof. unfold run. rewrite fold_left_app. reflexivity. Qed.

Lemma invariant_run (m : Z) (lifetime : option Z) (calls : list Call) :
  invariant calls (run (__init__ m lifetime) calls).
Proof.
  induction calls as [|u calls IH] using rev_ind.
  - apply invariant_init.
  - rewrite run_snoc. apply invariant_step; auto.
Qed.

(** *** Timestamps under a monotone clock *)

Lemma clock_monotone_from_snoc (t0 : Z) (calls : list Call) (u : Call) :
  clock_monotone_from t0 (calls ++ [u]) ->
  clock_monotone_from t0 calls /\ t0 <= at_time u
  /\ Forall (fun v => at_time v <= at_time u) calls.
Proof.
  revert t0. induction calls as [|v rest IH]; intros t0; simpl.
  - intros [H _]. auto.
  - intros [H1 H2]. destruct (IH _ H2) as [H3 [H4 H5]].
    repeat split; auto. lia.
Qed.

Lemma clock_monotone_snoc (calls : list Call) (u : Call) :
  clock_monotone (calls ++ [u]) ->
  clock_monotone calls /\ Forall (fun v => at_time v <= at_time u) calls.
Proof.
  destruct calls as [|v rest]; simpl; auto.
  intros H. destruct (clock_monotone_from_snoc _ _ _ H) as [H1 [H2 H3]]. auto.
Qed.

Lemma time_invariant_step (calls : list Call) (c : t) (u : Call) :
  Forall (fun v => at_time v <= at_time u) calls ->
  invariant calls c -> time_invariant calls c ->
  time_invariant (calls ++ [u]) (snd (apply c u)).
Proof.
  intros Hle Inv [Hs Ho]. destruct (apply_returns calls c u Inv) as [E _].
  rewrite E. cbn [snd].
  set (d0 := loop_entry c (call_key u)) in *.
  set (n := List.length (evictions_of_update c u)) in *.
  assert (Hs' : Forall (stamped calls) (skipn n d0))
    by (apply Forall_skipn, loop_entry_Forall; auto).
  constructor; cbn [_cache with_cache].
  - apply Forall_app; split.
    + eapply Forall_impl; [|exact Hs']. intros p [v [Hv Ev]].
      exists v. split; auto. apply in_or_app; auto.
    + constructor; [|constructor]. exists u. split; simpl; auto.
      apply in_or_app; simpl; auto.
  - apply sorted_snoc.
    + apply sorted_skipn, loop_entry_sorted; auto.
    + rewrite Forall_forall in *. intros p Hp.
      destruct (Hs' p Hp) as [v [Hv Ev]]. unfold not_newer. simpl.
      rewrite Ev. apply Hle; auto.
Qed.

Lemma time_invariant_run (m : Z) (lifetime : option Z) (calls : list Call) :
  clock_monotone calls ->
  time_invariant calls (run (__init__ m lifetime) calls).
Proof.
  induction calls as [|u calls IH] using rev_ind; intros Hc.
  - constructor; simpl; constructor.
  - apply clock_monotone_snoc in Hc. destruct Hc as [Hc Hle].
    rewrite run_snoc. apply time_invariant_step; auto using invariant_run.
Qed.

Lemma oldest_entry_In (d : OrderedDict) (q : Key * Entry) :
  oldest_entry d = Some q -> In q d.
Proof.
  revert q. induction d as [|p rest IH]; simpl; [discriminate|].
  intros q. destruct (oldest_entry rest) as [r|].
  - destruct (last_accessed (snd p) <=? last_accessed (snd r));
      intros H; inversion H; subst; auto.
  - intros H; inversion H; auto.
Qed.

(** In a dict whose order follows the timestamps the first entry is the
    oldest one, also among entries with the same timestamp. *)
Lemma oldest_entry_head (p : Key * Entry) (rest : OrderedDict) :
  Forall (not_newer p) rest -> oldest_entry (p :: rest) = Some p.
Proof.
  intros H. simpl. destruct (oldest_entry rest) as [q|] eqn:E; auto.
  apply oldest_entry_In in E. rewrite Forall_forall in H.
  specialize (H q E). unfold not_newer in H.
  apply Z.leb_le in H. rewrite H. reflexivity.
Qed.


Lemma evictions_of_victims (full : Z -> bool) (d : OrderedDict) :
  map fst (evictions_of full d)
  = firstn (List.length (evictions_of full d)) d.
Proof.
  induction d as [|p rest IH]; cbn [evictions_of].
  - destruct (full (len [])); reflexivity.
  - destruct (full (len (p :: rest))); [|reflexivity].
    simpl. rewrite IH. reflexivity.
Qed.

(** C1. After every [update] of a sequence of [update] calls on a fresh
    in-memory cache the call has returned and the number of entries is
    at most [max_size]; the eviction counter grows by the number of
    [popitem(last=False)] calls of the loop; each of them removes the
    first entry of the dict, which every other current entry was touched
    (inserted or re-inserted) after; and when the clock did not run
    backwards that entry has the smallest [last_accessed], the first
    inserted one among equal timestamps. *)
Theorem update_sequence_bounded_lru :
  forall (m : Z) (lifetime : option Z) (calls : list Call) (u : Call),
    let before := run (__init__ m lifetime) calls in
    let after := snd (apply before u) in
    let performed := evictions_of_update before u in
    fst (apply before u) = Return tt
    /\ 0 <= current_size after <= max_size after
    /\ evictions (_stats after)
       = evictions (_stats before) + Z.of_nat (List.length performed)
    /\ keys (_cache after)
       = skipn (List.length performed) (keys (loop_entry before (call_key u)))
         ++ [call_key u]
    /\ map fst performed
       = firstn (List.length performed) (loop_entry before (call_key u))
    /\ (forall victim current,
          In (victim, current) performed ->
          popitem_first current = Return (victim, tl current)
          /\ forall other, In other current -> other <> victim ->
                           touched_before calls (fst victim) (fst other))
    /\ (clock_monotone calls ->
        forall victim current,
          In (victim, current) performed ->
          oldest_entry current = Some victim).
Proof.
  intros m lifetime calls u before after performed.
  pose proof (invariant_run m lifetime calls) as Inv. fold before in Inv.
  destruct (apply_returns calls before u Inv) as [E Hlt].
  pose proof (invariant_step calls before u Inv) as Inv'. fold after in Inv'.
  fold performed in E, Hlt.
  split; [rewrite E; reflexivity|].
  split; [destruct Inv' as [_ _ Hb _ _]; unfold current_size, len in *; lia|].
  split; [unfold after; rewrite E; reflexivity|].
  split.
  { unfold after; rewrite E. cbn [snd _cache with_cache]. unfold keys.
    rewrite map_app, skipn_map. reflexivity. }
  split; [apply evictions_of_victims|].
  split.
  - intros victim current Hin.
    destruct (evictions_of_head (older calls) _ _ victim current
                (loop_entry_sorted _ before (call_key u) (inv_order _ _ Inv)) Hin)
      as [rest [Ec [_ Hr]]].
    subst current. split; [reflexivity|].
    intros other [Ho | Ho] Hne; [congruence|].
    rewrite Forall_forall in Hr. exact (Hr other Ho).
  - intros Hc victim current Hin.
    pose proof (time_invariant_run m lifetime calls Hc) as [_ Hs].
    fold before in Hs.
    destruct (evictions_of_head not_newer _ _ victim current
                (loop_entry_sorted _ before (call_key u) Hs) Hin)
      as [rest [Ec [_ Hr]]].
    subst current. apply oldest_entry_head; auto.
Qed.

Lemma update_sequence_bounded_lru_witness :
  clock_monotone Scenario.calls_A
  /\ oldest_entry (_cache Scenario.cache_full)
     = Some (("k1", "llm"),
             {| response := "a"; created_at := 1000000;
                last_accessed := 1000000 |}).
Proof.
  split; [simpl; lia|].
  apply (update_sequence_bounded_lru 2 None Scenario.calls_A Scenario.call_A3).
  - simpl; lia.
  - simpl. left. reflexivity.
Defined.


(** *** Expiry *)

Lemma round_half_even_le (n d N : Z) :
  0 < d -> n <= N * d -> round_half_even n d <= N.
Proof.
  intros Hd H. unfold round_half_even.
  pose proof (Z.div_mod n d ltac:(lia)) as E.
  pose proof (Z.mod_pos_bound n d Hd) as B.
  set (q := n / d) in *. set (r := n mod d) in *.
  destruct (2 * r <? d) eqn:E1; [nia|].
  apply Z.ltb_ge in E1.
  assert (q + 1 <= N) by nia.
  destruct (d <? 2 * r); [lia|]. destruct (Z.even q); lia.
Qed.

Lemma round_half_even_ge (n d N : Z) :
  0 < d -> N * d <= n -> N <= round_half_even n d.
Proof.
  intros Hd H. unfold round_half_even.
  pose proof (Z.div_mod n d ltac:(lia)) as E.
  pose proof (Z.mod_pos_bound n d Hd) as B.
  set (q := n / d) in *. set (r := n mod d) in *.
  assert (N <= q) by nia.
  destruct (2 * r <? d); [lia|].
  destruct (d <? 2 * r); [lia|]. destruct (Z.even q); lia.
Qed.

(** The rounded quotient is within half a unit of the exact one. *)
Lemma round_half_even_error (n d : Z) :
  0 < d ->
  2 * n - d <= 2 * (round_half_even n d * d) <= 2 * n + d.
Proof.
  intros Hd. unfold round_half_even.
  pose proof (Z.div_mod n d ltac:(lia)) as E.
  pose proof (Z.mod_pos_bound n d Hd) as B.
  set (q := n / d) in *. set (r := n mod d) in *.
  destruct (2 * r <? d) eqn:E1.
  - apply Z.ltb_lt in E1. nia.
  - apply Z.ltb_ge in E1. destruct (d <? 2 * r) eqn:E2.
    + nia.
    + apply Z.ltb_ge in E2. assert (2 * r = d) by lia.
      destruct (Z.even q); nia.
Qed.

Lemma binary_places_bounds (a : Z) :
  0 <= a < 2 ^ 67 ->
  5 <= binary_places a 1000000 <= 72.
Proof.
  intros Ha. unfold binary_places.
  change (Z.log2 1000000) with 19.
  assert (0 <= Z.log2 a <= 66).
  { split; [apply Z.log2_nonneg|].
    destruct (Z.eq_dec a 0) as [->|]; [cbn; lia|].
    assert (Z.log2 a < 67) by (apply Z.log2_lt_pow2; lia). lia. }
  destruct (_ <? _); lia.
Qed.

(** The significand has its 53 bits: it is at least 2^52. *)
Lemma binary_places_normal (a : Z) :
  0 < a < 2 ^ 67 ->
  2 ^ 52 * 1000000 <= a * 2 ^ binary_places a 1000000.
Proof.
  intros Ha. unfold binary_places.
  change (Z.log2 1000000) with 19.
  assert (Hl : 0 <= Z.log2 a <= 66).
  { split; [apply Z.log2_nonneg|].
    assert (Z.log2 a < 67) by (apply Z.log2_lt_pow2; lia). lia. }
  destruct (Z.log2_spec a ltac:(lia)) as [Hlo _].
  set (k := Z.log2 a) in *.
  destruct (a * 2 ^ (52 - (k - 19)) <? 1000000 * 2 ^ 52) eqn:E.
  - replace (52 - (k - 19) + 1) with (72 - k) by lia.
    assert (2 ^ k * 2 ^ (72 - k) = 2 ^ 72)
      by (rewrite <- Z.pow_add_r by lia; f_equal; lia).
    assert (0 < 2 ^ (72 - k)) by (apply Z.pow_pos_nonneg; lia).
    assert (2 ^ 52 * 1000000 <= 2 ^ 72) by (vm_compute; discriminate).
    nia.
  - apply Z.ltb_ge in E. lia.
Qed.

(** Whatever the clocks read, [elapsed > ttl] is false when no more than
    [ttl] seconds have passed: rounding never carries a quotient across
    an integer it has not passed. *)
Lemma total_seconds_within (E T : Z) :
  E <= T * 1000000 -> gt_int (total_seconds E) T = false.
Proof.
  intros H. unfold gt_int, total_seconds.
  destruct (_ && _) eqn:R; cbn [numerator denominator];
    [|apply Z.ltb_ge; lia].
  apply andb_true_iff in R. rewrite !Z.leb_le in R.
  unfold timedelta_min, timedelta_max in R.
  assert (Ha : 0 <= Z.abs E < 2 ^ 67)
    by (change (2 ^ 67) with 147573952589676412928; lia).
  pose proof (binary_places_bounds _ Ha) as Hs.
  set (s := binary_places (Z.abs E) 1000000) in *.
  assert (HS : 0 < 2 ^ s) by (apply Z.pow_pos_nonneg; lia).
  apply Z.ltb_ge.
  destruct (Z.lt_trichotomy E 0) as [Hn | [-> | Hp]].
  - rewrite Z.sgn_neg by lia. rewrite Z.abs_neq by lia.
    assert (- (T * 2 ^ s) <= round_half_even (- E * 2 ^ s) 1000000)
      by (apply round_half_even_ge; nia).
    lia.
  - cbn. nia.
  - rewrite Z.sgn_pos by lia. rewrite Z.abs_eq by lia.
    assert (round_half_even (E * 2 ^ s) 1000000 <= T * 2 ^ s)
      by (apply round_half_even_le; nia).
    lia.
Qed.

(** Below 2^53 microseconds (some 285 years) a float tells every
    microsecond from the next whole second: [elapsed > ttl] is true as
    soon as more than [ttl] seconds have passed. *)
Lemma total_seconds_beyond (E T : Z) :
  Z.abs E < 2 ^ 53 -> T * 1000000 < E -> gt_int (total_seconds E) T = true.
Proof.
  intros Hb H. unfold gt_int, total_seconds.
  change (2 ^ 53) with 9007199254740992 in Hb.
  assert (R : (timedelta_min <=? E) && (E <=? timedelta_max) = true).
  { apply andb_true_iff. rewrite !Z.leb_le.
    unfold timedelta_min, timedelta_max. lia. }
  rewrite R. cbn [numerator denominator].
  assert (Ha : 0 <= Z.abs E < 2 ^ 67)
    by (change (2 ^ 67) with 147573952589676412928; lia).
  pose proof (binary_places_bounds _ Ha) as Hs.
  destruct (Z.eq_dec E 0) as [->|Hz].
  { apply Z.ltb_lt.
    set (s := binary_places (Z.abs 0) 1000000) in *.
    assert (HS : 0 < 2 ^ s) by (apply Z.pow_pos_nonneg; lia).
    cbn [Z.sgn]. nia. }
  pose proof (binary_places_normal (Z.abs E)
                ltac:(change (2 ^ 67) with 147573952589676412928; lia)) as Hn.
  set (s := binary_places (Z.abs E) 1000000) in *.
  assert (HS : 0 < 2 ^ s) by (apply Z.pow_pos_nonneg; lia).
  change (2 ^ 52) with 4503599627370496 in Hn.
  pose proof (round_half_even_error (Z.abs E * 2 ^ s) 1000000 ltac:(lia))
    as Hr.
  set (m := round_half_even (Z.abs E * 2 ^ s) 1000000) in *.
  set (S := 2 ^ s) in *.
  assert (HSd : 1000000 < 2 * S) by nia.
  apply Z.ltb_lt.
  destruct (Z.lt_trichotomy E 0) as [Hneg | [? | Hp]]; [| lia |].
  - rewrite Z.sgn_neg by lia. rewrite Z.abs_neq in * by lia. nia.
  - rewrite Z.sgn_pos by lia. rewrite Z.abs_eq in * by lia. nia.
Qed.

Lemma not_expired_within_ttl (c : t) (now : Z) (e : Entry) :
  match ttl c with
  | None => True
  | Some T => now - last_accessed e <= T * 1000000
  end ->
  _is_expired c now e = false.
Proof.
  unfold _is_expired. destruct (ttl c) as [T|]; [|reflexivity].
  cbv zeta. apply total_seconds_within.
Qed.

(** C5 (as stated, it fails).  With a lifetime of 2^34 seconds (some 544
    years) an entry that was last accessed 2^34 seconds and one
    microsecond ago is past its lifetime, yet [total_seconds()] is the
    float 17179869184.0, which is not greater than [ttl]: [lookup]
    returns the entry, counts a hit and keeps the entry. *)
Lemma stale_entry_is_served :
  let c := snd (update (__init__ 3 (Some (2 ^ 34))) 0 "k1" "llm"
                  (VGeneration (Scenario.gen "a"))) in
  let now := 2 ^ 34 * 1000000 + 1 in
  getitem ("k1", "llm") (_cache c)
  = Some {| response := "a"; created_at := 0; last_accessed := 0 |}
  /\ now - 0 > 2 ^ 34 * 1000000
  /\ total_seconds (now - 0)
     = {| numerator := 2 ^ 34 * 2 ^ 18; denominator := 2 ^ 18 |}
  /\ fst (lookup c now now "k1" "llm") = Some (Scenario.gen "a")
  /\ hits (_stats (snd (lookup c now now "k1" "llm"))) = 1
  /\ misses (_stats (snd (lookup c now now "k1" "llm"))) = 0
  /\ expired (_stats (snd (lookup c now now "k1" "llm"))) = 0
  /\ contains ("k1", "llm") (_cache (snd (lookup c now now "k1" "llm")))
     = true.
Proof. vm_compute. repeat split; discriminate. Qed.

(** C5 (amended).  With [ttl = T], looking up a key whose entry was last
    accessed more than [T] seconds before, the two clock readings being
    less than 2^53 microseconds (some 285 years) apart, returns [None],
    adds one to [expired] and one to [misses], leaves [hits] alone and
    removes the entry; the next lookup of the key, whenever it comes,
    returns [None] and adds one to [misses] only. *)
Theorem lookup_expired_entry :
  forall (c : t) (T : Z) (e : Entry) (p l : string)
         (now now' later later' : Z),
    NoDup (keys (_cache c)) ->
    ttl c = Some T ->
    getitem (_generate_key p l) (_cache c) = Some e ->
    now - last_accessed e > T * 1000000 ->
    Z.abs (now - last_accessed e) < 2 ^ 53 ->
    let first := lookup c now now' p l in
    let second := lookup (snd first) later later' p l in
    fst first = None
    /\ expired (_stats (snd first)) = expired (_stats c) + 1
    /\ misses (_stats (snd first)) = misses (_stats c) + 1
    /\ hits (_stats (snd first)) = hits (_stats c)
    /\ _cache (snd first) = delitem (_generate_key p l) (_cache c)
    /\ contains (_generate_key p l) (_cache (snd first)) = false
    /\ fst second = None
    /\ misses (_stats (snd second)) = misses (_stats c) + 2
    /\ expired (_stats (snd second)) = expired (_stats c) + 1
    /\ _cache (snd second) = _cache (snd first).
Proof.
  intros c T e p l now now' later later' Hd HT Hg Hold Hnear first second.
  assert (Hexp : _is_expired c now e = true).
  { unfold _is_expired. rewrite HT. cbv zeta.
    apply total_seconds_beyond; [exact Hnear | lia]. }
  assert (E1 : first
               = (None, with_cache c (delitem (_generate_key p l) (_cache c))
                          (bump_misses (bump_expired (_stats c))))).
  { unfold first, lookup. rewrite Hg, Hexp. reflexivity. }
  assert (Hgone : contains (_generate_key p l)
                    (delitem (_generate_key p l) (_cache c)) = false)
    by (apply contains_delitem; auto).
  assert (E2 : second
               = (None, with_cache (snd first) (_cache (snd first))
                          (bump_misses (_stats (snd first))))).
  { unfold second, lookup. rewrite E1. cbn [snd _cache with_cache].
    apply getitem_None in Hgone. rewrite Hgone. reflexivity. }
  rewrite E2. rewrite E1. cbn. repeat split; auto; lia.
Qed.

Lemma lookup_expired_entry_witness :
  fst (lookup Scenario.cache_B 2000000 2000000 "k1" "llm") = None
  /\ expired (_stats (snd (lookup Scenario.cache_B 2000000 2000000 "k1" "llm")))
     = 1.
Proof.
  pose proof (lookup_expired_entry Scenario.cache_B 1
                {| response := "a"; created_at := 0; last_accessed := 0 |}
                "k1" "llm" 2000000 2000000 2000001 2000001) as H.
  cbv zeta in H.
  assert (Hd : NoDup (keys (_cache Scenario.cache_B)))
    by (simpl; constructor; [intros [] | constructor]).
  specialize (H Hd eq_refl eq_refl ltac:(simpl; lia) ltac:(simpl; lia)).
  destruct H as [H1 [H2 _]]. split; [exact H1 | exact H2].
Defined.

(** *** [resize] *)

(** C8. [resize(n)] returns; calling it a second time with the same [n]
    changes nothing at all (entries, bound, counters); and when [n] is at
    least the current number of entries it removes no entry and counts
    no eviction. *)
Theorem resize_idempotent :
  forall (c : t) (n : Z),
    fst (resize c n) = Return tt
    /\ resize (snd (resize c n)) n = (Return tt, snd (resize c n))
    /\ (len (_cache c) <= n ->
        _cache (snd (resize c n)) = _cache c
        /\ evictions (_stats (snd (resize c n))) = evictions (_stats c)).
Proof.
  intros c n.
  assert (H0 : (fun x => x >? Z.max n 1) 0 = false)
    by (cbv beta; rewrite Z.gtb_ltb; apply Z.ltb_ge; lia).
  destruct (evict_while_spec _ (_cache c) (evictions (_stats c)) H0)
    as [E Hf].
  split; [unfold resize; rewrite E; reflexivity|].
  split.
  - unfold resize at 2 3. rewrite E. cbn [snd].
    unfold resize. cbn [_cache _stats ttl set_evictions evictions].
    destruct (evict_while_idle (fun x => x >? Z.max n 1) _
                (evictions (_stats c)
                 + Z.of_nat (List.length
                     (evictions_of (fun x => x >? Z.max n 1) (_cache c))))
                Hf) as [-> _].
    reflexivity.
  - intros Hle.
    assert (Hidle : (fun x => x >? Z.max n 1) (len (_cache c)) = false)
      by (cbv beta; rewrite Z.gtb_ltb; apply Z.ltb_ge; lia).
    destruct (evict_while_idle _ _ (evictions (_stats c)) Hidle) as [E' _].
    unfold resize. rewrite E'. split; reflexivity.
Qed.

Lemma resize_idempotent_witness :
  _cache (snd (resize Scenario.cache_full 5)) = _cache Scenario.cache_full
  /\ evictions (_stats (snd (resize Scenario.cache_full 5)))
     = evictions (_stats Scenario.cache_full).
Proof.
  apply (resize_idempotent Scenario.cache_full 5). vm_compute. discriminate.
Defined.

(** *** Updating a key that is present *)

(** C10. When the cache holds at most [max_size] entries and the key is
    present, [update] returns, the eviction loop starts below capacity
    and pops nothing, the eviction counter (as all counters) is
    unchanged, the entries of all other keys are what they were, in the
    same order, and the key maps to the new entry. *)
Theorem update_present_key_evicts_nothing :
  forall (c : t) (now : Z) (p l : string) (g : Generation),
    len (_cache c) <= max_size c ->
    contains (_generate_key p l) (_cache c) = true ->
    let k := _generate_key p l in
    let after := snd (update c now p l (VGeneration g)) in
    fst (update c now p l (VGeneration g)) = Return tt
    /\ len (loop_entry c k) < max_size c
    /\ evictions_of (fun n => n >=? max_size c) (loop_entry c k) = []
    /\ evictions (_stats after) = evictions (_stats c)
    /\ hits (_stats after) = hits (_stats c)
    /\ misses (_stats after) = misses (_stats c)
    /\ expired (_stats after) = expired (_stats c)
    /\ filter (fun q => negb (key_eqb k (fst q))) (_cache after)
       = filter (fun q => negb (key_eqb k (fst q))) (_cache c)
    /\ getitem k (_cache after)
       = Some {| response := text g; created_at := now;
                 last_accessed := now |}.
Proof.
  intros c now p l g Hb Hin k after.
  assert (Hlen : len (loop_entry c k) < max_size c).
  { unfold loop_entry, k. rewrite Hin.
    pose proof (length_delitem _ (_cache c) Hin). unfold len in *. lia. }
  assert (Hidle : (fun n => n >=? max_size c) (len (loop_entry c k)) = false)
    by (cbv beta; rewrite Z.geb_leb; apply Z.leb_gt; lia).
  destruct (evict_while_idle _ _ (evictions (_stats c)) Hidle) as [E Hnone].
  assert (Eu : update c now p l (VGeneration g)
               = (Return tt,
                  with_cache c
                    (setitem k {| response := text g; created_at := now;
                                  last_accessed := now |} (loop_entry c k))
                    (set_evictions (_stats c) (evictions (_stats c))))).
  { unfold update. fold k.
    change (if contains k (_cache c) then delitem k (_cache c) else _cache c)
      with (loop_entry c k).
    rewrite E. reflexivity. }
  unfold after. rewrite Eu. cbn [fst snd _cache _stats with_cache].
  repeat split; auto.
  - rewrite filter_setitem. unfold loop_entry, k. rewrite Hin.
    apply filter_delitem.
  - apply getitem_setitem_same.
Qed.

Lemma update_present_key_evicts_nothing_witness :
  evictions (_stats (snd (update Scenario.cache_full 5000000 "k1" "llm"
                                 (VGeneration (Scenario.gen "z")))))
  = evictions (_stats Scenario.cache_full).
Proof.
  apply (update_present_key_evicts_nothing Scenario.cache_full 5000000
           "k1" "llm" (Scenario.gen "z")).
  - vm_compute. discriminate.
  - reflexivity.
Defined.

(** *** Read after write *)

Lemma update_then_lookup (c : t) (now now1 now2 : Z) (p l : string)
      (g : Generation) :
  fst (update c now p l (VGeneration g)) = Return tt ->
  match ttl c with
  | None => True
  | Some T => now1 - now <= T * 1000000
  end ->
  fst (lookup (snd (update c now p l (VGeneration g))) now1 now2 p l)
  = Some {| text := text g; generation_info := None |}.
Proof.
  unfold update.
  destruct (evict_while _ _ _) as [[[]|e] [d1 ev]]; cbn [getattr_text fst snd];
    [intros _ | discriminate].
  intros Hfresh. unfold lookup. cbn [_cache with_cache _stats].
  rewrite getitem_setitem_same.
  rewrite not_expired_within_ttl; [reflexivity|].
  cbn [ttl with_cache last_accessed]. exact Hfresh.
Qed.


End MemoryFacts.

(** ** The durable backend *)

Module DurableFacts.

Import LRUSQLiteCache Failure.

(** *** Engine calls *)

Lemma engine_call_quiet (c : Connection) (fs : list (option string)) :
  quiet fs ->
  engine_call {| conn := c; faults := fs |}
  = (Return tt, {| conn := c; faults := tl fs |}).
Proof.
  intros H. destruct fs as [|f rest]; [reflexivity|].
  inversion H; subst. reflexivity.
Qed.

Lemma quiet_tl (fs : list (option string)) : quiet fs -> quiet (tl fs).
Proof.
  intros H. destruct fs; simpl; auto. inversion H; auto.
Qed.

Lemma sqlite_only_engine_call : sqlite_only engine_call.
Proof.
  intros s e s'. unfold engine_call.
  destruct (faults s) as [|[msg|] rest]; intros H; inversion H; reflexivity.
Qed.


Lemma sqlite_only_bind {A B} (m : M A) (f : A -> M B) :
  sqlite_only m -> (forall a, sqlite_only (f a)) -> sqlite_only (bind m f).
Proof.
  intros Hm Hf s e s'. unfold bind.
  destruct (m s) as [[a|e0] s0] eqn:E.
  - apply Hf.
  - intros H; inversion H; subst. eapply Hm; eauto.
Qed.

Lemma sqlite_only_pure {A} (f : Engine -> A * Engine) :
  sqlite_only (fun s => (Return (fst (f s)), snd (f s))).
Proof. intros s e s' H; inversion H. Qed.



Lemma sqlite_only_execute_ddl (stmt : Database -> Database) :
  sqlite_only (execute_ddl stmt).
Proof.
  apply sqlite_only_bind; [apply sqlite_only_engine_call|].
  intros _ s e s' H; inversion H.
Qed.







(** *** The handler *)


(** The connection a guarded method leaves is the one its body leaves,
    whatever the handler does. *)
Lemma guarded_connection {A} (self : t) (fs : list (option string))
      (body : M A) (operation : string) (default : A) :
  connection (snd (guarded self fs body operation default))
  = conn (snd (body {| conn := connection self; faults := fs |})).
Proof.
  unfold guarded, _handle_error, print.
  destruct (body _) as [[a|e] s]; [reflexivity|].
  destruct (is_sqlite_error e); [|reflexivity].
  destruct (faults s) as [|[msg|] rest]; reflexivity.
Qed.

Lemma guarded_max_size {A} (self : t) (fs : list (option string))
      (body : M A) (operation : string) (default : A) :
  max_size (snd (guarded self fs body operation default)) = max_size self.
Proof.
  unfold guarded, _handle_error, print.
  destruct (body _) as [[a|e] s]; [reflexivity|].
  destruct (is_sqlite_error e); [|reflexivity].
  destruct (faults s) as [|[msg|] rest]; reflexivity.
Qed.


Lemma stops_engine_call : stops_at_failure engine_call.
Proof.
  intros s o s'. unfold engine_call.
  destruct (faults s) as [|[msg|] rest] eqn:E; intros H; inversion H; subst;
    cbn [faults after_failure]; auto.
  rewrite E. reflexivity.
Qed.


Lemma stops_bind {A B} (m : M A) (f : A -> M B) :
  stops_at_failure m -> (forall a, stops_at_failure (f a)) ->
  stops_at_failure (bind m f).
Proof.
  intros Hm Hf s o s'. unfold bind.
  destruct (m s) as [[a|e0] s0] eqn:E; intros H.
  - pose proof (Hm _ _ _ E) as H0. pose proof (Hf a _ _ _ H) as H1.
    cbn in H0. destruct o; congruence.
  - inversion H; subst. apply (Hm _ _ _ E).
Qed.


Lemma stops_execute_dml (stmt : Database -> Database) :
  stops_at_failure (execute_dml stmt).
Proof.
  apply stops_bind; [apply stops_engine_call|].
  intros _ s o s' H; inversion H; subst. reflexivity.
Qed.

Lemma stops_commit : stops_at_failure commit.
Proof.
  intros s o s'. unfold commit.
  destruct (pending (conn s)); [|intros H; inversion H; subst; reflexivity].
  destruct (engine_call s) as [[[]|e0] s0] eqn:E; intros H; inversion H; subst.
  - apply (stops_engine_call _ _ _ E).
  - apply (stops_engine_call _ _ _ E).
Qed.

Lemma stops_with_conn {A} (body : M A) :
  stops_at_failure body -> stops_at_failure (with_conn body).
Proof.
  intros Hb s o s'. unfold with_conn.
  destruct (body s) as [[a|e0] s0] eqn:E.
  - pose proof (Hb _ _ _ E) as H0. cbn in H0.
    destruct (commit s0) as [[[]|e1] s1] eqn:Ec; intros H; inversion H; subst;
      pose proof (stops_commit _ _ _ Ec) as H1; cbn in H1;
      cbn [rollback faults]; congruence.
  - intros H; inversion H; subst. cbn [rollback faults].
    apply (Hb _ _ _ E).
Qed.


Lemma stops_update_body (now : Z) (p l v : string) :
  stops_at_failure (update_body now p l v).
Proof.
  apply stops_with_conn, stops_bind;
    auto using stops_execute_dml, stops_commit.
Qed.

Lemma stops_clear_body : stops_at_failure clear_body.
Proof.
  apply stops_with_conn, stops_bind;
    auto using stops_execute_dml, stops_commit.
Qed.


Lemma quiet_print_succeeds (fs : list (option string)) :
  quiet fs -> print_succeeds fs.
Proof.
  unfold print_succeeds. induction 1 as [|f fs Hf Hfs IH]; [reflexivity|].
  subst f. exact IH.
Qed.

(** *** Storage-engine errors *)

Ltac answer fs H :=
  destruct fs as [|[?msg|] fs];
  [ try (cbv in H; discriminate H) | | ].

(** The case of the handler: [print] reads the head of what is left. *)
Ltac printed fs H :=
  cbn in H; destruct fs as [|[?msg|] fs];
  [ | cbn in H; discriminate H | ].

Lemma init_aborts (file : option Database) (fs : list (option string))
      (m : Z) :
  fails_within 5 fs = true ->
  exists e, fst (__init__ file None fs m) = Raise e.
Proof.
  intros H. unfold __init__.
  answer fs H; [eexists; reflexivity|].
  answer fs H; [eexists; reflexivity|].
  answer fs H; [eexists; reflexivity|].
  answer fs H; [eexists; reflexivity|].
  answer fs H; [eexists; reflexivity|].
  cbv in H; discriminate H.
Qed.


Lemma durable_clear_returns (self : t) (fs : list (option string)) :
  print_succeeds fs -> fst (clear self fs) = Return tt.
Proof.
  unfold print_succeeds. intros H. unfold clear, guarded, clear_body.
  destruct fs as [|[msg|] fs]; [reflexivity | printed fs H; reflexivity |].
  destruct fs as [|[msg|] fs]; [reflexivity | printed fs H; reflexivity |].
  reflexivity.
Qed.





Lemma get_stats_degrades (self : t) (fs : list (option string)) :
  fails_within 3 fs = true ->
  exists msg,
    fst (get_stats self fs)
    = Return {| stats_type := "lru_sqlite"; stats_max_size := max_size self;
                status := ("error: " ++ msg)%string; current_size := None;
                oldest_entry := None; newest_entry := None;
                hit_rate := None |}
    /\ connection (snd (get_stats self fs))
       = {| committed := committed (connection self); pending := None |}.
Proof.
  intros H. unfold get_stats, get_stats_body.
  answer fs H; [eexists; split; reflexivity|].
  answer fs H; [eexists; split; reflexivity|].
  answer fs H; [eexists; split; reflexivity|].
  cbv in H; discriminate H.
Qed.






(** *** The constructor and the eviction trigger *)

Lemma init_fresh (m : Z) :
  __init__ None None [] m
  = (Return (Scenario.fresh_store m),
     Some (committed (connection (Scenario.fresh_store m)))).
Proof. reflexivity. Qed.

(** C2 (failing input).  A store that an earlier run created with
    [max_size = 3] is opened with [max_size = 1]:
    [CREATE TRIGGER IF NOT EXISTS] keeps the trigger of the earlier run,
    whose text says 3, and after two completed [update] calls the table
    holds two rows although [max_size] is 1. *)
Theorem stale_trigger_exceeds_max_size :
  fst (__init__ None None [] 3) = Return (Scenario.fresh_store 3)
  /\ snd (__init__ None None [] 3) = Some Scenario.file_of_earlier_run
  /\ fst (__init__ (Some Scenario.file_of_earlier_run) None [] 1)
     = Return Scenario.reopened_store
  /\ max_size Scenario.reopened_store = 1
  /\ map fst (map (DurableHistory.apply Scenario.reopened_store)
                  Scenario.calls_C)
     = [Return tt; Return tt]
  /\ count (committed (connection
              (DurableHistory.run Scenario.reopened_store Scenario.calls_C)))
     = 2
  /\ map prompt (lru_cache (committed (connection
              (DurableHistory.run Scenario.reopened_store Scenario.calls_C))))
     = ["k1"; "k2"].
Proof. repeat split. Qed.

(** *** Read after write *)

Lemma fire_trigger_incl (db : Database) (r : Row) :
  In r (lru_cache (fire_trigger db)) -> In r (lru_cache db).
Proof.
  unfold fire_trigger, trigger_delete.
  destruct (trigger_lru_eviction db) as [bound|]; auto.
  destruct (count db >? bound); auto.
  simpl. intros H. apply filter_In in H. tauto.
Qed.

Lemma select_after_insert (now : Z) (p l v r : string) (db : Database) :
  select_response p l (insert_or_replace now p l v db) = Some r -> r = v.
Proof.
  unfold select_response, insert_or_replace.
  destruct (find _ _) as [row|] eqn:E; [|discriminate].
  simpl. intros H; inversion H; subst; clear H.
  apply find_some in E. destruct E as [Hin Hk].
  apply fire_trigger_incl in Hin. simpl in Hin.
  apply in_app_or in Hin. destruct Hin as [Hin | [<- | []]]; auto.
  apply filter_In in Hin. destruct Hin as [_ Hn].
  rewrite Hk in Hn. discriminate.
Qed.

Lemma update_quiet (self : t) (now : Z) (fs : list (option string))
      (p l v : string) :
  quiet fs ->
  fst (update self now fs p l v) = Return tt
  /\ connection (snd (update self now fs p l v))
     = {| committed := insert_or_replace now p l v (working (connection self));
          pending := None |}.
Proof.
  intros H. unfold update, guarded, update_body.
  destruct fs as [|f0 fs]; [split; reflexivity|].
  inversion H as [|? ? E0 H0]; subst.
  destruct fs as [|f1 fs]; [split; reflexivity|].
  inversion H0; subst. split; reflexivity.
Qed.

Lemma lookup_quiet_hit (self : t) (now : Z) (fs : list (option string))
      (p l r : string) :
  quiet fs ->
  select_response p l (working (connection self)) = Some r ->
  fst (lookup self now fs p l) = Return (Some r)
  /\ connection (snd (lookup self now fs p l))
     = {| committed := update_last_accessed now p l (working (connection self));
          pending := None |}.
Proof.
  intros H Hsel. unfold lookup, guarded, lookup_body.
  destruct fs as [|f0 fs];
    [|inversion H as [|? ? E0 H0]; subst; clear H; rename H0 into H];
    cbv [with_conn bind execute_query engine_call faults conn];
    rewrite Hsel.
  - split; reflexivity.
  - destruct fs as [|f1 fs]; [split; reflexivity|].
    inversion H as [|? ? E1 H1]; subst.
    destruct fs as [|f2 fs]; [split; reflexivity|].
    inversion H1; subst. split; reflexivity.
Qed.

Lemma durable_update_then_lookup (self : t) (now now' : Z)
      (fs fs' : list (option string)) (p l v : string) :
  quiet fs -> quiet fs' ->
  select_response p l
    (committed (connection (snd (update self now fs p l v)))) <> None ->
  fst (lookup (snd (update self now fs p l v)) now' fs' p l)
  = Return (Some v).
Proof.
  intros Hq Hq' Hkept.
  destruct (update_quiet self now fs p l v Hq) as [_ Ec].
  rewrite Ec in Hkept. cbn [committed] in Hkept.
  destruct (select_response p l _) as [r|] eqn:Esel; [|congruence].
  pose proof (select_after_insert _ _ _ _ _ _ Esel) as ->.
  apply lookup_quiet_hit; auto.
  rewrite Ec. exact Esel.
Qed.


(** *** The trigger *)

Lemma row_leb_iff (a b : Row) :
  row_leb a b = true
  <-> last_accessed a < last_accessed b
      \/ (last_accessed a = last_accessed b /\ id a <= id b).
Proof.
  unfold row_leb.
  rewrite orb_true_iff, andb_true_iff, Z.ltb_lt, Z.eqb_eq, Z.leb_le.
  reflexivity.
Qed.

Lemma row_leb_total (a b : Row) : row_leb a b = false -> row_leb b a = true.
Proof.
  intros H. apply row_leb_iff.
  destruct (row_leb a b) eqn:E; [discriminate|].
  assert (N : ~ (last_accessed a < last_accessed b
                 \/ (last_accessed a = last_accessed b /\ id a <= id b)))
    by (rewrite <- row_leb_iff; congruence).
  lia.
Qed.

Lemma row_le_trans (a b c : Row) :
  DurableHistory.row_le a b -> DurableHistory.row_le b c ->
  DurableHistory.row_le a c.
Proof.
  unfold DurableHistory.row_le. rewrite !row_leb_iff. lia.
Qed.

Lemma insert_row_perm (r : Row) (l : list Row) :
  Permutation (insert_row r l) (r :: l).
Proof.
  induction l as [|x l IH]; simpl; auto.
  destruct (row_leb r x); auto.
  eapply perm_trans; [apply perm_skip, IH | apply perm_swap].
Qed.

Lemma order_perm (l : list Row) : Permutation (order_by_last_accessed l) l.
Proof.
  induction l as [|x l IH]; simpl; auto.
  eapply perm_trans; [apply insert_row_perm | apply perm_skip, IH].
Qed.

Lemma insert_row_sorted (r : Row) (l : list Row) :
  StronglySorted DurableHistory.row_le l ->
  StronglySorted DurableHistory.row_le (insert_row r l).
Proof.
  induction 1 as [|x l Hs IH Hx]; simpl.
  - constructor; constructor.
  - destruct (row_leb r x) eqn:E.
    + constructor; [constructor; auto|].
      constructor; [exact E|].
      eapply Forall_impl; [|exact Hx]. intros y Hy.
      eapply row_le_trans; eauto.
    + constructor; auto.
      eapply Permutation_Forall;
        [apply Permutation_sym, insert_row_perm|].
      constructor; auto. apply row_leb_total; auto.
Qed.

Lemma order_sorted (l : list Row) :
  StronglySorted DurableHistory.row_le (order_by_last_accessed l).
Proof.
  induction l as [|x l IH]; simpl; [constructor|].
  apply insert_row_sorted; auto.
Qed.

Lemma Permutation_filter {A} (f : A -> bool) (l l' : list A) :
  Permutation l l' -> Permutation (filter f l) (filter f l').
Proof.
  induction 1 as [|x l l' H IH|x y l|l l' l'' H1 IH1 H2 IH2]; simpl; auto.
  - destruct (f x); auto.
  - destruct (f x), (f y); auto using perm_swap.
  - eauto using perm_trans.
Qed.

Lemma filter_none {A} (f : A -> bool) (l : list A) :
  (forall x, In x l -> f x = false) -> filter f l = [].
Proof.
  induction l as [|x l IH]; simpl; auto.
  intros H. rewrite (H x) by auto. apply IH. auto.
Qed.

Lemma filter_all {A} (f : A -> bool) (l : list A) :
  (forall x, In x l -> f x = true) -> filter f l = l.
Proof.
  induction l as [|x l IH]; simpl; auto.
  intros H. rewrite (H x) by auto. f_equal. apply IH. auto.
Qed.

Lemma filter_length_le {A} (f : A -> bool) (l : list A) :
  (List.length (filter f l) <= List.length l)%nat.
Proof.
  induction l as [|x l IH]; simpl; auto.
  destruct (f x); simpl; lia.
Qed.

Lemma NoDup_app_disjoint {A} (l1 l2 : list A) (a : A) :
  NoDup (l1 ++ l2) -> In a l1 -> ~ In a l2.
Proof.
  induction l1 as [|x l1 IH]; simpl; [tauto|].
  intros H [-> | Hin] Hin2; inversion H; subst.
  - match goal with N : ~ In _ _ |- _ => apply N end.
    apply in_or_app; auto.
  - eapply IH; eauto.
Qed.

(** The test of the trigger's [WHERE id IN (...)]. *)
Lemma victim_test (r : Row) (victims : list Row) :
  existsb (Z.eqb (id r)) (map id victims) = true <-> In (id r) (map id victims).
Proof.
  rewrite existsb_exists. split.
  - intros [x [Hx E]]. apply Z.eqb_eq in E. congruence.
  - intros H. exists (id r). split; auto. apply Z.eqb_refl.
Qed.

(** After the trigger's [DELETE] at most [bound] rows are left, whatever
    was in the table. *)
Lemma trigger_delete_count (bound : Z) (db : Database) :
  0 <= bound -> bound < count db -> count (trigger_delete bound db) <= bound.
Proof.
  intros H0 Hlt. unfold trigger_delete, count in *. cbn [lru_cache with_rows].
  set (rows := lru_cache db) in *.
  set (k := Z.to_nat (Z.of_nat (List.length rows) - bound)).
  set (sorted := order_by_last_accessed rows).
  set (f := fun r => negb (existsb (Z.eqb (id r)) (map id (firstn k sorted)))).
  assert (Hp : Permutation rows sorted) by apply Permutation_sym, order_perm.
  rewrite (Permutation_length (Permutation_filter f _ _ Hp)).
  rewrite <- (firstn_skipn k sorted) at 1. rewrite filter_app, length_app.
  rewrite (filter_none f (firstn k sorted)).
  - pose proof (filter_length_le f (skipn k sorted)) as Hle.
    rewrite length_skipn in Hle.
    rewrite <- (Permutation_length Hp) in Hle. simpl. lia.
  - intros r Hr. unfold f.
    apply negb_false_iff, victim_test, in_map. exact Hr.
Qed.

(** When rowids are unique the [DELETE] removes exactly the rows at the
    old end of [ORDER BY last_accessed ASC] and keeps the others. *)
Lemma trigger_delete_survivors (bound : Z) (db : Database) :
  NoDup (map id (lru_cache db)) ->
  Permutation (lru_cache (trigger_delete bound db))
              (DurableHistory.most_recent bound (lru_cache db))
  /\ Permutation (lru_cache db)
       (DurableHistory.least_recent bound (lru_cache db)
        ++ lru_cache (trigger_delete bound db)).
Proof.
  intros Hd.
  unfold trigger_delete, DurableHistory.most_recent,
    DurableHistory.least_recent, count.
  cbn [lru_cache with_rows].
  set (rows := lru_cache db) in *.
  set (k := Z.to_nat (Z.of_nat (List.length rows) - bound)).
  set (sorted := order_by_last_accessed rows).
  set (f := fun r => negb (existsb (Z.eqb (id r)) (map id (firstn k sorted)))).
  assert (Hp : Permutation rows sorted) by apply Permutation_sym, order_perm.
  assert (Hds : NoDup (map id (firstn k sorted) ++ map id (skipn k sorted))).
  { rewrite <- map_app, firstn_skipn.
    eapply Permutation_NoDup; [apply Permutation_map; exact Hp | exact Hd]. }
  assert (Hkeep : filter f sorted = skipn k sorted).
  { rewrite <- (firstn_skipn k sorted) at 1. rewrite filter_app.
    rewrite (filter_none f (firstn k sorted)), (filter_all f (skipn k sorted)).
    - reflexivity.
    - intros r Hr. unfold f. apply negb_true_iff.
      destruct (existsb _ _) eqn:E; auto.
      apply victim_test in E.
      exfalso. eapply NoDup_app_disjoint; eauto. apply in_map; auto.
    - intros r Hr. unfold f.
      apply negb_false_iff, victim_test, in_map. exact Hr. }
  assert (Hs : Permutation (filter f rows) (skipn k sorted)).
  { rewrite <- Hkeep. apply Permutation_filter; auto. }
  split; auto.
  eapply perm_trans; [exact Hp|].
  rewrite <- (firstn_skipn k sorted) at 1.
  apply Permutation_app_head, Permutation_sym, Hs.
Qed.

Lemma insert_or_replace_rows (now : Z) (p l v : string) (db : Database) :
  insert_or_replace now p l v db
  = fire_trigger (with_rows db (DurableHistory.inserted now p l v db)).
Proof. reflexivity. Qed.

(** One [INSERT OR REPLACE] restores the bound of the trigger. *)
Lemma insert_or_replace_count (now : Z) (p l v : string) (db : Database)
      (bound : Z) :
  trigger_lru_eviction db = Some bound -> 0 <= bound ->
  count (insert_or_replace now p l v db) <= bound.
Proof.
  intros Ht H0. rewrite insert_or_replace_rows. unfold fire_trigger.
  cbn [trigger_lru_eviction with_rows]. rewrite Ht.
  destruct (count _ >? bound) eqn:E.
  - apply trigger_delete_count; auto. apply Z.gtb_lt in E. lia.
  - rewrite Z.gtb_ltb in E. apply Z.ltb_ge in E. exact E.
Qed.

Lemma insert_or_replace_trigger (now : Z) (p l v : string) (db : Database) :
  trigger_lru_eviction (insert_or_replace now p l v db)
  = trigger_lru_eviction db.
Proof.
  rewrite insert_or_replace_rows. unfold fire_trigger, trigger_delete.
  cbn [trigger_lru_eviction with_rows].
  destruct (trigger_lru_eviction db) as [bound|] eqn:E; cbn; auto.
  destruct (count _ >? bound); cbn; auto.
Qed.


(** *** Rowids *)

Lemma id_lt_next (rows : list Row) (r : Row) :
  In r rows -> id r < next_id rows.
Proof.
  unfold next_id. induction rows as [|x rows IH]; simpl; [tauto|].
  intros [-> | Hin]; [lia|]. specialize (IH Hin). lia.
Qed.

Lemma NoDup_map_filter {A B} (g : A -> B) (f : A -> bool) (l : list A) :
  NoDup (map g l) -> NoDup (map g (filter f l)).
Proof.
  induction l as [|x l IH]; simpl; auto.
  intros H; inversion H as [|? ? Hn Hd]; subst.
  destruct (f x); simpl; auto.
  constructor; auto.
  intros Hin. apply Hn. apply in_map_iff in Hin.
  destruct Hin as [y [E Hy]]. apply filter_In in Hy.
  apply in_map_iff. exists y; tauto.
Qed.

Lemma inserted_ids (now : Z) (p l v : string) (db : Database) :
  NoDup (map id (lru_cache db)) ->
  NoDup (map id (DurableHistory.inserted now p l v db)).
Proof.
  intros Hd. unfold DurableHistory.inserted. rewrite map_app. simpl.
  apply MemoryFacts.NoDup_snoc; [apply NoDup_map_filter; auto|].
  intros Hin. apply in_map_iff in Hin. destruct Hin as [r [E Hr]].
  apply filter_In in Hr. destruct Hr as [Hr _].
  apply id_lt_next in Hr. lia.
Qed.

Lemma insert_or_replace_ids (now : Z) (p l v : string) (db : Database) :
  NoDup (map id (lru_cache db)) ->
  NoDup (map id (lru_cache (insert_or_replace now p l v db))).
Proof.
  intros Hd. rewrite insert_or_replace_rows.
  pose proof (inserted_ids now p l v db Hd) as Hi.
  unfold fire_trigger, trigger_delete. cbn [trigger_lru_eviction with_rows].
  destruct (trigger_lru_eviction db) as [bound|]; cbn [lru_cache]; auto.
  destruct (count _ >? bound); cbn [lru_cache with_rows]; auto.
  apply NoDup_map_filter; auto.
Qed.

(** *** Sequences of [update] calls on the store *)

(** Whatever the engine answers, an [update] either leaves the stored
    data as it was or stores the outcome of the whole statement, trigger
    included; nothing in between is ever committed. *)
Lemma update_atomic (self : t) (now : Z) (fs : list (option string))
      (p l v : string) :
  connection (snd (update self now fs p l v))
  = {| committed := committed (connection self); pending := None |}
  \/ connection (snd (update self now fs p l v))
     = {| committed :=
            insert_or_replace now p l v (working (connection self));
          pending := None |}.
Proof.
  unfold update. rewrite guarded_connection. unfold update_body.
  destruct fs as [|[msg|] fs]; [right; reflexivity | left; reflexivity |].
  destruct fs as [|[msg'|] fs]; [right | left | right]; reflexivity.
Qed.

Lemma update_max_size (self : t) (now : Z) (fs : list (option string))
      (p l v : string) :
  max_size (snd (update self now fs p l v)) = max_size self.
Proof.
  unfold update. apply guarded_max_size.
Qed.

Lemma store_invariant_step (self : t) (u : DurableHistory.Call) :
  DurableHistory.store_invariant self ->
  DurableHistory.store_invariant (snd (DurableHistory.apply self u)).
Proof.
  intros [Hq Ht Hm Hb Hd]. unfold DurableHistory.apply.
  pose proof (update_max_size self (DurableHistory.at_time u)
                (DurableHistory.call_faults u) (DurableHistory.call_prompt u)
                (DurableHistory.call_llm_string u)
                (DurableHistory.call_value u)) as Em.
  destruct (update_atomic self (DurableHistory.at_time u)
              (DurableHistory.call_faults u) (DurableHistory.call_prompt u)
              (DurableHistory.call_llm_string u)
              (DurableHistory.call_value u)) as [Ec | Ec].
  - constructor; rewrite ?Ec, ?Em; cbn [committed pending]; auto.
  - assert (Ew : working (connection self) = committed (connection self))
      by (unfold working; rewrite Hq; reflexivity).
    rewrite Ew in Ec.
    constructor; rewrite ?Ec, ?Em; cbn [committed pending]; auto.
    + rewrite insert_or_replace_trigger; auto.
    + apply insert_or_replace_count; auto. lia.
    + apply insert_or_replace_ids; auto.
Qed.

Lemma store_invariant_fresh (m : Z) :
  DurableHistory.store_invariant (Scenario.fresh_store m).
Proof.
  constructor; cbn; auto; try lia. constructor.
Qed.

Lemma store_invariant_run (self : t) (calls : list DurableHistory.Call) :
  DurableHistory.store_invariant self ->
  DurableHistory.store_invariant (DurableHistory.run self calls).
Proof.
  revert self. induction calls as [|u calls IH]; simpl; auto.
  intros self H. apply IH, store_invariant_step, H.
Qed.

Lemma run_max_size (self : t) (calls : list DurableHistory.Call) :
  max_size (DurableHistory.run self calls) = max_size self.
Proof.
  revert self. induction calls as [|u calls IH]; simpl; auto.
  intros self. rewrite IH. apply update_max_size.
Qed.

(** On a store whose trigger carries the [max_size] of the cache object
    (a new file, or a file last set up with the same [max_size]), after
    every sequence of [update] calls, failed ones included, the table
    holds at most [max_size] rows; a completed insert leaves the rows at
    the recent end of [ORDER BY last_accessed ASC] and has deleted the
    ones at the old end. *)
Lemma matching_trigger_bounds_store (self : t)
      (calls : list DurableHistory.Call) :
  DurableHistory.store_invariant self ->
  let after := DurableHistory.run self calls in
  max_size after = max_size self
  /\ 0 <= count (committed (connection after)) <= max_size self.
Proof.
  intros H after.
  assert (Em : max_size after = max_size self) by apply run_max_size.
  destruct (store_invariant_run self calls H) as [_ _ _ Hb _].
  fold after in Hb. rewrite Em in Hb. unfold count in *. split; auto. lia.
Qed.

Lemma completed_insert_keeps_most_recent (now : Z) (p l v : string)
      (db : Database) (bound : Z) :
  trigger_lru_eviction db = Some bound ->
  NoDup (map id (lru_cache db)) ->
  bound < Z.of_nat (List.length (DurableHistory.inserted now p l v db)) ->
  Permutation (lru_cache (insert_or_replace now p l v db))
    (DurableHistory.most_recent bound (DurableHistory.inserted now p l v db))
  /\ Permutation (DurableHistory.inserted now p l v db)
       (DurableHistory.least_recent bound
          (DurableHistory.inserted now p l v db)
        ++ lru_cache (insert_or_replace now p l v db)).
Proof.
  intros Ht Hd Hlt. rewrite insert_or_replace_rows. unfold fire_trigger.
  cbn [trigger_lru_eviction with_rows]. rewrite Ht.
  assert (Hc : (count (with_rows db (DurableHistory.inserted now p l v db))
                >? bound) = true).
  { rewrite Z.gtb_ltb. apply Z.ltb_lt. unfold count, with_rows.
    cbn [lru_cache]. exact Hlt. }
  rewrite Hc.
  apply (trigger_delete_survivors bound
           {| lru_cache := DurableHistory.inserted now p l v db;
              trigger_lru_eviction := trigger_lru_eviction db |}).
  apply inserted_ids; auto.
Qed.


(** *** The row just written is not the trigger's victim *)

Lemma insert_row_snoc (r new : Row) (l : list Row) :
  row_leb r new = true -> insert_row r (l ++ [new]) = insert_row r l ++ [new].
Proof.
  intros H. induction l as [|x l IH]; simpl.
  - rewrite H. reflexivity.
  - destruct (row_leb r x); simpl; auto. rewrite IH. reflexivity.
Qed.

Lemma order_snoc (rows : list Row) (new : Row) :
  Forall (fun r => row_leb r new = true) rows ->
  order_by_last_accessed (rows ++ [new])
  = order_by_last_accessed rows ++ [new].
Proof.
  unfold order_by_last_accessed. induction 1 as [|r rows Hr Hrows IH]; simpl.
  - reflexivity.
  - rewrite IH. apply insert_row_snoc; auto.
Qed.

Lemma in_firstn_in {A} (n : nat) (l : list A) (x : A) :
  In x (firstn n l) -> In x l.
Proof.
  intros H. rewrite <- (firstn_skipn n l). apply in_or_app; auto.
Qed.

Lemma find_snoc_only {A} (f : A -> bool) (l : list A) (x : A) :
  (forall y, In y l -> f y = false) -> f x = true ->
  find f (l ++ [x]) = Some x.
Proof.
  intros Hl Hx. induction l as [|a l IH]; simpl.
  - rewrite Hx. reflexivity.
  - rewrite (Hl a) by (simpl; auto). apply IH. intros y Hy. apply Hl; simpl; auto.
Qed.

(** When no stored timestamp is later than the clock of the insert and
    the trigger keeps at least one row, the inserted row is at the recent
    end of the order, is not deleted, and is what a [SELECT] on its key
    finds. *)
Lemma insert_keeps_new_row (now : Z) (p l v : string) (db : Database) :
  match trigger_lru_eviction db with
  | Some bound => 1 <= bound
  | None => True
  end ->
  Forall (fun r => last_accessed r <= now) (lru_cache db) ->
  select_response p l (insert_or_replace now p l v db) = Some v.
Proof.
  intros Hb Hnow. rewrite insert_or_replace_rows.
  unfold DurableHistory.inserted.
  set (kept := filter (fun r => negb (same_key p l r)) (lru_cache db)).
  set (new := {| id := next_id (lru_cache db); prompt := p; llm_string := l;
                 response := v; created_at := now; last_accessed := now |}).
  assert (Hkey : same_key p l new = true)
    by (unfold same_key; simpl; rewrite !String.eqb_refl; reflexivity).
  assert (Hother : forall r, In r kept -> same_key p l r = false).
  { intros r Hr. apply filter_In in Hr. destruct Hr as [_ Hr].
    apply negb_true_iff in Hr. exact Hr. }
  assert (Hid : forall r, In r kept -> id r < id new).
  { intros r Hr. apply filter_In in Hr. destruct Hr as [Hr _].
    apply id_lt_next in Hr. exact Hr. }
  assert (Hfound : forall f : Row -> bool,
             f new = true ->
             option_map response
               (find (same_key p l) (filter f (kept ++ [new]))) = Some v).
  { intros f Hf. rewrite filter_app. simpl. rewrite Hf.
    rewrite find_snoc_only; auto.
    intros r Hr. apply filter_In in Hr. apply Hother; tauto. }
  unfold select_response, fire_trigger, trigger_delete.
  cbn [trigger_lru_eviction lru_cache with_rows].
  destruct (trigger_lru_eviction db) as [bound|];
    cbn [lru_cache with_rows];
    [| rewrite find_snoc_only; auto].
  destruct (count _ >? bound) eqn:Ec; cbn [lru_cache with_rows];
    [| rewrite find_snoc_only; auto].
  apply Hfound. apply negb_true_iff.
  destruct (existsb _ _) eqn:E; auto. exfalso.
  apply victim_test in E. apply in_map_iff in E. destruct E as [r [Er Hr]].
  unfold count in Hr. cbn [lru_cache with_rows] in Hr.
  rewrite order_snoc in Hr.
  - rewrite firstn_app in Hr.
    replace (Z.to_nat (Z.of_nat (List.length (kept ++ [new])) - bound)
             - List.length (order_by_last_accessed kept))%nat with 0%nat in Hr.
    + apply in_app_or in Hr. destruct Hr as [Hr | Hr]; [|simpl in Hr; contradiction].
      apply in_firstn_in in Hr.
      apply (Permutation_in _ (order_perm kept)) in Hr.
      apply Hid in Hr. lia.
    + rewrite (Permutation_length (order_perm kept)), length_app.
      cbn [List.length]. lia.
  - rewrite Forall_forall. intros r0 Hr0. apply row_leb_iff.
    pose proof (Hid r0 Hr0). rewrite Forall_forall in Hnow.
    apply filter_In in Hr0. destruct Hr0 as [Hr0 _].
    specialize (Hnow r0 Hr0). unfold new in *.
    cbn [last_accessed id] in *. lia.
Qed.


End DurableFacts.

(** ** Read after write on both backends *)

Module RoundTrip.

Import Failure.

(** C6 (as stated, it fails).  On an in-memory cache whose [ttl] is 0
    the entry written by [update] is in the cache, yet a [lookup] one
    microsecond later returns [None]; so does, with a [ttl] of one
    second, a [lookup] two seconds later (scenario B). *)
Lemma expired_entry_is_not_read_back :
  let written :=
    LRUInMemoryCache.update (LRUInMemoryCache.__init__ 3 (Some 0)) 0
      "k1" "llm" (VGeneration (Scenario.gen "a")) in
  fst written = Return tt
  /\ LRUInMemoryCache.contains ("k1", "llm")
       (LRUInMemoryCache._cache (snd written)) = true
  /\ fst (LRUInMemoryCache.lookup (snd written) 1 1 "k1" "llm") = None
  /\ LRUInMemoryCache.contains ("k1", "llm")
       (LRUInMemoryCache._cache Scenario.cache_B) = true
  /\ fst (LRUInMemoryCache.lookup Scenario.cache_B 2000000 2000000
            "k1" "llm") = None.
Proof. repeat split. Qed.

(** C6 (as stated, it fails on the durable backend too).  The trigger
    deletes the rows with the smallest [last_accessed], and the row just
    inserted is one of them when a stored row carries a later timestamp
    than the clock of the insert: on a store of capacity 1 that holds
    [k1] written at second 10, an [update] of [k2] at second 5 returns
    with no engine failure, and the [lookup] of [k2] that follows finds
    nothing; the table still holds [k1]. *)
Lemma backdated_row_is_not_read_back :
  let holding_k1 :=
    snd (LRUSQLiteCache.update (Scenario.fresh_store 1) 10 []
           "k1" "llm" "a") in
  let written := LRUSQLiteCache.update holding_k1 5 [] "k2" "llm" "b" in
  fst written = Return tt
  /\ fst (LRUSQLiteCache.lookup (snd written) 5 [] "k2" "llm") = Return None
  /\ map LRUSQLiteCache.prompt
       (LRUSQLiteCache.lru_cache
          (LRUSQLiteCache.committed
             (LRUSQLiteCache.connection (snd written))))
     = ["k1"].
Proof. repeat split. Qed.

(** C6 (amended).  In memory: when [update(k, v)] has returned and, if a
    [ttl] is set, no more than [ttl] seconds lie between the write and
    the read, the [lookup(k)] that follows returns a [Generation] with
    the text of [v].  Durable: when no engine call fails in either call,
    the trigger (if the file has one) keeps at least one row, and no
    stored [last_accessed] is later than the clock of the [update], the
    [lookup(k)] that follows returns [v]. *)
Theorem read_after_write :
  (forall (c : LRUInMemoryCache.t) (now now1 now2 : Z) (p l : string)
          (g : Generation),
      fst (LRUInMemoryCache.update c now p l (VGeneration g)) = Return tt ->
      match LRUInMemoryCache.ttl c with
      | None => True
      | Some T => now1 - now <= T * 1000000
      end ->
      fst (LRUInMemoryCache.lookup
             (snd (LRUInMemoryCache.update c now p l (VGeneration g)))
             now1 now2 p l)
      = Some {| text := text g; generation_info := None |})
  /\ (forall (self : LRUSQLiteCache.t) (now now' : Z)
             (fs fs' : list (option string)) (p l v : string),
        quiet fs -> quiet fs' ->
        LRUSQLiteCache.pending (LRUSQLiteCache.connection self) = None ->
        match LRUSQLiteCache.trigger_lru_eviction
                (LRUSQLiteCache.committed (LRUSQLiteCache.connection self))
        with
        | Some bound => 1 <= bound
        | None => True
        end ->
        Forall (fun r => LRUSQLiteCache.last_accessed r <= now)
               (LRUSQLiteCache.lru_cache
                  (LRUSQLiteCache.committed
                     (LRUSQLiteCache.connection self))) ->
        fst (LRUSQLiteCache.update self now fs p l v) = Return tt
        /\ fst (LRUSQLiteCache.lookup
                  (snd (LRUSQLiteCache.update self now fs p l v))
                  now' fs' p l)
           = Return (Some v)).
Proof.
  split.
  - intros. apply MemoryFacts.update_then_lookup; auto.
  - intros self now now' fs fs' p l v Hq Hq' Hp Hb Hnow.
    destruct (DurableFacts.update_quiet self now fs p l v Hq) as [Hr Ec].
    split; [exact Hr|].
    apply DurableFacts.durable_update_then_lookup; auto.
    rewrite Ec. cbn [LRUSQLiteCache.committed].
    unfold LRUSQLiteCache.working. rewrite Hp.
    rewrite DurableFacts.insert_keeps_new_row; auto. discriminate.
Qed.

Lemma read_after_write_witness :
  fst (LRUInMemoryCache.lookup Scenario.cache_B 500000 500000 "k1" "llm")
  = Some (Scenario.gen "a")
  /\ fst (LRUSQLiteCache.lookup
            (snd (LRUSQLiteCache.update (Scenario.fresh_store 1) 1 []
                    "k1" "llm" "a")) 1 [] "k1" "llm")
     = Return (Some "a").
Proof.
  destruct read_after_write as [Hm Hd]. split.
  - apply (Hm (LRUInMemoryCache.__init__ 3 (Some 1)) 0 500000 500000
              "k1" "llm" (Scenario.gen "a")).
    + reflexivity.
    + simpl. lia.
  - apply (Hd (Scenario.fresh_store 1) 1 1 [] [] "k1" "llm" "a").
    + constructor.
    + constructor.
    + reflexivity.
    + simpl. lia.
    + constructor.
Defined.

End RoundTrip.

(** ** The manager *)

Module ManagerFacts.

Import CacheManager.

Lemma eqb_sqlite_false (type : string) :
  type <> "sqlite" -> String.eqb type "sqlite" = false.
Proof. intros H. apply String.eqb_neq. exact H. Qed.

(** *** Backend selection *)

(** C3 (as stated, it fails).  With the backend type ["redis"] the
    manager installs a working in-memory backend, not the disabled one:
    initialisation counts as a success, no error is kept, the only log
    line is the INFO line of a successful start, and a value written to
    the installed backend is found again. *)
Lemma unknown_type_installs_memory_backend :
  let cfg := Scenario.config_with_type "redis" 1000 in
  let started := _initialize cfg (no_failures 0) Scenario.process_start in
  llm_cache (snd started)
  = InMemory (LRUInMemoryCache.__init__ 1000 (Some 3600))
  /\ llm_cache (snd started) <> NoCache
  /\ _cache_initialized (fst started) = true
  /\ _last_error (fst started) = None
  /\ map fst (log (snd started)) = [INFO]
  /\ fst (LRUInMemoryCache.lookup
            (snd (LRUInMemoryCache.update
                    (LRUInMemoryCache.__init__ 1000 (Some 3600)) 0
                    "question" "llm" (VGeneration (Scenario.gen "answer"))))
            1 1 "question" "llm")
     = Some (Scenario.gen "answer").
Proof. repeat split. discriminate. Qed.

(** C3 (amended).  With caching enabled and any backend type other than
    ["sqlite"], [_initialize] installs a fresh in-memory backend built
    from [CACHE_MAX_SIZE] and [CACHE_TTL], marks the manager initialised
    after one attempt with no error kept, and logs exactly one INFO line,
    which names the configured type; the cache file is not touched. *)
Theorem non_sqlite_type_selects_memory_backend :
  forall (cfg : Config) (env : Environment) (p : Process),
    ENABLE_CACHE cfg = true ->
    CACHE_TYPE cfg <> "sqlite" ->
    let started := _initialize cfg env p in
    llm_cache (snd started)
    = InMemory (LRUInMemoryCache.__init__ (CACHE_MAX_SIZE cfg) (CACHE_TTL cfg))
    /\ _cache_initialized (fst started) = true
    /\ _init_attempts (fst started) = 1
    /\ _last_error (fst started) = None
    /\ cache_file (snd started) = cache_file p
    /\ log (snd started)
       = log p
         ++ [(INFO,
              ("成功初始化 " ++ CACHE_TYPE cfg ++ " 缓存，"
               ++ "最大容量: " ++ str_int (CACHE_MAX_SIZE cfg) ++ ", "
               ++ "TTL: " ++ str_optional_int (CACHE_TTL cfg))%string)].
Proof.
  intros cfg env p Hen Hty started. unfold started, _initialize, _init_cache.
  rewrite Hen, (eqb_sqlite_false _ Hty). cbn. repeat split.
Qed.

Lemma non_sqlite_type_selects_memory_backend_witness :
  llm_cache (snd (_initialize (Scenario.config_with_type "memory" 1000)
                              (no_failures 0) Scenario.process_start))
  = InMemory (LRUInMemoryCache.__init__ 1000 (Some 3600)).
Proof.
  apply (non_sqlite_type_selects_memory_backend
           (Scenario.config_with_type "memory" 1000) (no_failures 0)
           Scenario.process_start).
  - reflexivity.
  - discriminate.
Defined.

(** *** The health probe *)

Lemma memory_probe_raises (env : Environment) (c : LRUInMemoryCache.t) :
  exists e c', probe env (InMemory c) = (Raise e, InMemory c').
Proof.
  unfold probe, LRUInMemoryCache.update.
  destruct (LRUInMemoryCache.evict_while _ _ _) as [[[]|e] [d ev]];
    cbn; eauto.
Qed.

(** Whatever the in-memory backend holds, the probe's [update] is given
    a [str] where it reads [.text], so the health check never reports
    the in-memory backend healthy. *)
Lemma memory_health_check_unhealthy (cfg : Config) (env : Environment)
      (p : Process) (c : LRUInMemoryCache.t) :
  ENABLE_CACHE cfg = true -> CACHE_TYPE cfg <> "sqlite" ->
  llm_cache p = InMemory c ->
  exists h, fst (health_check cfg env p) = Return h /\ healthy h = false.
Proof.
  intros Hen Hty Hc. unfold health_check, health_check_body.
  rewrite Hen, (eqb_sqlite_false _ Hty), Hc. cbn [negb].
  destruct (memory_probe_raises env c) as [e [c' ->]].
  cbn. eauto.
Qed.

(** C4 (failing input).  The manager is started with the in-memory
    backend and [health_check] is called: it reports
    [healthy = False] with the message of the [AttributeError] that
    [update( *test_key, "test_value")] raises.  On a full cache
    ([max_size = 2], keys k1 and k2) the same call has first evicted k1,
    a real entry, and has counted one eviction; and an entry that a
    caller stored under the probe's own key ["health_check"], ["test"]
    is deleted by it. *)
Theorem memory_health_check_reports_unhealthy :
  let cfg := Scenario.config_with_type "memory" 2 in
  let started := snd (_initialize cfg (no_failures 0) Scenario.process_start) in
  let unhealthy :=
    {| healthy := false;
       health_message := "健康检查失败: 'str' object has no attribute 'text'";
       health_cache_type := "memory" |} in
  llm_cache started = InMemory (LRUInMemoryCache.__init__ 2 (Some 3600))
  /\ fst (health_check cfg (no_failures 5000000) started) = Return unhealthy
  /\ fst (health_check cfg (no_failures 5000000) Scenario.process_full)
     = Return unhealthy
  /\ (exists c,
        llm_cache (snd (health_check cfg (no_failures 5000000) Scenario.process_full))
        = InMemory c
        /\ LRUInMemoryCache.keys (LRUInMemoryCache._cache c) = [("k2", "llm")]
        /\ LRUInMemoryCache.evictions (LRUInMemoryCache._stats c) = 1)
  /\ (exists c,
        llm_cache
          (snd (health_check cfg (no_failures 5000000)
                  (set_llm_cache Scenario.process_start
                     (InMemory
                        (snd (LRUInMemoryCache.update
                                (LRUInMemoryCache.__init__ 2 None) 0
                                "health_check" "test"
                                (VGeneration (Scenario.gen "a"))))))))
        = InMemory c
        /\ LRUInMemoryCache._cache c = []).
Proof.
  cbv zeta. split; [reflexivity|]. split; [reflexivity|].
  split; [reflexivity|]. split; eexists; repeat split.
Qed.

(** *** [clear_cache] *)

(** C9. [clear_cache] always returns a dict with [success], [message]
    and [cache_type = Config.CACHE_TYPE], whatever backend is installed
    and whatever the file system and the storage engine answer.  With
    type ["sqlite"] it deletes the cache file when there is one
    ([success] is true and the file is gone), reports a missing file or
    a failed deletion with [success] false, and leaves the installed
    backend alone.  With any other type and the in-memory backend
    installed it calls the backend's [clear] and reports success; with
    no backend installed it reports failure. *)
Theorem clear_cache_never_raises :
  forall (cfg : Config) (env : Environment) (p : Process),
    (exists r, fst (clear_cache cfg env p) = Return r
               /\ cache_type r = CACHE_TYPE cfg)
    /\ (CACHE_TYPE cfg = "sqlite" ->
        llm_cache (snd (clear_cache cfg env p)) = llm_cache p
        /\ (cache_file p <> None -> unlink_error env = None ->
            fst (clear_cache cfg env p)
            = Return {| success := true; message := "SQLite缓存已清空";
                        cache_type := "sqlite" |}
            /\ cache_file (snd (clear_cache cfg env p)) = None)
        /\ (cache_file p = None ->
            fst (clear_cache cfg env p)
            = Return {| success := false; message := "SQLite缓存文件不存在";
                        cache_type := "sqlite" |}
            /\ cache_file (snd (clear_cache cfg env p)) = None)
        /\ (forall msg,
              cache_file p <> None -> unlink_error env = Some msg ->
              fst (clear_cache cfg env p)
              = Return {| success := false;
                          message := ("清空缓存失败: " ++ msg)%string;
                          cache_type := "sqlite" |}
              /\ cache_file (snd (clear_cache cfg env p)) = cache_file p))
    /\ (CACHE_TYPE cfg <> "sqlite" ->
        cache_file (snd (clear_cache cfg env p)) = cache_file p
        /\ (forall c,
              llm_cache p = InMemory c ->
              fst (clear_cache cfg env p)
              = Return {| success := true; message := "内存缓存已清空";
                          cache_type := CACHE_TYPE cfg |}
              /\ llm_cache (snd (clear_cache cfg env p))
                 = InMemory (LRUInMemoryCache.clear c))
        /\ (llm_cache p = NoCache ->
            fst (clear_cache cfg env p)
            = Return {| success := false;
                        message := "未知缓存类型或缓存未初始化";
                        cache_type := CACHE_TYPE cfg |}
            /\ llm_cache (snd (clear_cache cfg env p)) = NoCache)).
Proof.
  intros cfg env p. split; [|split].
  - unfold clear_cache, clear_cache_body.
    destruct (String.eqb (CACHE_TYPE cfg) "sqlite").
    + destruct (cache_file p); [destruct (unlink_error env)|];
        cbn; eauto.
    + destruct (llm_cache p) as [|c|c]; cbn; eauto.
      destruct (LRUSQLiteCache.clear c (engine_faults env)) as [[[]|e] c'];
        cbn; eauto.
  - intros Hty. unfold clear_cache, clear_cache_body.
    rewrite Hty. cbn [String.eqb Ascii.eqb Bool.eqb].
    destruct (cache_file p) as [db|] eqn:Ef.
    + destruct (unlink_error env) as [msg|] eqn:Eu; cbn.
      * repeat split; try congruence.
      * repeat split; try congruence.
    + cbn. repeat split; try congruence.
  - intros Hty. unfold clear_cache, clear_cache_body.
    rewrite (eqb_sqlite_false _ Hty).
    destruct (llm_cache p) as [|c|c] eqn:Ec.
    + cbn. repeat split; try congruence.
    + cbn. repeat split; try congruence.
    + destruct (LRUSQLiteCache.clear c (engine_faults env)) as [[[]|e] c'];
        cbn; repeat split; try congruence.
Qed.

Lemma clear_cache_never_raises_witness :
  fst (clear_cache (Scenario.config_with_type "memory" 2) (no_failures 0)
                   Scenario.process_full)
  = Return {| success := true; message := "内存缓存已清空";
              cache_type := "memory" |}.
Proof.
  destruct (clear_cache_never_raises (Scenario.config_with_type "memory" 2)
              (no_failures 0) Scenario.process_full) as (_ & _ & Hm).
  destruct (Hm ltac:(discriminate)) as (_ & Hc & _).
  destruct (Hc Scenario.cache_full eq_refl) as [Hr _]. exact Hr.
Defined.


End ManagerFacts.

(** ** More on the in-memory backend *)

Module MemoryExtras.

Import LRUInMemoryCache MemoryFacts.

(** *** Dict primitives, continued *)

Lemma setitem_last (k : Key) (e e' : Entry) (d : OrderedDict) :
  contains k d = false -> setitem k e' (d ++ [(k, e)]) = d ++ [(k, e')].
Proof.
  induction d as [|[k0 e0] d IH]; simpl.
  - rewrite key_eqb_refl. reflexivity.
  - destruct (key_eqb k k0); simpl; [discriminate|].
    intros H. rewrite IH; auto.
Qed.

Lemma move_then_set (k : Key) (e e' : Entry) (d : OrderedDict) :
  NoDup (keys d) -> getitem k d = Some e ->
  setitem k e' (move_to_end k d) = delitem k d ++ [(k, e')].
Proof.
  intros Hd Hg. unfold move_to_end. rewrite Hg.
  apply setitem_last, contains_delitem, Hd.
Qed.

Lemma keys_delitem_incl (k x : Key) (d : OrderedDict) :
  In x (keys (delitem k d)) -> In x (keys d).
Proof.
  unfold keys. rewrite !in_map_iff. intros [p [E Hp]].
  exists p. split; auto. eapply delitem_incl; eauto.
Qed.

Lemma keys_setitem_incl (k x : Key) (e : Entry) (d : OrderedDict) :
  In x (keys (setitem k e d)) -> x = k \/ In x (keys d).
Proof.
  induction d as [|[k0 e0] d IH]; simpl.
  - intros [<- | []]; auto.
  - destruct (key_eqb k k0); simpl; intros [<- | H]; auto.
    destruct (IH H); auto.
Qed.

Lemma length_setitem_present (k : Key) (e : Entry) (d : OrderedDict) :
  contains k d = true -> List.length (setitem k e d) = List.length d.
Proof.
  induction d as [|[k0 e0] d IH]; simpl; [discriminate|].
  destruct (key_eqb k k0); simpl; auto.
Qed.

Lemma getitem_In_keys (k : Key) (e : Entry) (d : OrderedDict) :
  getitem k d = Some e -> In k (keys d).
Proof.
  intros H. apply contains_In, contains_getitem. eauto.
Qed.

Lemma getitem_snoc_fresh (k : Key) (e : Entry) (d : OrderedDict) :
  contains k d = false -> getitem k (d ++ [(k, e)]) = Some e.
Proof.
  induction d as [|[k0 e0] d IH]; simpl.
  - rewrite key_eqb_refl. reflexivity.
  - destruct (key_eqb k k0); simpl; [discriminate | auto].
Qed.

Lemma contains_app (k : Key) (d d' : OrderedDict) :
  contains k (d ++ d') = contains k d || contains k d'.
Proof. unfold contains. apply existsb_app. Qed.

Lemma keys_skipn_NoDup (n : nat) (d : OrderedDict) :
  NoDup (keys d) -> NoDup (keys (skipn n d)).
Proof.
  intros H. unfold keys in *.
  rewrite <- (firstn_skipn n d), map_app in H.
  eapply NoDup_app_remove_l; eauto.
Qed.

(** *** How many entries a loop evicts *)

Lemma evictions_above (m : Z) (d : OrderedDict) :
  0 <= m ->
  List.length (History.evictions_of (fun x => x >? m) d)
  = Z.to_nat (len d - m).
Proof.
  intros Hm. induction d as [|p rest IH]; cbn [History.evictions_of].
  - change (len []) with 0.
    replace (0 >? m) with false
      by (symmetry; rewrite Z.gtb_ltb; apply Z.ltb_ge; lia).
    cbn [List.length]. lia.
  - destruct (len (p :: rest) >? m) eqn:E.
    + cbn [List.length]. rewrite IH. apply Z.gtb_lt in E.
      unfold len in *. cbn [List.length] in *. lia.
    + rewrite Z.gtb_ltb in E. apply Z.ltb_ge in E.
      cbn [List.length]. lia.
Qed.

Lemma evictions_from (m : Z) (d : OrderedDict) :
  1 <= m ->
  List.length (History.evictions_of (fun x => x >=? m) d)
  = Z.to_nat (len d - m + 1).
Proof.
  intros Hm. induction d as [|p rest IH]; cbn [History.evictions_of].
  - change (len []) with 0.
    replace (0 >=? m) with false
      by (symmetry; rewrite Z.geb_leb; apply Z.leb_gt; lia).
    cbn [List.length]. lia.
  - destruct (len (p :: rest) >=? m) eqn:E.
    + cbn [List.length]. rewrite IH. rewrite Z.geb_leb in E.
      apply Z.leb_le in E.
      unfold len in *. cbn [List.length] in *. lia.
    + rewrite Z.geb_leb in E. apply Z.leb_gt in E.
      cbn [List.length]. lia.
Qed.

(** *** [lookup] *)

Lemma lookup_hit (c : t) (now_check now_touch : Z) (p l : string)
      (e : Entry) :
  NoDup (keys (_cache c)) ->
  getitem (_generate_key p l) (_cache c) = Some e ->
  _is_expired c now_check e = false ->
  lookup c now_check now_touch p l
  = (Some {| text := response e; generation_info := None |},
     with_cache c
       (delitem (_generate_key p l) (_cache c)
        ++ [(_generate_key p l,
             {| response := response e; created_at := created_at e;
                last_accessed := now_touch |})])
       (bump_hits (_stats c))).
Proof.
  intros Hd Hg Hexp. unfold lookup. rewrite Hg, Hexp.
  rewrite (move_then_set _ e); auto.
Qed.

(** X1. A lookup that finds its key unexpired returns a [Generation] with
    the stored text, adds one to [hits] and to no other counter, and
    moves the entry to the most-recently-used end with [last_accessed]
    set to the clock, [created_at] and the text kept; the other entries
    keep their order and the number of entries is the same. *)
Theorem lookup_hit_refreshes :
  forall (c : t) (now_check now_touch : Z) (p l : string) (e : Entry),
    NoDup (keys (_cache c)) ->
    getitem (_generate_key p l) (_cache c) = Some e ->
    match ttl c with
    | None => True
    | Some T => now_check - last_accessed e <= T * 1000000
    end ->
    let k := _generate_key p l in
    let after := snd (lookup c now_check now_touch p l) in
    fst (lookup c now_check now_touch p l)
    = Some {| text := response e; generation_info := None |}
    /\ _cache after
       = delitem k (_cache c)
         ++ [(k, {| response := response e; created_at := created_at e;
                    last_accessed := now_touch |})]
    /\ len (_cache after) = len (_cache c)
    /\ hits (_stats after) = hits (_stats c) + 1
    /\ misses (_stats after) = misses (_stats c)
    /\ expired (_stats after) = expired (_stats c)
    /\ evictions (_stats after) = evictions (_stats c)
    /\ max_size after = max_size c.
Proof.
  intros c now_check now_touch p l e Hd Hg Hfresh k after.
  assert (Hexp : _is_expired c now_check e = false).
  { apply MemoryFacts.not_expired_within_ttl. exact Hfresh. }
  unfold after. rewrite (lookup_hit c now_check now_touch p l e Hd Hg Hexp).
  cbn [fst snd _cache _stats with_cache max_size].
  repeat split; auto.
  unfold len. rewrite length_app. cbn [List.length].
  assert (Hc : contains (_generate_key p l) (_cache c) = true)
    by (apply contains_getitem; eauto).
  pose proof (length_delitem _ _ Hc). unfold k. lia.
Qed.

Lemma lookup_hit_refreshes_witness :
  fst (lookup Scenario.cache_full 2500000 2500000 "k1" "llm")
  = Some (Scenario.gen "a")
  /\ keys (_cache (snd (lookup Scenario.cache_full 2500000 2500000
                          "k1" "llm")))
     = [("k2", "llm"); ("k1", "llm")].
Proof.
  pose proof (lookup_hit_refreshes Scenario.cache_full 2500000 2500000
                "k1" "llm"
                {| response := "a"; created_at := 1000000;
                   last_accessed := 1000000 |}) as H.
  cbv zeta in H.
  assert (Hd : NoDup (keys (_cache Scenario.cache_full))).
  { apply (History.inv_nodup Scenario.calls_A), invariant_run. }
  destruct (H Hd eq_refl I) as [H1 [H2 _]].
  split; [exact H1 | rewrite H2; reflexivity].
Defined.

Lemma lookup_adds_one (c : t) (now_check now_touch : Z) (p l : string) :
  hits (_stats (snd (lookup c now_check now_touch p l)))
  + misses (_stats (snd (lookup c now_check now_touch p l)))
  = hits (_stats c) + misses (_stats c) + 1.
Proof.
  unfold lookup. destruct (getitem _ (_cache c)) as [e|];
    [destruct (_is_expired c now_check e)|];
    cbn [snd _stats with_cache bump_misses bump_expired bump_hits
         hits misses]; lia.
Qed.

(** X2. Whatever the cache holds, one [lookup] adds exactly one to
    [hits + misses] ([hits] for a returned value, [misses] for [None]),
    never changes [evictions], [max_size] or [ttl], never adds a key and
    never makes the cache longer. *)
Theorem lookup_counts_once :
  forall (c : t) (now_check now_touch : Z) (p l : string),
    let result := fst (lookup c now_check now_touch p l) in
    let after := snd (lookup c now_check now_touch p l) in
    hits (_stats after) + misses (_stats after)
    = hits (_stats c) + misses (_stats c) + 1
    /\ (result = None <-> hits (_stats after) = hits (_stats c))
    /\ (result <> None <-> misses (_stats after) = misses (_stats c))
    /\ evictions (_stats after) = evictions (_stats c)
    /\ max_size after = max_size c
    /\ ttl after = ttl c
    /\ incl (keys (_cache after)) (keys (_cache c))
    /\ len (_cache after) <= len (_cache c).
Proof.
  intros c now_check now_touch p l. unfold lookup.
  destruct (getitem _ (_cache c)) as [e|] eqn:Hg.
  - assert (Hc : contains (_generate_key p l) (_cache c) = true)
      by (apply contains_getitem; eauto).
    destruct (_is_expired c now_check e);
      cbn [fst snd _cache _stats with_cache max_size ttl bump_misses
           bump_expired bump_hits hits misses evictions expired].
    + repeat split; try lia; try congruence; auto.
      * intros x Hx. eapply keys_delitem_incl; eauto.
      * pose proof (length_delitem _ _ Hc). unfold len. lia.
    + repeat split; try lia; try congruence; auto.
      * intros x Hx. apply keys_setitem_incl in Hx.
        destruct Hx as [-> | Hx]; [apply contains_In; auto|].
        unfold move_to_end in Hx. rewrite Hg in Hx.
        unfold keys in Hx. rewrite map_app in Hx. apply in_app_or in Hx.
        destruct Hx as [Hx | [<- | []]];
          [eapply keys_delitem_incl; eauto | apply contains_In; auto].
      * unfold len, move_to_end. rewrite Hg.
        rewrite length_setitem_present.
        -- rewrite length_app. cbn [List.length].
           pose proof (length_delitem _ _ Hc). lia.
        -- rewrite contains_app. simpl. rewrite key_eqb_refl.
           apply orb_true_r.
  - cbn [fst snd _cache _stats with_cache max_size ttl bump_misses
         hits misses evictions expired].
    repeat split; try lia; try congruence; auto using incl_refl.
Qed.

(** *** Sessions *)

Lemma update_well_formed (c : t) (now : Z) (p l : string) (g : Generation) :
  Session.well_formed c ->
  fst (update c now p l (VGeneration g)) = Return tt
  /\ Session.well_formed (snd (update c now p l (VGeneration g)))
  /\ hits (_stats (snd (update c now p l (VGeneration g)))) = hits (_stats c)
  /\ misses (_stats (snd (update c now p l (VGeneration g))))
     = misses (_stats c).
Proof.
  intros [Hd Hm Hb Hh He Hx].
  destruct (update_returns c now p l g Hm Hd) as [E Hlt]. cbv zeta in E, Hlt.
  rewrite E. cbn [fst snd].
  set (k := _generate_key p l) in *.
  set (n := List.length _) in *.
  split; [reflexivity|]. split; [|split; reflexivity].
  constructor;
    cbn [_cache _stats with_cache max_size set_evictions hits misses
         evictions expired]; auto; try lia.
  - unfold keys. rewrite map_app. simpl. apply NoDup_snoc.
    + apply keys_skipn_NoDup, loop_entry_NoDup, Hd.
    + intros Hin. apply in_map_iff in Hin. destruct Hin as [q [Eq Hq]].
      apply (survivors_not_key c k n q Hd Hq Eq).
  - unfold len in *. rewrite length_app. simpl. lia.
Qed.

Lemma lookup_well_formed (c : t) (now_check now_touch : Z) (p l : string) :
  Session.well_formed c ->
  Session.well_formed (snd (lookup c now_check now_touch p l)).
Proof.
  intros [Hd Hm Hb Hh He Hx]. unfold lookup.
  destruct (getitem _ (_cache c)) as [e|] eqn:Hg.
  - assert (Hc : contains (_generate_key p l) (_cache c) = true)
      by (apply contains_getitem; eauto).
    pose proof (length_delitem _ _ Hc) as Hl.
    destruct (_is_expired c now_check e).
    + constructor;
        cbn [snd _cache _stats with_cache max_size bump_misses bump_expired
             hits misses evictions expired]; auto; try lia.
      * apply delitem_NoDup, Hd.
      * unfold len in *. lia.
    + rewrite (move_then_set _ e); auto.
      constructor;
        cbn [snd _cache _stats with_cache max_size bump_hits
             hits misses evictions expired]; auto; try lia.
      * unfold keys. rewrite map_app. simpl. apply NoDup_snoc.
        -- apply delitem_NoDup, Hd.
        -- apply contains_false_In, contains_delitem, Hd.
      * unfold len in *. rewrite length_app. simpl. lia.
  - constructor;
      cbn [snd _cache _stats with_cache max_size bump_misses
           hits misses evictions expired]; auto; lia.
Qed.

Lemma resize_shape (c : t) (n : Z) :
  resize c n
  = (Return tt,
     {| _cache := skipn (Z.to_nat (len (_cache c) - Z.max n 1)) (_cache c);
        max_size := Z.max n 1;
        ttl := ttl c;
        _stats := set_evictions (_stats c)
                    (evictions (_stats c)
                     + Z.of_nat (Z.to_nat (len (_cache c) - Z.max n 1))) |}).
Proof.
  assert (H0 : (fun x => x >? Z.max n 1) 0 = false)
    by (cbv beta; rewrite Z.gtb_ltb; apply Z.ltb_ge; lia).
  destruct (evict_while_spec _ (_cache c) (evictions (_stats c)) H0)
    as [E _].
  unfold resize. rewrite E. rewrite evictions_above by lia. reflexivity.
Qed.

Lemma resize_well_formed (c : t) (n : Z) :
  Session.well_formed c -> Session.well_formed (snd (resize c n)).
Proof.
  intros [Hd Hm Hb Hh He Hx]. rewrite resize_shape. cbn [snd].
  constructor;
    cbn [_cache _stats max_size set_evictions hits misses evictions expired];
    auto; try lia.
  - apply keys_skipn_NoDup, Hd.
  - unfold len. rewrite length_skipn. unfold len in *. lia.
Qed.

Lemma step_well_formed (c : t) (o : Session.Op) :
  Session.well_formed c ->
  fst (Session.step c o) = Return tt
  /\ Session.well_formed (snd (Session.step c o))
  /\ hits (_stats (snd (Session.step c o)))
     + misses (_stats (snd (Session.step c o)))
     = Session.tally (hits (_stats c) + misses (_stats c)) o.
Proof.
  intros Hwf. destruct o as [now p l g|now_check now_touch p l|n|];
    cbn [Session.step Session.tally fst snd].
  - destruct (update_well_formed c now p l g Hwf) as (H1 & H2 & H3 & H4).
    split; [exact H1|]. split; [exact H2|]. lia.
  - split; [reflexivity|]. split; [apply lookup_well_formed; auto|].
    apply lookup_adds_one.
  - rewrite resize_shape. cbn [fst]. split; [reflexivity|].
    split; [rewrite <- resize_shape; apply resize_well_formed; auto|].
    reflexivity.
  - split; [reflexivity|]. destruct Hwf as [Hd Hm Hb Hh He Hx].
    split; [|reflexivity].
    constructor; cbn; auto; try lia. constructor.
Qed.

Lemma run_well_formed (ops : list Session.Op) (c : t) (n : Z) :
  Session.well_formed c ->
  hits (_stats c) + misses (_stats c) = n ->
  fst (Session.run c ops) = Return tt
  /\ Session.well_formed (snd (Session.run c ops))
  /\ hits (_stats (snd (Session.run c ops)))
     + misses (_stats (snd (Session.run c ops)))
     = fold_left Session.tally ops n.
Proof.
  revert c n. induction ops as [|o ops IH]; intros c n Hwf Hn.
  - simpl. auto.
  - destruct (step_well_formed c o Hwf) as (H1 & H2 & H3).
    cbn [Session.run fold_left].
    destruct (Session.step c o) as [[[]|e] c'] eqn:E;
      cbn [fst snd] in *; [|discriminate].
    apply IH; auto. rewrite H3, Hn. reflexivity.
Qed.

Lemma init_well_formed (m : Z) (lifetime : option Z) :
  Session.well_formed (__init__ m lifetime).
Proof.
  constructor; cbn; try lia. constructor.
Qed.

(** X3. In every session of [update] (with a [Generation]), [lookup],
    [resize] and [clear] calls on a new cache no call raises, and
    afterwards the dict has one entry per key, [max_size] is at least 1,
    the number of entries is at most [max_size], the counters are not
    negative with [expired] at most [misses], and [hits + misses] is the
    number of lookups made since the last [clear]. *)
Theorem session_keeps_cache_well_formed :
  forall (m : Z) (lifetime : option Z) (ops : list Session.Op),
    let c := snd (Session.run (__init__ m lifetime) ops) in
    fst (Session.run (__init__ m lifetime) ops) = Return tt
    /\ NoDup (keys (_cache c))
    /\ 1 <= max_size c
    /\ 0 <= len (_cache c) <= max_size c
    /\ 0 <= hits (_stats c)
    /\ 0 <= evictions (_stats c)
    /\ 0 <= expired (_stats c) <= misses (_stats c)
    /\ hits (_stats c) + misses (_stats c) = Session.lookups_since_clear ops.
Proof.
  intros m lifetime ops c.
  destruct (run_well_formed ops (__init__ m lifetime) 0
              (init_well_formed m lifetime) eq_refl)
    as (H1 & [Hd Hm Hb Hh He Hx] & H3).
  fold c in Hd, Hm, Hb, Hh, He, Hx, H3.
  repeat split; auto; try lia. unfold len. lia.
Qed.

(** *** A hit protects the entry from the next eviction *)

(** X4. In a full cache of at least two entries, after a hit on [k] an
    [update] with a key that is not in the cache evicts exactly one
    entry, and it is not [k]: the victim is the first of the other
    entries, [k] keeps its refreshed entry and sits just before the new
    key at the recent end. *)
Theorem hit_protects_from_next_eviction :
  forall (c : t) (now_check now_touch now : Z) (p l p' l' : string)
         (e : Entry) (g : Generation),
    NoDup (keys (_cache c)) ->
    len (_cache c) = max_size c ->
    2 <= len (_cache c) ->
    getitem (_generate_key p l) (_cache c) = Some e ->
    match ttl c with
    | None => True
    | Some T => now_check - last_accessed e <= T * 1000000
    end ->
    contains (_generate_key p' l') (_cache c) = false ->
    let k := _generate_key p l in
    let touched := snd (lookup c now_check now_touch p l) in
    let after := snd (update touched now p' l' (VGeneration g)) in
    fst (update touched now p' l' (VGeneration g)) = Return tt
    /\ evictions (_stats after) = evictions (_stats c) + 1
    /\ keys (_cache after)
       = tl (keys (delitem k (_cache c))) ++ [k; _generate_key p' l']
    /\ getitem k (_cache after)
       = Some {| response := response e; created_at := created_at e;
                 last_accessed := now_touch |}.
Proof.
  intros c now_check now_touch now p l p' l' e g Hd Hfull H2 Hg Hfresh Hnew
         k touched after.
  assert (Hexp : _is_expired c now_check e = false).
  { apply MemoryFacts.not_expired_within_ttl. exact Hfresh. }
  assert (Hc : contains k (_cache c) = true)
    by (apply contains_getitem; eauto).
  pose proof (length_delitem _ _ Hc) as Hl.
  set (e' := {| response := response e; created_at := created_at e;
                last_accessed := now_touch |}).
  assert (Et : touched
               = with_cache c (delitem k (_cache c) ++ [(k, e')])
                            (bump_hits (_stats c)))
    by (unfold touched; rewrite (lookup_hit c _ _ p l e Hd Hg Hexp);
        reflexivity).
  assert (Hgone : contains k (delitem k (_cache c)) = false)
    by (apply contains_delitem, Hd).
  assert (Hd' : NoDup (keys (_cache touched))).
  { rewrite Et. cbn [_cache with_cache]. unfold keys. rewrite map_app.
    simpl. apply NoDup_snoc; [apply delitem_NoDup, Hd|].
    apply contains_false_In, Hgone. }
  assert (Hk' : contains (_generate_key p' l') (_cache touched) = false).
  { rewrite Et. cbn [_cache with_cache]. rewrite contains_app.
    apply orb_false_iff. split.
    - apply contains_false_In. intros Hin.
      apply keys_delitem_incl in Hin.
      apply contains_false_In in Hnew. auto.
    - simpl. rewrite orb_false_r. apply key_eqb_neq. intros E.
      rewrite E in Hnew. fold k in Hnew. congruence. }
  destruct (update_returns touched now p' l' g) as [E Hlt]; auto.
  { rewrite Et. cbn [max_size with_cache]. lia. }
  cbv zeta in E, Hlt.
  assert (Hle : History.loop_entry touched (_generate_key p' l')
                = _cache touched)
    by (unfold History.loop_entry; rewrite Hk'; reflexivity).
  rewrite Hle in E, Hlt.
  rewrite evictions_from in E, Hlt
    by (rewrite Et; cbn [max_size with_cache]; lia).
  assert (Hone : Z.to_nat (len (_cache touched) - max_size touched + 1)
                 = 1%nat).
  { rewrite Et. cbn [_cache max_size with_cache]. unfold len in *.
    rewrite length_app. cbn [List.length]. lia. }
  rewrite Hone in E, Hlt.
  unfold after. rewrite E. cbn [fst snd _cache _stats with_cache].
  assert (Hskip : skipn 1 (_cache touched)
                  = tl (delitem k (_cache c)) ++ [(k, e')]).
  { rewrite Et. cbn [_cache with_cache].
    destruct (delitem k (_cache c)) as [|q rest] eqn:Ed.
    - unfold len in *. simpl in Hl. lia.
    - reflexivity. }
  rewrite Hskip.
  split; [reflexivity|]. split.
  { rewrite Et. cbn. lia. }
  split.
  - unfold keys. rewrite !map_app. simpl. rewrite <- app_assoc.
    destruct (delitem k (_cache c)); reflexivity.
  - rewrite <- app_assoc. simpl.
    assert (Hrest : contains k (tl (delitem k (_cache c))) = false).
    { apply contains_false_In. intros Hin.
      apply contains_false_In in Hgone. apply Hgone.
      destruct (delitem k (_cache c)); simpl in *; auto. }
    clear - Hrest Hnew Hc.
    induction (tl (delitem k (_cache c))) as [|[k0 e0] rest IH]; simpl in *.
    + rewrite key_eqb_refl. reflexivity.
    + destruct (key_eqb k k0); simpl in *; [discriminate | auto].
Qed.


Lemma hit_protects_from_next_eviction_witness :
  keys (_cache (snd (update
                       (snd (lookup Scenario.cache_full 2500000 2500000
                                    "k1" "llm"))
                       3000000 "k3" "llm" (VGeneration (Scenario.gen "c")))))
  = [("k1", "llm"); ("k3", "llm")].
Proof.
  pose proof (hit_protects_from_next_eviction Scenario.cache_full
                2500000 2500000 3000000 "k1" "llm" "k3" "llm"
                {| response := "a"; created_at := 1000000;
                   last_accessed := 1000000 |} (Scenario.gen "c")) as H.
  cbv zeta in H.
  assert (Hd : NoDup (keys (_cache Scenario.cache_full))).
  { apply (History.inv_nodup Scenario.calls_A), invariant_run. }
  destruct (H Hd eq_refl ltac:(vm_compute; discriminate) eq_refl I eq_refl)
    as (_ & _ & Hk & _).
  rewrite Hk. reflexivity.
Defined.

(** *** [resize] below the current size *)

(** X5. [resize(n)] sets [max_size] to [max(n, 1)], keeps the
    [max(n, 1)] most recently used entries in their order, drops the
    others from the least recently used end, and adds the number of
    dropped entries to [evictions]; the other counters and [ttl] are
    untouched. *)
Theorem resize_keeps_most_recent :
  forall (c : t) (n : Z),
    let after := snd (resize c n) in
    let dropped := Z.max 0 (len (_cache c) - Z.max n 1) in
    fst (resize c n) = Return tt
    /\ max_size after = Z.max n 1
    /\ _cache c = firstn (Z.to_nat dropped) (_cache c) ++ _cache after
    /\ len (_cache after) = Z.min (len (_cache c)) (Z.max n 1)
    /\ evictions (_stats after) = evictions (_stats c) + dropped
    /\ hits (_stats after) = hits (_stats c)
    /\ misses (_stats after) = misses (_stats c)
    /\ expired (_stats after) = expired (_stats c)
    /\ ttl after = ttl c.
Proof.
  intros c n after dropped. unfold after. rewrite resize_shape.
  cbn [fst snd _cache _stats max_size ttl set_evictions hits misses
       evictions expired].
  assert (Ed : Z.to_nat dropped = Z.to_nat (len (_cache c) - Z.max n 1))
    by (unfold dropped; lia).
  repeat split; auto.
  - rewrite Ed. symmetry. apply firstn_skipn.
  - unfold len. rewrite length_skipn. unfold len. lia.
  - unfold dropped. lia.
Qed.

(** *** [update] with something that is not a [Generation] *)

(** X6. Given a [str] (or [None]) as [return_val], [update] raises
    [AttributeError], but only after it has deleted the entry of the key
    and run the eviction loop: the key is no longer in the cache, and the
    entries that are left are those a proper [update] would have kept
    beside the new one. *)
Theorem update_without_text_loses_entry :
  forall (c : t) (now : Z) (p l : string) (v : value) (g : Generation),
    NoDup (keys (_cache c)) ->
    1 <= max_size c ->
    (forall g', v <> VGeneration g') ->
    let k := _generate_key p l in
    let failed := update c now p l v in
    let proper := update c now p l (VGeneration g) in
    (exists msg, fst failed = Raise (AttributeError msg))
    /\ contains k (_cache (snd failed)) = false
    /\ _cache (snd proper)
       = _cache (snd failed)
         ++ [(k, {| response := text g; created_at := now;
                    last_accessed := now |})]
    /\ evictions (_stats (snd failed)) = evictions (_stats (snd proper)).
Proof.
  intros c now p l v g Hd Hm Hv k failed proper.
  destruct (update_returns c now p l g Hm Hd) as [E _]. cbv zeta in E.
  fold k in E.
  assert (H0 : (fun n => n >=? max_size c) 0 = false)
    by (cbv beta; rewrite Z.geb_leb; apply Z.leb_gt; lia).
  destruct (evict_while_spec _ (History.loop_entry c k)
              (evictions (_stats c)) H0) as [Hev _].
  set (n := List.length _) in *.
  assert (Ef : failed
               = (fst failed,
                  with_cache c (skipn n (History.loop_entry c k))
                    (set_evictions (_stats c)
                       (evictions (_stats c) + Z.of_nat n)))
               /\ exists msg, fst failed = Raise (AttributeError msg)).
  { unfold failed, update. fold k.
    change (if contains k (_cache c) then delitem k (_cache c)
            else _cache c) with (History.loop_entry c k).
    rewrite Hev. destruct v as [|s|g']; cbn; eauto.
    exfalso. apply (Hv g'). reflexivity. }
  destruct Ef as [Ef Hr]. split; [exact Hr|].
  rewrite Ef. unfold proper. rewrite E.
  cbn [fst snd _cache _stats with_cache set_evictions evictions].
  repeat split; auto.
  apply contains_false_In. intros Hin.
  pose proof (loop_entry_fresh c k Hd) as Hf.
  apply contains_false_In in Hf. apply Hf.
  unfold keys in *. apply in_map_iff in Hin. destruct Hin as [q [Eq Hq]].
  apply in_map_iff. exists q. split; auto. eapply in_skipn_in; eauto.
Qed.

Lemma update_without_text_loses_entry_witness :
  contains ("k1", "llm")
    (_cache (snd (update Scenario.cache_full 5000000 "k1" "llm"
                         (VStr "text only")))) = false.
Proof.
  apply (update_without_text_loses_entry Scenario.cache_full 5000000
           "k1" "llm" (VStr "text only") (Scenario.gen "z")).
  - apply (History.inv_nodup Scenario.calls_A), invariant_run.
  - vm_compute. discriminate.
  - discriminate.
Defined.

(** *** [get_stats] *)

Lemma min_default_None (l : list Z) : min_default l = None <-> l = [].
Proof.
  destruct l as [|x rest]; simpl; [tauto|].
  destruct (min_default rest); split; discriminate.
Qed.

Lemma max_default_None (l : list Z) : max_default l = None <-> l = [].
Proof.
  destruct l as [|x rest]; simpl; [tauto|].
  destruct (max_default rest); split; discriminate.
Qed.

Lemma min_default_le (l : list Z) (lo x : Z) :
  min_default l = Some lo -> In x l -> lo <= x.
Proof.
  revert lo. induction l as [|y rest IH]; simpl; [discriminate|].
  intros lo. destruct (min_default rest) as [m|] eqn:E.
  - intros H [<- | Hin]; inversion H; subst; [lia|].
    specialize (IH m eq_refl Hin). lia.
  - apply min_default_None in E. subst rest.
    intros H [<- | []]; inversion H; lia.
Qed.

Lemma max_default_ge (l : list Z) (hi x : Z) :
  max_default l = Some hi -> In x l -> x <= hi.
Proof.
  revert hi. induction l as [|y rest IH]; simpl; [discriminate|].
  intros hi. destruct (max_default rest) as [m|] eqn:E.
  - intros H [<- | Hin]; inversion H; subst; [lia|].
    specialize (IH m eq_refl Hin). lia.
  - apply max_default_None in E. subst rest.
    intros H [<- | []]; inversion H; lia.
Qed.

Lemma min_default_In (l : list Z) (lo : Z) :
  min_default l = Some lo -> In lo l.
Proof.
  revert lo. induction l as [|y rest IH]; simpl; [discriminate|].
  intros lo. destruct (min_default rest) as [m|] eqn:E.
  - intros H; inversion H; subst.
    destruct (Z.min_spec y m) as [[_ ->] | [_ ->]]; auto.
  - intros H; inversion H; auto.
Qed.

Lemma max_default_In (l : list Z) (hi : Z) :
  max_default l = Some hi -> In hi l.
Proof.
  revert hi. induction l as [|y rest IH]; simpl; [discriminate|].
  intros hi. destruct (max_default rest) as [m|] eqn:E.
  - intros H; inversion H; subst.
    destruct (Z.max_spec y m) as [[_ ->] | [_ ->]]; auto.
  - intros H; inversion H; auto.
Qed.

(** X7. After every session on a new cache [get_stats] reports a
    [current_size] between 0 and [max_size] (itself at least 1); its
    [hit_rate] is the int 0 exactly when no lookup was made since the
    last [clear], and otherwise is computed from [hits] and
    [hits + misses]; [oldest_entry] and [newest_entry] are both [None]
    exactly when the cache is empty, and otherwise are timestamps of
    entries with every entry's [last_accessed] between them. *)
Theorem get_stats_is_consistent :
  forall (m : Z) (lifetime : option Z) (ops : list Session.Op),
    let c := snd (Session.run (__init__ m lifetime) ops) in
    let st := get_stats c in
    0 <= stat_current_size st <= stat_max_size st
    /\ 1 <= stat_max_size st
    /\ (stat_hit_rate st = IntZero <-> Session.lookups_since_clear ops = 0)
    /\ (Session.lookups_since_clear ops <> 0 ->
        stat_hit_rate st
        = Rounded4 (stat_hits st) (Session.lookups_since_clear ops))
    /\ (stat_oldest_entry st = None <-> stat_current_size st = 0)
    /\ (stat_newest_entry st = None <-> stat_current_size st = 0)
    /\ (forall lo hi,
          stat_oldest_entry st = Some lo -> stat_newest_entry st = Some hi ->
          (exists p, In p (_cache c) /\ last_accessed (snd p) = lo)
          /\ (exists p, In p (_cache c) /\ last_accessed (snd p) = hi)
          /\ forall p, In p (_cache c) -> lo <= last_accessed (snd p) <= hi).
Proof.
  intros m lifetime ops c st.
  destruct (run_well_formed ops (__init__ m lifetime) 0
              (init_well_formed m lifetime) eq_refl)
    as (_ & [Hd Hm Hb' Hh He Hx] & Hn).
  fold c in Hd, Hm, Hb', Hh, He, Hx, Hn.
  change (fold_left Session.tally ops 0)
    with (Session.lookups_since_clear ops) in Hn.
  assert (Hb : 0 <= len (_cache c) <= max_size c) by (unfold len in *; lia).
  unfold st, get_stats.
  cbn [stat_current_size stat_max_size stat_hit_rate stat_hits
       stat_oldest_entry stat_newest_entry].
  rewrite Hn.
  assert (Hempty : forall A (l : list A), Z.of_nat (List.length l) = 0
                                           <-> l = []).
  { intros A [|x l]; simpl; split; try reflexivity; try discriminate; lia. }
  assert (Hmap : map (fun p => last_accessed (snd p)) (_cache c) = []
                 <-> _cache c = []).
  { destruct (_cache c); simpl; split; auto; discriminate. }
  split; [lia|]. split; [exact Hm|].
  split.
  { destruct (Session.lookups_since_clear ops >? 0) eqn:E.
    - apply Z.gtb_lt in E. split; [discriminate | lia].
    - rewrite Z.gtb_ltb in E. apply Z.ltb_ge in E. split; auto. lia. }
  split.
  { intros Hne.
    replace (Session.lookups_since_clear ops >? 0) with true; auto.
    symmetry. apply Z.gtb_lt. lia. }
  split; [rewrite min_default_None, Hmap; unfold len; symmetry; apply Hempty|].
  split; [rewrite max_default_None, Hmap; unfold len; symmetry; apply Hempty|].
  intros lo hi Hlo Hhi.
  split; [|split].
  - apply min_default_In in Hlo. apply in_map_iff in Hlo.
    destruct Hlo as [p [E Hp]]. eauto.
  - apply max_default_In in Hhi. apply in_map_iff in Hhi.
    destruct Hhi as [p [E Hp]]. eauto.
  - intros p Hp.
    assert (Hin : In (last_accessed (snd p))
                     (map (fun p => last_accessed (snd p)) (_cache c)))
      by (apply in_map_iff; eauto).
    split; [eapply min_default_le | eapply max_default_ge]; eauto.
Qed.

Lemma get_stats_is_consistent_witness :
  stat_hit_rate
    (get_stats (snd (Session.run (__init__ 2 None)
                       [Session.OpUpdate 1 "k1" "llm" (Scenario.gen "a");
                        Session.OpLookup 2 2 "k1" "llm";
                        Session.OpLookup 3 3 "k2" "llm"])))
  = Rounded4 1 2.
Proof.
  destruct (get_stats_is_consistent 2 None
              [Session.OpUpdate 1 "k1" "llm" (Scenario.gen "a");
               Session.OpLookup 2 2 "k1" "llm";
               Session.OpLookup 3 3 "k2" "llm"])
    as (_ & _ & _ & H & _).
  rewrite H; [reflexivity | vm_compute; discriminate].
Defined.


End MemoryExtras.

(** ** More on the durable backend *)

Module DurableExtras.

Import LRUSQLiteCache Failure DurableFacts.

(** *** What one call can do to the stored data *)

Lemma lookup_atomic (self : t) (now : Z) (fs : list (option string))
      (p l : string) :
  pending (connection self) = None ->
  connection (snd (lookup self now fs p l)) = connection self
  \/ connection (snd (lookup self now fs p l))
     = {| committed :=
            update_last_accessed now p l (committed (connection self));
          pending := None |}.
Proof.
  destruct self as [m [cm pd] out]. cbn [connection pending committed].
  intros ->. unfold lookup. rewrite guarded_connection. unfold lookup_body.
  destruct fs as [|[msg|] fs];
    cbv [with_conn bind execute_query engine_call faults conn connection
         working pending committed];
    try (left; reflexivity).
  - destruct (select_response p l cm) as [r|]; cbn; auto.
  - destruct (select_response p l cm) as [r|]; [|cbn; auto].
    destruct fs as [|[msg|] fs]; [cbn; auto | cbn; auto |].
    destruct fs as [|[msg'|] fs]; cbn; auto.
Qed.

Lemma lookup_quiet (self : t) (now : Z) (fs : list (option string))
      (p l : string) :
  quiet fs -> pending (connection self) = None ->
  fst (lookup self now fs p l)
  = Return (select_response p l (committed (connection self)))
  /\ connection (snd (lookup self now fs p l))
     = match select_response p l (committed (connection self)) with
       | Some _ =>
           {| committed :=
                update_last_accessed now p l (committed (connection self));
              pending := None |}
       | None => connection self
       end
  /\ stdout (snd (lookup self now fs p l)) = stdout self.
Proof.
  destruct self as [m [cm pd] out]. cbn [connection pending committed stdout].
  intros Hq ->.
  destruct (select_response p l cm) as [r|] eqn:Hsel.
  - destruct (lookup_quiet_hit {| max_size := m;
                                  connection := {| committed := cm;
                                                   pending := None |};
                                  stdout := out |} now fs p l r Hq Hsel)
      as [H1 H2].
    split; [exact H1|]. split; [exact H2|].
    unfold lookup, guarded, lookup_body.
    destruct fs as [|f0 fs];
      [|inversion Hq as [|? ? E0 H0]; subst; clear Hq; rename H0 into Hq];
      cbv [with_conn bind execute_query engine_call faults conn connection
           working pending committed];
      rewrite Hsel.
    + reflexivity.
    + destruct fs as [|f1 fs]; [reflexivity|].
      inversion Hq as [|? ? E1 H1']; subst.
      destruct fs as [|f2 fs]; [reflexivity|].
      inversion H1'; subst. reflexivity.
  - unfold lookup, guarded, lookup_body.
    destruct fs as [|f0 fs];
      [|inversion Hq as [|? ? E0 H0]; subst];
      cbv [with_conn bind execute_query engine_call faults conn connection
           working pending committed];
      rewrite Hsel; cbn; auto.
Qed.

Lemma clear_atomic (self : t) (fs : list (option string)) :
  connection (snd (clear self fs))
  = {| committed := committed (connection self); pending := None |}
  \/ connection (snd (clear self fs))
     = {| committed := delete_all (working (connection self));
          pending := None |}.
Proof.
  unfold clear. rewrite guarded_connection. unfold clear_body.
  destruct fs as [|[msg|] fs]; [right; reflexivity | left; reflexivity |].
  destruct fs as [|[msg'|] fs]; [right | left | right]; reflexivity.
Qed.

Lemma clear_quiet (self : t) (fs : list (option string)) :
  quiet fs ->
  connection (snd (clear self fs))
  = {| committed := delete_all (working (connection self)); pending := None |}
  /\ stdout (snd (clear self fs)) = stdout self.
Proof.
  intros H. unfold clear, guarded, clear_body.
  destruct fs as [|f0 fs]; [split; reflexivity|].
  inversion H as [|? ? E0 H0]; subst.
  destruct fs as [|f1 fs]; [split; reflexivity|].
  inversion H0; subst. split; reflexivity.
Qed.

Lemma get_stats_read_only (self : t) (fs : list (option string)) :
  pending (connection self) = None ->
  (exists d, fst (get_stats self fs) = Return d)
  /\ connection (snd (get_stats self fs)) = connection self
  /\ stdout (snd (get_stats self fs)) = stdout self
  /\ max_size (snd (get_stats self fs)) = max_size self.
Proof.
  destruct self as [m [cm pd] out]. cbn [connection pending committed].
  intros ->. unfold get_stats, get_stats_body.
  destruct fs as [|[msg|] fs]; [cbn; eauto | cbn; eauto |].
  destruct fs as [|[msg|] fs]; [cbn; eauto | cbn; eauto |].
  destruct fs as [|[msg|] fs]; cbn; eauto.
Qed.

Lemma get_stats_quiet (self : t) (fs : list (option string)) :
  quiet fs -> pending (connection self) = None ->
  fst (get_stats self fs)
  = Return
      {| stats_type := "lru_sqlite";
         stats_max_size := max_size self;
         status := "active";
         current_size := Some (count (committed (connection self)));
         oldest_entry :=
           Some (minimum (map last_accessed
                              (lru_cache (committed (connection self)))));
         newest_entry :=
           Some (maximum (map last_accessed
                              (lru_cache (committed (connection self)))));
         hit_rate := Some _calculate_hit_rate |}.
Proof.
  destruct self as [m [cm pd] out]. cbn [connection pending committed].
  intros H ->. unfold get_stats, get_stats_body.
  destruct fs as [|f0 fs]; [reflexivity|].
  inversion H as [|? ? E0 H0]; subst.
  destruct fs as [|f1 fs]; [reflexivity|].
  inversion H0 as [|? ? E1 H1]; subst.
  destruct fs as [|f2 fs]; [reflexivity|].
  inversion H1; subst. reflexivity.
Qed.

(** *** What the statements keep *)

Lemma touched_rows (now : Z) (p l : string) (db : Database) :
  lru_cache (update_last_accessed now p l db)
  = map (fun r => if same_key p l r then DurableSession.touch now r else r)
        (lru_cache db).
Proof. reflexivity. Qed.

Lemma touched_map {A} (g : Row -> A) (now : Z) (p l : string)
      (rows : list Row) :
  (forall r, g (DurableSession.touch now r) = g r) ->
  map g (map (fun r => if same_key p l r then DurableSession.touch now r
                       else r) rows)
  = map g rows.
Proof.
  intros Hg. rewrite map_map. apply map_ext. intros r.
  destruct (same_key p l r); auto.
Qed.

Lemma touched_find (now : Z) (p l p' l' : string) (rows : list Row) :
  option_map response
    (find (same_key p' l')
          (map (fun r => if same_key p l r then DurableSession.touch now r
                         else r) rows))
  = option_map response (find (same_key p' l') rows).
Proof.
  induction rows as [|r rows IH]; simpl; auto.
  destruct (same_key p l r); simpl;
    unfold same_key at 1; simpl; fold (same_key p' l' r);
    destruct (same_key p' l' r); auto.
Qed.

Lemma insert_or_replace_keys (now : Z) (p l v : string) (db : Database) :
  NoDup (map DurableSession.row_key (lru_cache db)) ->
  NoDup (map DurableSession.row_key
             (lru_cache (insert_or_replace now p l v db))).
Proof.
  intros Hd. rewrite insert_or_replace_rows.
  assert (Hi : NoDup (map DurableSession.row_key
                          (DurableHistory.inserted now p l v db))).
  { unfold DurableHistory.inserted. rewrite map_app. simpl.
    apply MemoryFacts.NoDup_snoc; [apply NoDup_map_filter; auto|].
    intros Hin. apply in_map_iff in Hin. destruct Hin as [r [E Hr]].
    apply filter_In in Hr. destruct Hr as [_ Hr].
    apply negb_true_iff in Hr. unfold same_key in Hr.
    unfold DurableSession.row_key in E. inversion E; subst.
    rewrite !String.eqb_refl in Hr. discriminate. }
  unfold fire_trigger, trigger_delete. cbn [trigger_lru_eviction with_rows].
  destruct (trigger_lru_eviction db) as [bound|]; cbn [lru_cache]; auto.
  destruct (count _ >? bound); cbn [lru_cache with_rows]; auto.
  apply NoDup_map_filter; auto.
Qed.

Lemma lookup_max_size (self : t) (now : Z) (fs : list (option string))
      (p l : string) :
  max_size (snd (lookup self now fs p l)) = max_size self.
Proof.
  unfold lookup. apply guarded_max_size.
Qed.

Lemma clear_max_size (self : t) (fs : list (option string)) :
  max_size (snd (clear self fs)) = max_size self.
Proof.
  unfold clear. apply guarded_max_size.
Qed.

(** *** Sessions *)

Lemma well_formed_update (self : t) (now : Z) (fs : list (option string))
      (p l v : string) :
  DurableSession.well_formed self ->
  DurableSession.well_formed (snd (update self now fs p l v)).
Proof.
  intros [Hq Ht Hm Hb Hi Hk].
  pose proof (update_max_size self now fs p l v) as Em.
  destruct (update_atomic self now fs p l v) as [Ec | Ec].
  - constructor; rewrite ?Ec, ?Em; cbn [committed pending]; auto.
  - assert (Ew : working (connection self) = committed (connection self))
      by (unfold working; rewrite Hq; reflexivity).
    rewrite Ew in Ec.
    constructor; rewrite ?Ec, ?Em; cbn [committed pending]; auto.
    + rewrite insert_or_replace_trigger; auto.
    + apply insert_or_replace_count; auto. lia.
    + apply insert_or_replace_ids; auto.
    + apply insert_or_replace_keys; auto.
Qed.

Lemma well_formed_lookup (self : t) (now : Z) (fs : list (option string))
      (p l : string) :
  DurableSession.well_formed self ->
  DurableSession.well_formed (snd (lookup self now fs p l)).
Proof.
  intros [Hq Ht Hm Hb Hi Hk].
  pose proof (lookup_max_size self now fs p l) as Em.
  destruct (lookup_atomic self now fs p l Hq) as [Ec | Ec].
  - constructor; rewrite ?Ec, ?Em; auto.
  - constructor; rewrite ?Ec, ?Em; cbn [committed pending]; auto.
    + unfold count in *. rewrite touched_rows, length_map. exact Hb.
    + rewrite touched_rows, touched_map; auto.
    + rewrite touched_rows, touched_map; auto.
Qed.

Lemma well_formed_clear (self : t) (fs : list (option string)) :
  DurableSession.well_formed self ->
  DurableSession.well_formed (snd (clear self fs)).
Proof.
  intros [Hq Ht Hm Hb Hi Hk].
  pose proof (clear_max_size self fs) as Em.
  destruct (clear_atomic self fs) as [Ec | Ec].
  - constructor; rewrite ?Ec, ?Em; cbn [committed pending]; auto.
  - assert (Ew : working (connection self) = committed (connection self))
      by (unfold working; rewrite Hq; reflexivity).
    rewrite Ew in Ec.
    constructor; rewrite ?Ec, ?Em;
      cbn [committed pending delete_all with_rows lru_cache
           trigger_lru_eviction map]; auto; try constructor.
    unfold count. cbn. lia.
Qed.

Lemma well_formed_get_stats (self : t) (fs : list (option string)) :
  DurableSession.well_formed self ->
  (exists d, fst (get_stats self fs) = Return d)
  /\ DurableSession.well_formed (snd (get_stats self fs)).
Proof.
  intros [Hq Ht Hm Hb Hi Hk].
  destruct (get_stats_read_only self fs Hq) as (Hr & Ec & _ & Em).
  split; [exact Hr|].
  constructor; rewrite ?Ec, ?Em; auto.
Qed.

Lemma snd_discard {A} (r : outcome A * t) :
  snd (DurableSession.discard r) = snd r.
Proof. destruct r as [[a|e] c]; reflexivity. Qed.

Lemma well_formed_step (self : t) (o : DurableSession.Op) :
  DurableSession.well_formed self ->
  DurableSession.well_formed (snd (DurableSession.step self o)).
Proof.
  intros Hwf. destruct o as [now fs p l v|now fs p l|fs|fs];
    cbn [DurableSession.step]; rewrite ?snd_discard.
  - apply well_formed_update; auto.
  - apply well_formed_lookup; auto.
  - apply well_formed_clear; auto.
  - apply well_formed_get_stats; auto.
Qed.

Lemma well_formed_run (ops : list DurableSession.Op) (self : t) :
  DurableSession.well_formed self ->
  DurableSession.well_formed (snd (DurableSession.run self ops)).
Proof.
  revert self. induction ops as [|o ops IH]; intros self Hwf.
  - exact Hwf.
  - pose proof (well_formed_step self o Hwf) as H.
    cbn [DurableSession.run].
    destruct (DurableSession.step self o) as [[[]|e] c'];
      cbn [fst snd] in *; auto.
Qed.





Lemma get_stats_max_size (self : t) (fs : list (option string)) :
  max_size (snd (get_stats self fs)) = max_size self.
Proof.
  unfold get_stats.
  destruct (get_stats_body _) as [[[[[n lo] hi] hr]|e] s]; [reflexivity|].
  destruct (is_sqlite_error e); reflexivity.
Qed.

Lemma session_max_size (c : t) (ops : list DurableSession.Op) :
  max_size (snd (DurableSession.run c ops)) = max_size c.
Proof.
  revert c. induction ops as [|o ops IH]; intros c; [reflexivity|].
  cbn [DurableSession.run].
  assert (Hs : max_size (snd (DurableSession.step c o)) = max_size c).
  { destruct o as [now fs p l v|now fs p l|fs|fs]; cbn [DurableSession.step].
    - apply update_max_size.
    - pose proof (lookup_max_size c now fs p l).
      destruct (lookup c now fs p l) as [[r|e] c']; auto.
    - apply clear_max_size.
    - pose proof (get_stats_max_size c fs).
      destruct (get_stats c fs) as [[r|e] c']; auto. }
  destruct (DurableSession.step c o) as [[[]|e] c']; cbn [snd] in *.
  - rewrite IH. exact Hs.
  - exact Hs.
Qed.

(** A constructor that comes back on a path without a file has built
    the same object whatever the engine answered on the way. *)
Lemma init_on_new_file (fs : list (option string)) (m : Z) (c : t) :
  fst (__init__ None None fs m) = Return c -> c = Scenario.fresh_store m.
Proof.
  unfold __init__.
  do 5 (destruct fs as [|[msg|] fs];
        [cbn; intros H; inversion H; reflexivity | cbn; discriminate |]).
  cbn; intros H; inversion H; reflexivity.
Qed.

Lemma fresh_store_well_formed (m : Z) :
  DurableSession.well_formed (Scenario.fresh_store m).
Proof.
  constructor; cbn; auto; try lia; constructor.
Qed.



(** *** [lookup] *)

Lemma untouched_when_absent (now : Z) (p l : string) (rows : list Row) :
  find (same_key p l) rows = None ->
  map (fun r => if same_key p l r then DurableSession.touch now r else r) rows
  = rows.
Proof.
  induction rows as [|r rows IH]; simpl; auto.
  destruct (same_key p l r); [discriminate|].
  intros H. rewrite IH; auto.
Qed.

(** X9. A [lookup], whatever the engine answers, never changes a stored
    response, a rowid, the number of rows or the trigger, and leaves no
    transaction open.  When no engine call fails it returns the response
    stored under the key ([None] when there is none) and sets
    [last_accessed] of that key's row to the clock, touching no other
    column and no other row. *)
Theorem durable_lookup_touches_only_timestamp :
  forall (self : t) (now : Z) (fs : list (option string)) (p l : string),
    pending (connection self) = None ->
    let before := committed (connection self) in
    let after := committed (connection (snd (lookup self now fs p l))) in
    (forall p' l', select_response p' l' after = select_response p' l' before)
    /\ map id (lru_cache after) = map id (lru_cache before)
    /\ map created_at (lru_cache after) = map created_at (lru_cache before)
    /\ count after = count before
    /\ trigger_lru_eviction after = trigger_lru_eviction before
    /\ pending (connection (snd (lookup self now fs p l))) = None
    /\ (quiet fs ->
        fst (lookup self now fs p l) = Return (select_response p l before)
        /\ lru_cache after
           = map (fun r => if same_key p l r
                           then DurableSession.touch now r else r)
                 (lru_cache before)).
Proof.
  intros self now fs p l Hq before after.
  assert (Hall : forall db,
             db = before \/ db = update_last_accessed now p l before ->
             (forall p' l', select_response p' l' db
                            = select_response p' l' before)
             /\ map id (lru_cache db) = map id (lru_cache before)
             /\ map created_at (lru_cache db)
                = map created_at (lru_cache before)
             /\ count db = count before
             /\ trigger_lru_eviction db = trigger_lru_eviction before).
  { intros db [-> | ->]; [repeat split; reflexivity|].
    unfold select_response, count. rewrite touched_rows.
    repeat split.
    - intros p' l'. apply touched_find.
    - apply touched_map; auto.
    - apply touched_map; auto.
    - rewrite length_map. reflexivity. }
  pose proof (lookup_atomic self now fs p l Hq) as Hc.
  assert (Hafter : after = before
                   \/ after = update_last_accessed now p l before).
  { unfold after. destruct Hc as [-> | ->]; auto. }
  destruct (Hall after Hafter) as (H1 & H2 & H3 & H4 & H5).
  repeat split; auto.
  - destruct Hc as [-> | ->]; auto.
  - destruct (lookup_quiet self now fs p l H Hq) as [Hr _]. exact Hr.
  - destruct (lookup_quiet self now fs p l H Hq) as (_ & Hc' & _).
    unfold after. rewrite Hc'. fold before.
    unfold select_response.
    destruct (find (same_key p l) (lru_cache before)) as [r|] eqn:Ef; simpl.
    + reflexivity.
    + rewrite untouched_when_absent; auto.
Qed.

Lemma durable_lookup_touches_only_timestamp_witness :
  fst (lookup (snd (update (Scenario.fresh_store 2) 1 [] "k1" "llm" "a"))
              9 [] "k1" "llm")
  = Return (Some "a").
Proof.
  destruct (durable_lookup_touches_only_timestamp
              (snd (update (Scenario.fresh_store 2) 1 [] "k1" "llm" "a"))
              9 [] "k1" "llm" eq_refl) as (_ & _ & _ & _ & _ & _ & H).
  destruct (H ltac:(constructor)) as [Hr _]. exact Hr.
Defined.

(** *** [clear] *)

(** X10. A [clear] that meets no engine failure leaves an empty table
    and keeps the trigger; every [lookup] after it returns [None]; and
    the next [update] writes the table's only row, which gets rowid 1
    again. *)
Theorem durable_clear_empties_store :
  forall (self : t) (fs : list (option string)),
    quiet fs ->
    pending (connection self) = None ->
    match trigger_lru_eviction (committed (connection self)) with
    | Some bound => 1 <= bound
    | None => True
    end ->
    let cleared := snd (clear self fs) in
    fst (clear self fs) = Return tt
    /\ lru_cache (committed (connection cleared)) = []
    /\ trigger_lru_eviction (committed (connection cleared))
       = trigger_lru_eviction (committed (connection self))
    /\ max_size cleared = max_size self
    /\ (forall now fs' p l,
          quiet fs' -> fst (lookup cleared now fs' p l) = Return None)
    /\ (forall now fs' p l v,
          quiet fs' ->
          lru_cache (committed (connection
                       (snd (update cleared now fs' p l v))))
          = [{| id := 1; prompt := p; llm_string := l; response := v;
                created_at := now; last_accessed := now |}]).
Proof.
  intros self fs Hq Hp Hb cleared.
  pose proof (durable_clear_returns self fs (quiet_print_succeeds fs Hq)) as Hr.
  destruct (clear_quiet self fs Hq) as [Ec _].
  assert (Ew : working (connection self) = committed (connection self))
    by (unfold working; rewrite Hp; reflexivity).
  rewrite Ew in Ec. fold cleared in Ec.
  split; [exact Hr|]. rewrite Ec. cbn [committed].
  split; [reflexivity|]. split; [reflexivity|].
  split; [apply clear_max_size|]. split.
  - intros now fs' p l Hq'.
    destruct (lookup_quiet cleared now fs' p l Hq') as [H1 _];
      [rewrite Ec; reflexivity|].
    rewrite H1, Ec. reflexivity.
  - intros now fs' p l v Hq'.
    destruct (update_quiet cleared now fs' p l v Hq') as [_ Eu].
    rewrite Eu, Ec. cbn [committed working pending].
    unfold insert_or_replace, fire_trigger.
    cbn [delete_all with_rows lru_cache trigger_lru_eviction filter app].
    destruct (trigger_lru_eviction (committed (connection self)))
      as [bound|]; [|reflexivity].
    replace (count _ >? bound) with false; [reflexivity|].
    symmetry. rewrite Z.gtb_ltb. apply Z.ltb_ge. unfold count. cbn. lia.
Qed.

Lemma durable_clear_empties_store_witness :
  map id (lru_cache (committed (connection
     (snd (update
             (snd (clear (DurableHistory.run (Scenario.fresh_store 2)
                                             Scenario.calls_C) []))
             5 [] "k3" "llm" "c")))))
  = [1].
Proof.
  destruct (durable_clear_empties_store
              (DurableHistory.run (Scenario.fresh_store 2) Scenario.calls_C)
              [] ltac:(constructor) eq_refl ltac:(vm_compute; discriminate))
    as (_ & _ & _ & _ & _ & H).
  rewrite (H 5 [] "k3" "llm" "c" ltac:(constructor)). reflexivity.
Defined.

(** *** [get_stats] *)

(** X11. After every session on a store created by the constructor,
    [get_stats] never changes the stored data, whatever the engine
    answers; when no engine call fails it reports [status = "active"],
    a [current_size] that is the number of rows and lies between 0 and
    [max_size], the smallest and the largest [last_accessed] of the
    table, and a [hit_rate] that is the constant of
    [_calculate_hit_rate] however many lookups hit. *)
Theorem durable_get_stats_reports_store :
  forall (fs0 fs : list (option string)) (m : Z) (c : t)
         (ops : list DurableSession.Op),
    fst (__init__ None None fs0 m) = Return c ->
    let self := snd (DurableSession.run c ops) in
    let table := lru_cache (committed (connection self)) in
    connection (snd (get_stats self fs)) = connection self
    /\ (exists d, fst (get_stats self fs) = Return d)
    /\ (quiet fs ->
        fst (get_stats self fs)
        = Return {| stats_type := "lru_sqlite";
                    stats_max_size := Z.max m 1;
                    status := "active";
                    current_size := Some (Z.of_nat (List.length table));
                    oldest_entry := Some (minimum (map last_accessed table));
                    newest_entry := Some (maximum (map last_accessed table));
                    hit_rate := Some 0 |}
        /\ 0 <= Z.of_nat (List.length table) <= Z.max m 1).
Proof.
  intros fs0 fs m c ops Hinit self table.
  apply init_on_new_file in Hinit. subst c.
  destruct (well_formed_run ops _ (fresh_store_well_formed m))
    as [Hq _ _ Hb _ _].
  fold self in Hq, Hb.
  assert (Em : max_size self = Z.max m 1)
    by (unfold self; rewrite session_max_size; reflexivity).
  rewrite Em in Hb. unfold count in Hb. fold table in Hb.
  destruct (get_stats_read_only self fs Hq) as (Hr & Hc & _).
  split; [exact Hc|]. split; [exact Hr|].
  intros Hquiet. rewrite (get_stats_quiet self fs Hquiet Hq), Em.
  split; [reflexivity | lia].
Qed.

Lemma durable_get_stats_reports_store_witness :
  exists d,
    fst (get_stats (snd (DurableSession.run (Scenario.fresh_store 1)
                           [DurableSession.OpUpdate 1 [] "k1" "llm" "a"]))
                   Scenario.disk_error)
    = Return d.
Proof.
  destruct (durable_get_stats_reports_store [] Scenario.disk_error 1
              (Scenario.fresh_store 1)
              [DurableSession.OpUpdate 1 [] "k1" "llm" "a"] eq_refl)
    as (_ & H & _).
  exact H.
Defined.

(** *** Opening an existing file *)

(** X12. When no engine call fails, the constructor on an existing file
    returns an object with [max_size = max(max_size, 1)] whose table is
    the table of the file, row for row, so that every [lookup] returns
    what the file holds under the key; the trigger of the file, if it
    has one, stays as it is whatever [max_size] is now, and only a file
    without a trigger gets one with the new bound. *)
Theorem reopening_keeps_rows_and_trigger :
  forall (db : Database) (fs : list (option string)) (m : Z),
    quiet fs ->
    exists c,
      __init__ (Some db) None fs m = (Return c, Some (committed (connection c)))
      /\ max_size c = Z.max m 1
      /\ pending (connection c) = None
      /\ lru_cache (committed (connection c)) = lru_cache db
      /\ trigger_lru_eviction (committed (connection c))
         = match trigger_lru_eviction db with
           | Some bound => Some bound
           | None => Some (Z.max m 1)
           end
      /\ forall now fs' p l,
           quiet fs' ->
           fst (lookup c now fs' p l) = Return (select_response p l db).
Proof.
  intros db fs m Hq.
  assert (E : __init__ (Some db) None fs m
              = (Return {| max_size := Z.max m 1;
                           connection :=
                             {| committed :=
                                  create_trigger_if_not_exists (Z.max m 1) db;
                                pending := None |};
                           stdout := [] |},
                 Some (create_trigger_if_not_exists (Z.max m 1) db))).
  { unfold __init__.
    do 5 (destruct fs as [|f fs];
          [reflexivity
          |inversion Hq as [|? ? Ef Hq']; subst; clear Hq; rename Hq' into Hq]).
    reflexivity. }
  eexists. split; [exact E|]. cbn [max_size connection committed pending].
  split; [reflexivity|]. split; [reflexivity|].
  assert (Hrows : lru_cache (create_trigger_if_not_exists (Z.max m 1) db)
                  = lru_cache db)
    by (unfold create_trigger_if_not_exists;
        destruct (trigger_lru_eviction db); reflexivity).
  split; [exact Hrows|]. split.
  - unfold create_trigger_if_not_exists.
    destruct (trigger_lru_eviction db) eqn:Et; cbn; auto.
  - intros now fs' p l Hq'.
    match goal with
    | |- fst (lookup ?c _ _ _ _) = _ =>
        destruct (lookup_quiet c now fs' p l Hq' eq_refl) as [H1 _]
    end.
    rewrite H1. cbn [connection committed].
    unfold select_response. rewrite Hrows. reflexivity.
Qed.

Lemma reopening_keeps_rows_and_trigger_witness :
  exists c,
    __init__ (Some Scenario.file_of_earlier_run) None [] 1
    = (Return c, Some (committed (connection c)))
    /\ max_size c = Z.max 1 1.
Proof.
  destruct (reopening_keeps_rows_and_trigger Scenario.file_of_earlier_run
              [] 1 ltac:(constructor)) as [c (H1 & H2 & _)].
  exists c. split; [exact H1 | exact H2].
Defined.


(** *** Keys and rows *)

Lemma same_key_eq (p l : string) (r : Row) :
  same_key p l r = true <-> DurableSession.row_key r = (p, l).
Proof.
  unfold same_key, DurableSession.row_key.
  rewrite andb_true_iff, !String.eqb_eq. split.
  - intros [-> ->]. reflexivity.
  - intros H; inversion H; auto.
Qed.

Lemma same_key_touch (now : Z) (p l : string) (r : Row) :
  same_key p l (DurableSession.touch now r) = same_key p l r.
Proof. reflexivity. Qed.

Lemma find_unique (p l : string) (rows : list Row) (x : Row) :
  NoDup (map DurableSession.row_key rows) ->
  In x rows -> same_key p l x = true ->
  find (same_key p l) rows = Some x.
Proof.
  induction rows as [|r rows IH]; simpl; [tauto|].
  intros Hd Hin Hx. inversion Hd as [|? ? Hn Hd']; subst.
  destruct (same_key p l r) eqn:Er.
  - destruct Hin as [-> | Hin]; auto.
    exfalso. apply Hn. apply same_key_eq in Er. apply same_key_eq in Hx.
    rewrite Er, <- Hx. apply in_map; auto.
  - destruct Hin as [-> | Hin]; [congruence | auto].
Qed.

Lemma find_other_key (p l p' l' : string) (rows : list Row) (new : Row) :
  (p', l') <> (p, l) -> same_key p l new = true ->
  find (same_key p' l') (filter (fun r => negb (same_key p l r)) rows ++ [new])
  = find (same_key p' l') rows.
Proof.
  intros Hne Hnew.
  assert (Hskip : forall r, same_key p l r = true -> same_key p' l' r = false).
  { intros r Hr. destruct (same_key p' l' r) eqn:E; auto.
    apply same_key_eq in Hr. apply same_key_eq in E. congruence. }
  induction rows as [|r rows IH]; simpl.
  - rewrite (Hskip new Hnew). reflexivity.
  - destruct (same_key p l r) eqn:Er; simpl.
    + rewrite (Hskip r Er). exact IH.
    + destruct (same_key p' l' r); auto.
Qed.

Lemma filter_shorter {A} (f : A -> bool) (l : list A) (x : A) :
  In x l -> f x = false ->
  (List.length (filter f l) < List.length l)%nat.
Proof.
  induction l as [|a l IH]; simpl; [tauto|].
  intros [-> | Hin] Hx.
  - rewrite Hx. pose proof (filter_length_le f l). lia.
  - specialize (IH Hin Hx). destruct (f a); simpl; lia.
Qed.

Lemma filter_keeps_all {A} (f : A -> bool) (l : list A) (x : A) :
  List.length (filter f l) = List.length l -> In x l -> f x = true.
Proof.
  intros H Hin. apply filter_length_forallb in H.
  rewrite forallb_forall in H. auto.
Qed.

Lemma fire_trigger_idle (db : Database) (bound : Z) :
  trigger_lru_eviction db = Some bound -> count db <= bound ->
  fire_trigger db = db.
Proof.
  intros Ht Hc. unfold fire_trigger. rewrite Ht.
  replace (count db >? bound) with false; auto.
  symmetry. rewrite Z.gtb_ltb. apply Z.ltb_ge. exact Hc.
Qed.

(** *** Updating a key that is in the table *)

(** X13. On a store within its bound, an [update] of a key that is in
    the table, met by no engine failure, replaces that key's row by a
    new row and deletes nothing else: the table is the old one without
    the key's row plus the new row, the number of rows does not grow,
    and every other key reads as before. *)
Theorem durable_update_present_key_keeps_rows :
  forall (self : t) (now : Z) (fs : list (option string)) (p l v : string),
    DurableSession.well_formed self ->
    quiet fs ->
    select_response p l (committed (connection self)) <> None ->
    let before := committed (connection self) in
    let after := committed (connection (snd (update self now fs p l v))) in
    lru_cache after
    = filter (fun r => negb (same_key p l r)) (lru_cache before)
      ++ [{| id := next_id (lru_cache before); prompt := p; llm_string := l;
             response := v; created_at := now; last_accessed := now |}]
    /\ count after = count before
    /\ select_response p l after = Some v
    /\ forall p' l', (p', l') <> (p, l) ->
                     select_response p' l' after
                     = select_response p' l' before.
Proof.
  intros self now fs p l v [Hq Ht Hm Hb Hi Hk] Hquiet Hpresent before after.
  destruct (update_quiet self now fs p l v Hquiet) as [_ Ec].
  assert (Ew : working (connection self) = before)
    by (unfold working; rewrite Hq; reflexivity).
  rewrite Ew in Ec.
  unfold select_response in Hpresent. fold before in Hpresent, Hk, Hb, Ht.
  destruct (find (same_key p l) (lru_cache before)) as [row|] eqn:Ef;
    [clear Hpresent | simpl in Hpresent; congruence].
  apply find_some in Ef. destruct Ef as [Hin Hrow].
  assert (Hlen : Z.of_nat (List.length (DurableHistory.inserted now p l v before))
                 = count before).
  { unfold DurableHistory.inserted, count. rewrite length_app.
    cbn [List.length].
    pose proof (filter_shorter (fun r => negb (same_key p l r))
                  (lru_cache before) row Hin) as Hlt.
    cbv beta in Hlt. rewrite Hrow in Hlt. specialize (Hlt eq_refl).
    assert (Hge : (List.length (lru_cache before)
                   <= S (List.length
                           (filter (fun r => negb (same_key p l r))
                                   (lru_cache before))))%nat).
    { clear - Hk Hin Hrow.
      induction (lru_cache before) as [|r rows IH]; simpl; [lia|].
      inversion Hk as [|? ? Hn Hd]; subst.
      destruct (same_key p l r) eqn:Er; simpl.
      - rewrite filter_all; [lia|].
        intros x Hx. apply negb_true_iff.
        destruct (same_key p l x) eqn:Ex; auto.
        exfalso. apply Hn. apply same_key_eq in Er. apply same_key_eq in Ex.
        rewrite Er, <- Ex. apply in_map; auto.
      - destruct Hin as [-> | Hin]; [congruence|].
        specialize (IH Hd Hin). lia. }
    lia. }
  assert (Eafter : after
                   = with_rows before (DurableHistory.inserted now p l v before)).
  { unfold after. rewrite Ec. cbn [committed].
    rewrite insert_or_replace_rows.
    apply fire_trigger_idle with (bound := max_size self); auto.
    unfold count at 1. cbn [lru_cache with_rows]. rewrite Hlen. exact Hb. }
  rewrite Eafter. cbn [lru_cache with_rows].
  split; [reflexivity|]. split; [unfold count at 1; cbn; exact Hlen|].
  split.
  - unfold select_response. cbn [lru_cache with_rows].
    unfold DurableHistory.inserted. rewrite find_snoc_only; auto.
    + intros y Hy. apply filter_In in Hy. destruct Hy as [_ Hy].
      apply negb_true_iff in Hy. exact Hy.
    + unfold same_key. simpl. rewrite !String.eqb_refl. reflexivity.
  - intros p' l' Hne. unfold select_response. cbn [lru_cache with_rows].
    unfold DurableHistory.inserted. rewrite find_other_key; auto.
    unfold same_key. simpl. rewrite !String.eqb_refl. reflexivity.
Qed.

Lemma durable_update_present_key_keeps_rows_witness :
  count (committed (connection
           (snd (update (DurableHistory.run (Scenario.fresh_store 2)
                                            Scenario.calls_C)
                        9 [] "k1" "llm" "z"))))
  = count (committed (connection
             (DurableHistory.run (Scenario.fresh_store 2) Scenario.calls_C))).
Proof.
  apply (durable_update_present_key_keeps_rows
           (DurableHistory.run (Scenario.fresh_store 2) Scenario.calls_C)
           9 [] "k1" "llm" "z").
  - constructor; vm_compute; try reflexivity; try discriminate.
    + repeat constructor; simpl; intuition discriminate.
    + repeat constructor; simpl; intuition discriminate.
  - constructor.
  - vm_compute. discriminate.
Defined.


(** *** A hit protects the row from the next eviction *)

Lemma sorted_head_least (h x : Row) (rest : list Row) :
  StronglySorted DurableHistory.row_le (h :: rest) ->
  In x (h :: rest) -> x = h \/ DurableHistory.row_le h x.
Proof.
  intros Hs [-> | Hin]; auto.
  inversion Hs as [|? ? _ Hall]; subst.
  rewrite Forall_forall in Hall. auto.
Qed.

Lemma touched_row_survives (db : Database) (bound now now' : Z)
      (p l p' l' v : string) (row other : Row) :
  trigger_lru_eviction db = Some bound ->
  count db <= bound ->
  NoDup (map id (lru_cache db)) ->
  In row (lru_cache db) -> same_key p l row = true ->
  In other (lru_cache db) -> same_key p l other = false ->
  last_accessed other < now ->
  same_key p' l' row = false ->
  In (DurableSession.touch now row)
     (lru_cache (insert_or_replace now' p' l' v
                   (update_last_accessed now p l db))).
Proof.
  intros Ht Hc Hi Hrow Hkey Hother Hokey Hold Hne.
  set (db1 := update_last_accessed now p l db).
  set (ins := DurableHistory.inserted now' p' l' v db1).
  assert (Hrow1 : In (DurableSession.touch now row) (lru_cache db1)).
  { unfold db1. rewrite touched_rows. apply in_map_iff.
    exists row. rewrite Hkey. auto. }
  assert (Hother1 : In other (lru_cache db1)).
  { unfold db1. rewrite touched_rows. apply in_map_iff.
    exists other. rewrite Hokey. auto. }
  assert (Hi1 : NoDup (map id (lru_cache db1)))
    by (unfold db1; rewrite touched_rows, touched_map; auto).
  assert (Hc1 : count db1 = count db)
    by (unfold db1, count; rewrite touched_rows, length_map; reflexivity).
  assert (Ht1 : trigger_lru_eviction db1 = Some bound) by exact Ht.
  assert (Hins : In (DurableSession.touch now row) ins).
  { unfold ins, DurableHistory.inserted. apply in_or_app. left.
    apply filter_In. split; auto.
    rewrite same_key_touch, Hne. reflexivity. }
  rewrite insert_or_replace_rows. fold ins.
  destruct (Z_le_gt_dec (Z.of_nat (List.length ins)) bound) as [Hle | Hgt].
  - rewrite (fire_trigger_idle _ bound); auto.
  - destruct (completed_insert_keeps_most_recent now' p' l' v db1 bound
                Ht1 Hi1) as [Hperm _]; [fold ins; lia|].
    rewrite insert_or_replace_rows in Hperm. fold ins in Hperm.
    apply (Permutation_in _ (Permutation_sym Hperm)).
    unfold DurableHistory.most_recent.
    assert (Hfull : List.length
                      (filter (fun r => negb (same_key p' l' r))
                              (lru_cache db1))
                    = List.length (lru_cache db1)).
    { pose proof (filter_length_le (fun r => negb (same_key p' l' r))
                    (lru_cache db1)) as Hf.
      unfold ins, DurableHistory.inserted in Hgt.
      rewrite length_app in Hgt. cbn [List.length] in Hgt.
      unfold count in *. lia. }
    assert (Hone : Z.to_nat (Z.of_nat (List.length ins) - bound) = 1%nat).
    { unfold ins, DurableHistory.inserted in *.
      rewrite length_app in *. cbn [List.length] in *.
      unfold count in *. lia. }
    rewrite Hone.
    assert (Hoins : In other ins).
    { unfold ins, DurableHistory.inserted. apply in_or_app. left.
      apply filter_In. split; auto.
      apply (filter_keeps_all _ _ other Hfull Hother1). }
    pose proof (order_sorted ins) as Hs.
    pose proof (order_perm ins) as Hp.
    apply (Permutation_in _ (Permutation_sym Hp)) in Hins.
    apply (Permutation_in _ (Permutation_sym Hp)) in Hoins.
    destruct (order_by_last_accessed ins) as [|h rest]; [destruct Hins|].
    cbn [skipn]. destruct Hins as [Hh | Hin]; auto.
    exfalso. subst h.
    destruct (sorted_head_least _ other _ Hs Hoins) as [E | Hle].
    + subst other. rewrite same_key_touch in Hokey. congruence.
    + unfold DurableHistory.row_le in Hle. apply row_leb_iff in Hle.
      cbn [DurableSession.touch last_accessed] in Hle. lia.
Qed.

(** X14. On a store within its bound, let a [lookup] find key [k] at a
    time later than the last access of some other row.  Whatever key
    other than [k] the next [update] writes, and whatever its clock, its
    trigger does not delete the row of [k]: a following [lookup] of [k]
    still returns the stored response (no engine call failing). *)
Theorem durable_hit_protects_from_next_eviction :
  forall (self : t) (now now' now'' : Z) (fs fs' fs'' : list (option string))
         (p l p' l' v r : string) (other : Row),
    DurableSession.well_formed self ->
    quiet fs -> quiet fs' -> quiet fs'' ->
    select_response p l (committed (connection self)) = Some r ->
    In other (lru_cache (committed (connection self))) ->
    same_key p l other = false ->
    last_accessed other < now ->
    (p', l') <> (p, l) ->
    let looked := snd (lookup self now fs p l) in
    let written := snd (update looked now' fs' p' l' v) in
    fst (lookup self now fs p l) = Return (Some r)
    /\ fst (update looked now' fs' p' l' v) = Return tt
    /\ fst (lookup written now'' fs'' p l) = Return (Some r).
Proof.
  intros self now now' now'' fs fs' fs'' p l p' l' v r other
         Hwf Hq Hq' Hq'' Hsel Hother Hokey Hold Hne looked written.
  pose proof Hwf as [Hpend Ht Hm Hb Hi Hk].
  destruct (lookup_quiet self now fs p l Hq Hpend) as (H1 & Hc1 & _).
  rewrite Hsel in H1, Hc1. fold looked in Hc1.
  destruct (update_quiet looked now' fs' p' l' v Hq') as [H2 Hc2].
  fold written in Hc2. rewrite Hc1 in Hc2. cbn [working pending] in Hc2.
  split; [exact H1|]. split; [exact H2|].
  destruct (lookup_quiet written now'' fs'' p l Hq'') as [H3 _];
    [rewrite Hc2; reflexivity|].
  rewrite H3, Hc2. cbn [committed]. f_equal.
  unfold select_response in Hsel.
  destruct (find (same_key p l) (lru_cache (committed (connection self))))
    as [row|] eqn:Ef; [|discriminate].
  simpl in Hsel. inversion Hsel; subst r. clear Hsel.
  apply find_some in Ef. destruct Ef as [Hrow Hkey].
  assert (Hrne : same_key p' l' row = false).
  { destruct (same_key p' l' row) eqn:E; auto.
    apply same_key_eq in E. apply same_key_eq in Hkey. congruence. }
  pose proof (touched_row_survives (committed (connection self))
                (max_size self) now now' p l p' l' v row other
                Ht Hb Hi Hrow Hkey Hother Hokey Hold Hrne) as Hin.
  assert (Hwf2 : DurableSession.well_formed written).
  { unfold written. apply well_formed_update.
    unfold looked. apply well_formed_lookup. exact Hwf. }
  destruct Hwf2 as [_ _ _ _ _ Hk2]. rewrite Hc2 in Hk2. cbn [committed] in Hk2.
  unfold select_response.
  rewrite (find_unique p l _ (DurableSession.touch now row) Hk2 Hin);
    [reflexivity|].
  rewrite same_key_touch. exact Hkey.
Qed.

Lemma durable_hit_protects_from_next_eviction_witness :
  fst (lookup
         (snd (update
                 (snd (lookup (DurableHistory.run (Scenario.fresh_store 2)
                                                  Scenario.calls_C)
                              5 [] "k1" "llm"))
                 6 [] "k3" "llm" "c"))
         7 [] "k1" "llm")
  = Return (Some "a").
Proof.
  apply (durable_hit_protects_from_next_eviction
           (DurableHistory.run (Scenario.fresh_store 2) Scenario.calls_C)
           5 6 7 [] [] [] "k1" "llm" "k3" "llm" "c" "a"
           {| id := 2; prompt := "k2"; llm_string := "llm"; response := "b";
              created_at := 2; last_accessed := 2 |}).
  - constructor; vm_compute; try reflexivity; try discriminate.
    + repeat constructor; simpl; intuition discriminate.
    + repeat constructor; simpl; intuition discriminate.
  - constructor.
  - constructor.
  - constructor.
  - reflexivity.
  - vm_compute. auto.
  - reflexivity.
  - simpl. lia.
  - discriminate.
Defined.


End DurableExtras.

(** ** More on the manager *)

Module ManagerExtras.

Import CacheManager Failure.

Lemma init_quiet (file : option LRUSQLiteCache.Database)
      (fs : list (option string)) (m : Z) :
  quiet fs ->
  let db := LRUSQLiteCache.create_trigger_if_not_exists (Z.max m 1)
              match file with
              | Some d => d
              | None => LRUSQLiteCache.empty_database
              end in
  LRUSQLiteCache.__init__ file None fs m
  = (Return {| LRUSQLiteCache.max_size := Z.max m 1;
               LRUSQLiteCache.connection :=
                 {| LRUSQLiteCache.committed := db;
                    LRUSQLiteCache.pending := None |};
               LRUSQLiteCache.stdout := [] |},
     Some db).
Proof.
  intros Hq db. unfold db, LRUSQLiteCache.__init__.
  do 5 (destruct fs as [|f fs];
        [reflexivity
        |inversion Hq as [|? ? Ef Hq']; subst; clear Hq; rename Hq' into Hq]).
  reflexivity.
Qed.

Lemma init_raises (file : option LRUSQLiteCache.Database)
      (base : option string) (fs : list (option string)) (m : Z) :
  base <> None \/ fails_within 5 fs = true ->
  exists e, fst (LRUSQLiteCache.__init__ file base fs m) = Raise e.
Proof.
  intros [Hb | Hf].
  - unfold LRUSQLiteCache.__init__. destruct base; [cbn; eauto | congruence].
  - destruct base as [msg|]; [cbn; eauto|].
    apply DurableFacts.init_aborts; auto.
Qed.

(** *** Starting the manager *)

(** X15. With [ENABLE_CACHE] false the manager installs no backend
    ([llm_cache] is [None] whatever was there), makes no attempt and
    keeps no error, and logs one INFO line; [health_check] then reports
    healthy with the "disabled" message and touches nothing, and
    [get_cache_stats] reports [status = "not_available"] with no size. *)
Theorem disabled_cache_installs_nothing :
  forall (cfg : Config) (env env' : Environment) (p : Process),
    ENABLE_CACHE cfg = false ->
    let started := _initialize cfg env p in
    llm_cache (snd started) = NoCache
    /\ _cache_initialized (fst started) = false
    /\ _init_attempts (fst started) = 0
    /\ _last_error (fst started) = None
    /\ cache_file (snd started) = cache_file p
    /\ log (snd started) = log p ++ [(INFO, "缓存功能已禁用")]
    /\ health_check cfg env' (snd started)
       = (Return {| healthy := true; health_message := "缓存功能已禁用";
                    health_cache_type := CACHE_TYPE cfg |},
          snd started)
    /\ get_cache_stats cfg env' (fst started) (snd started)
       = (Return {| ms_status := "not_available"; ms_type := CACHE_TYPE cfg;
                    ms_initialized := false; ms_last_error := None;
                    ms_init_attempts := 0; ms_size := None;
                    ms_hit_rate := None; ms_details := None |},
          snd started).
Proof.
  intros cfg env env' p Hoff started.
  unfold started, _initialize, _init_cache, health_check, get_cache_stats.
  rewrite Hoff. cbn. repeat split.
Qed.

Lemma disabled_cache_installs_nothing_witness :
  llm_cache (snd (_initialize
                    {| ENABLE_CACHE := false; CACHE_TYPE := "sqlite";
                       CACHE_PATH := ".rag_cache.db"; CACHE_MAX_SIZE := 1000;
                       CACHE_TTL := Some 3600 |}
                    (no_failures 0) Scenario.process_full))
  = NoCache.
Proof.
  apply (disabled_cache_installs_nothing
           {| ENABLE_CACHE := false; CACHE_TYPE := "sqlite";
              CACHE_PATH := ".rag_cache.db"; CACHE_MAX_SIZE := 1000;
              CACHE_TTL := Some 3600 |}
           (no_failures 0) (no_failures 0) Scenario.process_full).
  reflexivity.
Defined.

(** X16. With type ["sqlite"], when neither [mkdir], the base-class
    constructor nor any engine call fails, the manager installs a
    durable backend with [max_size = max(CACHE_MAX_SIZE, 1)] and no open
    transaction, whose table is the table of the cache file if there was
    one and empty otherwise; the file exists afterwards and holds what
    the backend sees; the manager is initialised after one attempt with
    no error, and one INFO line is logged. *)
Theorem sqlite_start_installs_durable_backend :
  forall (cfg : Config) (env : Environment) (p : Process),
    ENABLE_CACHE cfg = true ->
    CACHE_TYPE cfg = "sqlite" ->
    mkdir_error env = None ->
    base_error env = None ->
    quiet (engine_faults env) ->
    let started := _initialize cfg env p in
    exists c,
      llm_cache (snd started) = SQLite c
      /\ LRUSQLiteCache.max_size c = Z.max (CACHE_MAX_SIZE cfg) 1
      /\ LRUSQLiteCache.pending (LRUSQLiteCache.connection c) = None
      /\ LRUSQLiteCache.lru_cache
           (LRUSQLiteCache.committed (LRUSQLiteCache.connection c))
         = match cache_file p with
           | Some db => LRUSQLiteCache.lru_cache db
           | None => []
           end
      /\ cache_file (snd started)
         = Some (LRUSQLiteCache.committed (LRUSQLiteCache.connection c))
      /\ _cache_initialized (fst started) = true
      /\ _init_attempts (fst started) = 1
      /\ _last_error (fst started) = None
      /\ map fst (log (snd started)) = map fst (log p) ++ [INFO].
Proof.
  intros cfg env p Hon Hty Hmk Hbase Hq started.
  unfold started, _initialize, _init_cache, _setup_sqlite_cache.
  rewrite Hon, Hty, Hmk, Hbase. cbn [negb String.eqb Ascii.eqb Bool.eqb].
  rewrite (init_quiet (cache_file p) (engine_faults env)
             (CACHE_MAX_SIZE cfg) Hq).
  eexists. cbn [fst snd llm_cache set_llm_cache set_cache_file logger
                cache_file log _cache_initialized _init_attempts _last_error].
  split; [reflexivity|].
  cbn [LRUSQLiteCache.max_size LRUSQLiteCache.connection
       LRUSQLiteCache.pending LRUSQLiteCache.committed].
  repeat split.
  - unfold LRUSQLiteCache.create_trigger_if_not_exists.
    destruct (cache_file p) as [db|];
      [destruct (LRUSQLiteCache.trigger_lru_eviction db)|]; reflexivity.
  - rewrite map_app. reflexivity.
Qed.

Lemma sqlite_start_installs_durable_backend_witness :
  exists c,
    llm_cache (snd (_initialize Scenario.config_shipped (no_failures 0)
                                Scenario.process_start))
    = SQLite c
    /\ LRUSQLiteCache.max_size c = Z.max 1000 1.
Proof.
  destruct (sqlite_start_installs_durable_backend Scenario.config_shipped
              (no_failures 0) Scenario.process_start
              eq_refl eq_refl eq_refl eq_refl ltac:(constructor))
    as [c (H1 & H2 & _)].
  exists c. split; [exact H1 | exact H2].
Defined.

(** X17. With type ["sqlite"], when [mkdir] fails, or the base-class
    constructor fails, or one of the constructor's five engine calls
    fails, the manager ends with no backend installed, not initialised,
    one attempt counted, the error's text kept in [_last_error], and one
    ERROR line logged that carries the attempt number and that text. *)
Theorem sqlite_start_failure_is_recorded :
  forall (cfg : Config) (env : Environment) (p : Process),
    ENABLE_CACHE cfg = true ->
    CACHE_TYPE cfg = "sqlite" ->
    mkdir_error env <> None \/ base_error env <> None
    \/ fails_within 5 (engine_faults env) = true ->
    let started := _initialize cfg env p in
    llm_cache (snd started) = NoCache
    /\ _cache_initialized (fst started) = false
    /\ _init_attempts (fst started) = 1
    /\ exists msg,
         _last_error (fst started) = Some msg
         /\ log (snd started)
            = log p
              ++ [(ERROR, ("缓存初始化失败 (尝试次数: 1): " ++ msg)%string)].
Proof.
  intros cfg env p Hon Hty Hfail started.
  unfold started, _initialize, _init_cache, _setup_sqlite_cache.
  rewrite Hon, Hty. cbn [negb String.eqb Ascii.eqb Bool.eqb].
  destruct (mkdir_error env) as [msg|] eqn:Hmk.
  - cbn. repeat split. eexists. split; reflexivity.
  - assert (Hinit : base_error env <> None
                    \/ fails_within 5 (engine_faults env) = true)
      by (destruct Hfail as [H | H]; [congruence | exact H]).
    destruct (init_raises (cache_file p) (base_error env) (engine_faults env)
                (CACHE_MAX_SIZE cfg) Hinit) as [e He].
    destruct (LRUSQLiteCache.__init__ _ _ _ _) as [[c|e'] file];
      cbn [fst] in He; [discriminate|].
    cbn. repeat split. eexists. split; reflexivity.
Qed.

Lemma sqlite_start_failure_is_recorded_witness :
  _last_error
    (fst (_initialize Scenario.config_shipped
            {| mkdir_error := None; unlink_error := None; base_error := None;
               engine_faults := Scenario.disk_error; engine_faults' := [];
               now_update := 0; now_check := 0; now_touch := 0 |}
            Scenario.process_start))
  = Some "disk I/O error".
Proof.
  destruct (sqlite_start_failure_is_recorded Scenario.config_shipped
              {| mkdir_error := None; unlink_error := None;
                 base_error := None;
                 engine_faults := Scenario.disk_error; engine_faults' := [];
                 now_update := 0; now_check := 0; now_touch := 0 |}
              Scenario.process_start eq_refl eq_refl
              ltac:(right; right; reflexivity))
    as (_ & _ & _ & msg & Hm & _).
  rewrite Hm. vm_compute in Hm. inversion Hm. reflexivity.
Defined.

(** *** [health_check] *)

(** X18. [health_check] always returns a dict whose [cache_type] is
    [Config.CACHE_TYPE], and never writes to the logger.  With type
    ["sqlite"] its answer depends only on the two engine calls it makes
    itself ([connect] and [SELECT 1]), not on the backend that is
    installed, which it does not touch: healthy when both go through,
    even with no backend installed, and unhealthy with the text of the
    first error otherwise.  It is not read-only: when there is no file
    at [Config.CACHE_PATH] and [connect] goes through, an empty database
    file is there afterwards, whatever [SELECT 1] does, so that a
    [clear_cache] that follows finds a file to delete and reports
    success.  With another type and no backend installed it reports
    unhealthy with the "unknown type" message and changes nothing. *)
Theorem health_check_outcomes :
  forall (cfg : Config) (env : Environment) (p : Process),
    (exists h, fst (health_check cfg env p) = Return h
               /\ health_cache_type h = CACHE_TYPE cfg)
    /\ log (snd (health_check cfg env p)) = log p
    /\ (ENABLE_CACHE cfg = true -> CACHE_TYPE cfg = "sqlite" ->
        llm_cache (snd (health_check cfg env p)) = llm_cache p
        /\ fst (health_check cfg env p)
           = Return
               match first_failure 2 (engine_faults env) with
               | None =>
                   {| healthy := true;
                      health_message := "SQLite缓存连接正常";
                      health_cache_type := "sqlite" |}
               | Some msg =>
                   {| healthy := false;
                      health_message := ("健康检查失败: " ++ msg)%string;
                      health_cache_type := "sqlite" |}
               end
        /\ cache_file (snd (health_check cfg env p))
           = match cache_file p, engine_faults env with
             | Some db, _ => Some db
             | None, Some _ :: _ => None
             | None, _ => Some LRUSQLiteCache.empty_database
             end
        /\ (forall env',
              cache_file p = None ->
              first_failure 1 (engine_faults env) = None ->
              unlink_error env' = None ->
              fst (clear_cache cfg env' p)
              = Return {| success := false;
                          message := "SQLite缓存文件不存在";
                          cache_type := "sqlite" |}
              /\ fst (clear_cache cfg env' (snd (health_check cfg env p)))
                 = Return {| success := true; message := "SQLite缓存已清空";
                             cache_type := "sqlite" |}))
    /\ (ENABLE_CACHE cfg = true -> CACHE_TYPE cfg <> "sqlite" ->
        llm_cache p = NoCache ->
        health_check cfg env p
        = (Return {| healthy := false; health_message := "未知缓存类型";
                     health_cache_type := CACHE_TYPE cfg |}, p)).
Proof.
  intros cfg env p.
  split; [|split; [|split]].
  - unfold health_check, health_check_body.
    destruct (ENABLE_CACHE cfg); cbn [negb]; [|cbn; eauto].
    destruct (String.eqb (CACHE_TYPE cfg) "sqlite").
    + destruct (engine_faults env) as [|[msg|] [|[msg'|] fs]];
        cbn; eauto.
    + destruct (llm_cache p) as [|c|c]; [cbn; eauto | |].
      * destruct (probe env (InMemory c)) as [[[|]|e] c']; cbn; eauto.
      * destruct (probe env (SQLite c)) as [[[|]|e] c']; cbn; eauto.
  - unfold health_check, health_check_body.
    destruct (ENABLE_CACHE cfg); cbn [negb]; [|reflexivity].
    destruct (String.eqb (CACHE_TYPE cfg) "sqlite").
    + destruct (engine_faults env) as [|[msg|] [|[msg'|] fs]]; reflexivity.
    + destruct (llm_cache p) as [|c|c]; [reflexivity | |].
      * destruct (probe env (InMemory c)) as [[[|]|e] c']; reflexivity.
      * destruct (probe env (SQLite c)) as [[[|]|e] c']; reflexivity.
  - intros Hon Hty.
    assert (Hc : forall env' q,
               cache_file q = match cache_file p with
                              | Some db => Some db
                              | None => Some LRUSQLiteCache.empty_database
                              end ->
               unlink_error env' = None ->
               fst (clear_cache cfg env' q)
               = Return {| success := true; message := "SQLite缓存已清空";
                           cache_type := "sqlite" |}).
    { intros env' q Hq Hu. unfold clear_cache, clear_cache_body.
      rewrite Hty. cbn [String.eqb Ascii.eqb Bool.eqb].
      rewrite Hq, Hu. destruct (cache_file p); reflexivity. }
    unfold health_check, health_check_body.
    rewrite Hon, Hty. cbn [negb String.eqb Ascii.eqb Bool.eqb].
    destruct (engine_faults env) as [|[msg|] [|[msg'|] fs]] eqn:Ef;
      cbn; (split; [reflexivity|]); (split; [reflexivity|]);
      (split; [destruct (cache_file p); reflexivity|]);
      intros env' Hnone Hfirst Hu; try discriminate Hfirst;
      (split;
       [unfold clear_cache, clear_cache_body; rewrite Hty, Hnone; reflexivity
       |apply Hc; [rewrite Hnone; reflexivity | exact Hu]]).
  - intros Hon Hty Hnone. unfold health_check, health_check_body.
    rewrite Hon, (ManagerFacts.eqb_sqlite_false _ Hty), Hnone. reflexivity.
Qed.

Lemma health_check_outcomes_witness :
  fst (health_check Scenario.config_shipped (no_failures 0)
         Scenario.process_start)
  = Return {| healthy := true; health_message := "SQLite缓存连接正常";
              health_cache_type := "sqlite" |}
  /\ cache_file Scenario.process_start = None
  /\ cache_file (snd (health_check Scenario.config_shipped (no_failures 0)
                        Scenario.process_start))
     = Some LRUSQLiteCache.empty_database.
Proof.
  destruct (health_check_outcomes Scenario.config_shipped (no_failures 0)
              Scenario.process_start) as (_ & _ & H & _).
  destruct (H eq_refl eq_refl) as (_ & Hok & Hfile & _).
  split; [exact Hok|]. split; [reflexivity | exact Hfile].
Defined.

(** *** [get_cache_stats] *)

(** X19. [get_cache_stats] always returns a dict that carries the
    manager's own [initialized], [last_error] and [init_attempts] and
    [Config.CACHE_TYPE].  With no
    backend installed the status is ["not_available"] and there is no
    size.  With the in-memory backend the status follows the manager's
    flag, nothing in the process changes, [details] is the backend's
    [get_stats()] and [size] is the backend's number of entries over
    [Config.CACHE_MAX_SIZE] (not over the backend's own [max_size]).
    With the durable backend, a storage error inside the backend's
    [get_stats] does not reach the top-level [status]: it stays what the
    manager's flag says, [size] reads ["?/..."], [hit_rate] is ['N/A']
    and only [details] carries the error; without a failure [size] is
    the row count over [Config.CACHE_MAX_SIZE]. *)
Theorem get_cache_stats_outcomes :
  forall (cfg : Config) (env : Environment) (self : t) (p : Process),
    let flag := if _cache_initialized self then "active" else "inactive" in
    (exists st,
        fst (get_cache_stats cfg env self p) = Return st
        /\ ms_type st = CACHE_TYPE cfg
        /\ ms_initialized st = _cache_initialized self
        /\ ms_last_error st = _last_error self
        /\ ms_init_attempts st = _init_attempts self)
    /\ (llm_cache p = NoCache ->
        snd (get_cache_stats cfg env self p) = p
        /\ exists st,
             fst (get_cache_stats cfg env self p) = Return st
             /\ ms_status st = "not_available"
             /\ ms_size st = None /\ ms_hit_rate st = None
             /\ ms_details st = None)
    /\ (forall c,
          llm_cache p = InMemory c ->
          snd (get_cache_stats cfg env self p) = p
          /\ exists st,
               fst (get_cache_stats cfg env self p) = Return st
               /\ ms_status st = flag
               /\ ms_size st
                  = Some (str_int (LRUInMemoryCache.len
                                     (LRUInMemoryCache._cache c))
                          ++ "/" ++ str_int (CACHE_MAX_SIZE cfg))%string
               /\ ms_details st
                  = Some (MemoryStats (LRUInMemoryCache.get_stats c)))
    /\ (forall c,
          llm_cache p = SQLite c ->
          fails_within 3 (engine_faults env) = true ->
          log (snd (get_cache_stats cfg env self p)) = log p
          /\ exists st msg d,
               fst (get_cache_stats cfg env self p) = Return st
               /\ ms_status st = flag
               /\ ms_size st
                  = Some ("?" ++ "/" ++ str_int (CACHE_MAX_SIZE cfg))%string
               /\ ms_hit_rate st = Some NotAvailable
               /\ ms_details st = Some (SQLiteStats d)
               /\ LRUSQLiteCache.status d = ("error: " ++ msg)%string)
    /\ (forall c,
          llm_cache p = SQLite c ->
          quiet (engine_faults env) ->
          LRUSQLiteCache.pending (LRUSQLiteCache.connection c) = None ->
          exists st,
            fst (get_cache_stats cfg env self p) = Return st
            /\ ms_status st = flag
            /\ ms_size st
               = Some (str_int (LRUSQLiteCache.count
                                  (LRUSQLiteCache.committed
                                     (LRUSQLiteCache.connection c)))
                       ++ "/" ++ str_int (CACHE_MAX_SIZE cfg))%string
            /\ ms_hit_rate st = Some (SQLiteRate 0)).
Proof.
  intros cfg env self p flag.
  split; [|split; [|split; [|split]]].
  - unfold get_cache_stats. destruct (llm_cache p) as [|c|c]; cbn; eauto 10.
    destruct (LRUSQLiteCache.get_stats c (engine_faults env))
      as [[d|e] c']; cbn; eauto 10.
  - intros Hc. unfold get_cache_stats. rewrite Hc. cbn. eauto 10.
  - intros c Hc. unfold get_cache_stats. rewrite Hc. cbn. eauto 10.
  - intros c Hc Hf. unfold get_cache_stats. rewrite Hc.
    destruct (DurableFacts.get_stats_degrades c (engine_faults env) Hf)
      as [msg [Hd _]].
    destruct (LRUSQLiteCache.get_stats c (engine_faults env))
      as [[d|e] c']; cbn [fst] in Hd; [|discriminate].
    inversion Hd; subst d. cbn. split; [reflexivity|].
    eexists. exists msg. eexists. repeat split.
  - intros c Hc Hq Hp. unfold get_cache_stats. rewrite Hc.
    pose proof (DurableExtras.get_stats_quiet c (engine_faults env) Hq Hp)
      as Hd.
    destruct (LRUSQLiteCache.get_stats c (engine_faults env))
      as [[d|e] c']; cbn [fst] in Hd; [|discriminate].
    inversion Hd; subst d. cbn. eexists. repeat split.
Qed.

Lemma get_cache_stats_outcomes_witness :
  exists st,
    fst (get_cache_stats (Scenario.config_with_type "memory" 0)
           (no_failures 0)
           {| _cache_initialized := true; _init_attempts := 1;
              _last_error := None |}
           Scenario.process_full)
    = Return st
    /\ ms_size st = Some "2/0".
Proof.
  destruct (get_cache_stats_outcomes (Scenario.config_with_type "memory" 0)
              (no_failures 0)
              {| _cache_initialized := true; _init_attempts := 1;
                 _last_error := None |}
              Scenario.process_full) as (_ & _ & H & _).
  destruct (H Scenario.cache_full eq_refl) as [_ [st (H1 & _ & H3 & _)]].
  exists st. split; [exact H1 | rewrite H3; reflexivity].
Defined.


End ManagerExtras.
